(** * cait views: normalised accession views, record loaders and the
      accession title index

    A shallow embedding of the Go package [cait] (file with the view
    structures, [NormalizeView], [MakeSubjectList], [MakeSubjectMap],
    [MakeDigitalObjectMap], [MakeAccessionTitleIndex] and
    [NavElementView.String]) and the properties its design document states
    about them.

    Conventions.
    - A Go [string] is a Rocq [string]: a sequence of bytes ([ascii]).
      Go compares strings byte by byte, which is [String.compare].
    - A Go [error] is kept as the text its [Error] method returns; [nil] is
      [None].
    - A slice is a [list] (the nil slice is the empty list), a Go map
      a [gmap]; a nil map or nil pointer is [None] where the code can
      produce one.
    - A run-time panic (nil dereference) is the outcome [Panicked].
    - The calls to [log.Printf] are left out: they change no value the
      functions return. *)

From Stdlib Require Import ZArith String Ascii List.
From stdpp Require Import gmap strings list fin_maps sorting.

Local Open Scope string_scope.

(* ================================================================== *)
(** * Go library functions used by the package *)
(* ================================================================== *)

Definition error := string.

Inductive outcome (A : Type) : Type :=
  | Returned (result : A) (err : option error)
  | Panicked.
Arguments Returned {A} result err.
Arguments Panicked {A}.

(** The double quote character, for the markup literals. *)
Definition dquote : string := String "034"%char EmptyString.

(** [s[n:]] for [n <= len(s)]. *)
Fixpoint slice_from (s : string) (n : nat) : string :=
  match n, s with
  | O, _ => s
  | S n', String _ s' => slice_from s' n'
  | S _, EmptyString => EmptyString
  end.

(** [strings.HasSuffix]:
    [len(s) >= len(suffix) && s[len(s)-len(suffix):] == suffix]. *)
Definition HasSuffix (s suffix : string) : bool :=
  (String.length suffix <=? String.length s)%nat
  && String.eqb (slice_from s (String.length s - String.length suffix)) suffix.

(** [strings.LastIndex]: the index of the last instance of [substr] in [s],
    or -1.  [last_index_from] scans the suffixes of [s] from the left and
    keeps the last position at which [substr] is a prefix. *)
Fixpoint last_index_from (s substr : string) (i found : Z) : Z :=
  let found' := if String.prefix substr s then i else found in
  match s with
  | EmptyString => found'
  | String _ rest => last_index_from rest substr (i + 1) found'
  end.

Definition LastIndex (s substr : string) : Z :=
  last_index_from s substr 0 (-1).

(** [strings.Trim(s, cutset)] for a cutset of ASCII bytes: the leading and
    trailing bytes that occur in [cutset] are removed. *)
Fixpoint in_cutset (c : ascii) (cutset : string) : bool :=
  match cutset with
  | EmptyString => false
  | String d rest => Ascii.eqb c d || in_cutset c rest
  end.

Fixpoint TrimLeft (s cutset : string) : string :=
  match s with
  | EmptyString => EmptyString
  | String c rest => if in_cutset c cutset then TrimLeft rest cutset else s
  end.

Fixpoint TrimRight (s cutset : string) : string :=
  match s with
  | EmptyString => EmptyString
  | String c rest =>
      match TrimRight rest cutset with
      | EmptyString =>
          if in_cutset c cutset then EmptyString else String c EmptyString
      | kept => String c kept
      end
  end.

Definition Trim (s cutset : string) : string :=
  TrimRight (TrimLeft s cutset) cutset.

(** [strings.Join(elems, sep)]; used to state what the renderer is
    documented to produce. *)
Fixpoint Join (elems : list string) (sep : string) : string :=
  match elems with
  | [] => ""
  | [e] => e
  | e :: rest => e +:+ sep +:+ Join rest sep
  end.

(** [sort.Strings]: sorts a slice of strings in increasing order of Go's
    [<], the byte-wise order [String.le].  Any sorting algorithm gives the
    same slice (see [sort_Strings_unique]), so the library's choice of
    algorithm is immaterial. *)
Definition sort_Strings (x : list string) : list string :=
  merge_sort String.le x.

(* ================================================================== *)
(** * View structures *)
(* ================================================================== *)

(** [NavElementView]: previous/next links of a browsable record list. *)
Record NavElementView : Type := mkNavElementView {
  ThisLabel : string;
  ThisURI : string;
  PrevURI : string;
  PrevLabel : string;
  NextURI : string;
  NextLabel : string;
  Weight : Z
}.

(** [new(NavElementView)] *)
Definition new_NavElementView : NavElementView :=
  mkNavElementView "" "" "" "" "" "" 0.

Definition set_This (nav : NavElementView) (label uri : string) :=
  mkNavElementView label uri (PrevURI nav) (PrevLabel nav)
                   (NextURI nav) (NextLabel nav) (Weight nav).

Definition set_Prev (nav : NavElementView) (label uri : string) :=
  mkNavElementView (ThisLabel nav) (ThisURI nav) uri label
                   (NextURI nav) (NextLabel nav) (Weight nav).

Definition set_Next (nav : NavElementView) (label uri : string) :=
  mkNavElementView (ThisLabel nav) (ThisURI nav) (PrevURI nav) (PrevLabel nav)
                   uri label (Weight nav).

(* ------------------------------------------------------------------ *)
(** ** [NavElementView.String] *)

Definition prev_fragment (nav : NavElementView) : string :=
  "<a class=" +:+ dquote +:+ "prev-item" +:+ dquote +:+ " href=" +:+ dquote
  +:+ PrevURI nav +:+ dquote +:+ " title=" +:+ dquote +:+ PrevLabel nav
  +:+ dquote +:+ ">prev</a>".

Definition this_fragment (nav : NavElementView) : string :=
  "<span class=" +:+ dquote +:+ "this-item" +:+ dquote +:+ " data-uri="
  +:+ dquote +:+ ThisURI nav +:+ dquote +:+ " data-title=" +:+ dquote
  +:+ ThisLabel nav +:+ dquote +:+ ">" +:+ ThisLabel nav +:+ "</span>".

Definition next_fragment (nav : NavElementView) : string :=
  "<a class=" +:+ dquote +:+ "next-item" +:+ dquote +:+ " href=" +:+ dquote
  +:+ NextURI nav +:+ dquote +:+ " title=" +:+ dquote +:+ NextLabel nav
  +:+ dquote +:+ ">next</a>".

Definition NavElementView_String (nav : NavElementView) : string :=
  let prev := if String.eqb (PrevURI nav) "" then "" else prev_fragment nav in
  let this := if String.eqb (ThisURI nav) "" then "" else this_fragment nav in
  let next := if String.eqb (NextURI nav) "" then "" else next_fragment nav in
  Trim (prev +:+ " " +:+ this +:+ " " +:+ next) " ".

(** What the design document says the renderer produces: the fragments
    whose URI is non-empty, in prev/this/next order. *)
Definition present_fragments (nav : NavElementView) : list string :=
  (if String.eqb (PrevURI nav) "" then [] else [prev_fragment nav])
  ++ (if String.eqb (ThisURI nav) "" then [] else [this_fragment nav])
  ++ (if String.eqb (NextURI nav) "" then [] else [next_fragment nav]).

(* ================================================================== *)
(** * JSON, as [encoding/json] reads and writes it *)
(* ================================================================== *)

(** A JSON text.  An object keeps its members in the order of the text,
    duplicate keys included; keys and strings are unquoted. *)
#[warnings="-register-all"]
Inductive json : Type :=
  | JNull
  | JBool (b : bool)
  | JNumber (lit : string)
  | JString (s : string)
  | JArray (elems : list json)
  | JObject (members : list (string * json)).

(** The bytes of a file, seen through the JSON grammar: [json.Unmarshal]
    first checks that its input is one well-formed JSON value and returns a
    syntax error, leaving the destination untouched, when it is not. *)
Inductive document : Type :=
  | Malformed (cause : error)
  | Wellformed (v : json).

(** The value of an [interface{}] that was decoded from JSON: [nil], [bool],
    [float64], [string], [[]interface{}] or [map[string]interface{}].
    Numbers are never inspected by the package and are kept as their JSON
    literal. *)
#[warnings="-register-all"]
Inductive value : Type :=
  | VNil
  | VBool (b : bool)
  | VNumber (lit : string)
  | VString (s : string)
  | VArray (elems : list value)
  | VObject (m : gmap string value).

(** [json.Marshal] on such a value (it cannot fail on them).  Strings are
    valid UTF-8, as the decoder delivers them, and are written back
    unchanged; the members of a map are written once per key (Go writes
    them in key order; the order plays no role when they are read back
    into a map, see [Unmarshal_kv_Marshal]). *)
Fixpoint Marshal (v : value) : json :=
  match v with
  | VNil => JNull
  | VBool b => JBool b
  | VNumber lit => JNumber lit
  | VString s => JString s
  | VArray elems => JArray (map Marshal elems)
  | VObject m => JObject (map_to_list (Marshal <$> m))
  end.

(** The JSON kind named in an [UnmarshalTypeError]. *)
Definition json_kind (v : json) : string :=
  match v with
  | JNull => "null"
  | JBool _ => "bool"
  | JNumber _ => "number"
  | JString _ => "string"
  | JArray _ => "array"
  | JObject _ => "object"
  end.

(** The text of an [UnmarshalTypeError], as the Go releases of the time
    of the package spell it.  The package only logs or forwards it. *)
Definition UnmarshalTypeError (Value GoType : string) : error :=
  "json: cannot unmarshal " +:+ Value +:+ " into Go value of type " +:+ GoType.

(** [saveError]: the decoder goes on after a type mismatch and reports the
    earliest one at the end. *)
Definition saveError (saved : option error) (err : error) : option error :=
  match saved with
  | Some _ => saved
  | None => Some err
  end.

(** [json.Unmarshal(src, &kv)] for [kv := map[string]string{}].  A member
    whose value is a string is stored; for [null] and for a value of another
    kind the key is stored with the zero string (and a type error is saved
    for the latter).  [null] at top level makes [kv] the nil map, which
    reads as empty; any other non-object is a type error and leaves [kv]
    empty. *)
Definition kv_store (acc : gmap string string * option error)
    (member : string * json) : gmap string string * option error :=
  let '(kv, saved) := acc in
  let '(key, v) := member in
  match v with
  | JString s => (<[key := s]> kv, saved)
  | JNull => (<[key := ""]> kv, saved)
  | _ => (<[key := ""]> kv,
          saveError saved (UnmarshalTypeError (json_kind v) "string"))
  end.

Definition Unmarshal_kv (src : json) : gmap string string * option error :=
  match src with
  | JObject members => foldl kv_store (∅, None) members
  | JNull => (∅, None)
  | _ => (∅, Some (UnmarshalTypeError (json_kind src) "map[string]string"))
  end.

(* ------------------------------------------------------------------ *)
(** ** Decoding the title-index projection *)

(** The anonymous struct [{Title, URI, JSONModel}] declared inside
    [MakeAccessionTitleIndex]. *)
Module accessionInfo.
Record t : Type := mk {
  Title : string;
  URI : string;
  JSONModel : string
}.
Definition zero : t := mk "" "" "".
End accessionInfo.

Inductive field : Type := FTitle | FURI | FJSONModel.

Definition field_name (f : field) : string :=
  match f with
  | FTitle => "title"
  | FURI => "uri"
  | FJSONModel => "jsonmodel_type"
  end.

Definition set_field (f : field) (s : string) (a : accessionInfo.t) :=
  match f with
  | FTitle =>
      accessionInfo.mk s (accessionInfo.URI a) (accessionInfo.JSONModel a)
  | FURI =>
      accessionInfo.mk (accessionInfo.Title a) s (accessionInfo.JSONModel a)
  | FJSONModel =>
      accessionInfo.mk (accessionInfo.Title a) (accessionInfo.URI a) s
  end.

(** Key matching of [encoding/json]: an exact match of the field name wins,
    otherwise the first field whose name equals the key under case folding.
    [caseMask] clears bit 5 of a byte. *)
Definition caseMask (b : ascii) : N := N.land (N_of_ascii b) 223.

Definition is_upper (u : N) : bool := ((65 <=? u) && (u <=? 90))%N.

(** For names made of ASCII letters other than k and s. *)
Fixpoint simpleLetterEqualFold (s t : string) : bool :=
  match s, t with
  | EmptyString, EmptyString => true
  | String sb s', String tb t' =>
      (caseMask sb =? caseMask tb)%N && simpleLetterEqualFold s' t'
  | _, _ => false
  end.

(** For ASCII names with a k or an s: the key may spell them with the
    Kelvin sign (E2 84 AA) or the long s (C5 BF). *)
Fixpoint equalFoldRight (s t : string) : bool :=
  match s, t with
  | EmptyString, EmptyString => true
  | EmptyString, String _ _ => false
  | String _ _, EmptyString => false
  | String sb s', String tb t' =>
      if (N_of_ascii tb <? 128)%N then
        if Ascii.eqb sb tb then equalFoldRight s' t'
        else
          is_upper (caseMask sb) && (caseMask sb =? caseMask tb)%N
          && equalFoldRight s' t'
      else
        if (caseMask sb =? 83)%N then
          match t with
          | String "197"%char (String "191"%char t2) => equalFoldRight s' t2
          | _ => false
          end
        else if (caseMask sb =? 75)%N then
          match t with
          | String "226"%char (String "132"%char (String "170"%char t3)) =>
              equalFoldRight s' t3
          | _ => false
          end
        else false
  end.

Definition equalFold (f : field) : string -> string -> bool :=
  match f with
  | FTitle | FURI => simpleLetterEqualFold
  | FJSONModel => equalFoldRight
  end.

Fixpoint find_field (fields : list field) (key : string) (f : option field)
    : option field :=
  match fields with
  | [] => f
  | ff :: rest =>
      if String.eqb (field_name ff) key then Some ff
      else
        find_field rest key
          (match f with
           | Some _ => f
           | None => if equalFold ff (field_name ff) key then Some ff else None
           end)
  end.

Definition field_of_key (key : string) : option field :=
  find_field [FTitle; FURI; FJSONModel] key None.

(** One member of the object: an unknown key is skipped; a string goes
    into the field; [null] leaves it; anything else is a saved type error
    and the field keeps its value. *)
Definition store_member (acc : accessionInfo.t * option error)
    (member : string * json) : accessionInfo.t * option error :=
  let '(a, saved) := acc in
  let '(key, v) := member in
  match field_of_key key with
  | None => (a, saved)
  | Some f =>
      match v with
      | JString s => (set_field f s a, saved)
      | JNull => (a, saved)
      | _ => (a, saveError saved (UnmarshalTypeError (json_kind v) "string"))
      end
  end.

(** [json.Unmarshal(src, &accession)] with [accession] a pointer to a
    fresh struct.  The first component is the pointer afterwards ([None]
    is nil: the JSON literal [null] sets a pointer to nil), the second is
    the returned error.  A value that does not fit its target is skipped
    and decoding goes on; the earliest such mismatch is returned at the
    end.  (In the error for a document that is not an object, the name of
    the anonymous struct type is shortened to [struct].) *)
Definition Unmarshal_accessionInfo (src : document)
    : option accessionInfo.t * option error :=
  match src with
  | Malformed cause => (Some accessionInfo.zero, Some cause)
  | Wellformed JNull => (None, None)
  | Wellformed (JObject members) =>
      let '(a, err) := foldl store_member (accessionInfo.zero, None) members in
      (Some a, err)
  | Wellformed v =>
      (Some accessionInfo.zero,
       Some (UnmarshalTypeError (json_kind v) "struct"))
  end.

(* ================================================================== *)
(** * Browsing data: [MakeAccessionTitleIndex] *)
(* ================================================================== *)

(** The closure [extractURI]: the text after the last ["|"]
    ([LastIndex] gives -1 when there is none, so the whole string). *)
Definition extractURI (s : string) : string :=
  let pos := LastIndex s "|" in
  let pos := (pos + 1)%Z in
  slice_from s (Z.to_nat pos).

(** [fmt.Sprintf("%s|%s", title, uri)] *)
Definition sort_key (title uri : string) : string :=
  title +:+ "|" +:+ uri.

(** The two variables the walk closure captures and updates. *)
Record walk_state : Type := mkWalkState {
  titleIndex : gmap string NavElementView;
  titlesWithURI : list string
}.

(** The body of [if accession.JSONModel == "accession"]. *)
Definition record_accession (a : accessionInfo.t) (st : walk_state)
    : walk_state :=
  let nav := set_This new_NavElementView
               (accessionInfo.Title a) (accessionInfo.URI a) in
  mkWalkState
    (<[accessionInfo.URI a := nav]> (titleIndex st))
    (titlesWithURI st ++ [sort_key (accessionInfo.Title a) (accessionInfo.URI a)]).

(** [titles[j]]; every use below is guarded so that [j] is in range. *)
Definition title_at (titles : list string) (j : nat) : string :=
  default "" (titles !! j).

(** One round of the linking loop, for index [i] and element [val].
    Each key of the index has its own [NavElementView], and [ThisLabel] and
    [ThisURI] are never written after creation, so reading them from the
    neighbour's entry before or after the updates gives the same text. *)
Definition link_one (titles : list string) (lastI : Z)
    (titleIndex : gmap string NavElementView) (i : nat) (val : string)
    : gmap string NavElementView :=
  let uri := extractURI val in
  match titleIndex !! uri with
  | None => titleIndex
  | Some _ =>
      let titleIndex :=
        if (0 <? Z.of_nat i)%Z then
          let prevURI := extractURI (title_at titles (i - 1)) in
          match titleIndex !! prevURI with
          | Some prev =>
              alter (fun nav => set_Prev nav (ThisLabel prev) (ThisURI prev))
                    uri titleIndex
          | None => titleIndex
          end
        else titleIndex in
      if (Z.of_nat i <? lastI)%Z then
        let nextURI := extractURI (title_at titles (i + 1)) in
        match titleIndex !! nextURI with
        | Some next =>
            alter (fun nav => set_Next nav (ThisLabel next) (ThisURI next))
                  uri titleIndex
        | None => titleIndex
        end
      else titleIndex
  end.

(** [for i, val := range titlesWithURI], from index [i] on. *)
Fixpoint link_from (titles : list string) (lastI : Z) (i : nat)
    (rest : list string) (titleIndex : gmap string NavElementView)
    : gmap string NavElementView :=
  match rest with
  | [] => titleIndex
  | val :: rest' =>
      link_from titles lastI (S i) rest' (link_one titles lastI titleIndex i val)
  end.

Definition link_titles (titles : list string)
    (titleIndex : gmap string NavElementView) : gmap string NavElementView :=
  link_from titles (Z.of_nat (length titles) - 1) 0 titles titleIndex.

Section TitleIndex.
(** The file system the call runs against: the paths [filepath.Walk]
    hands to its callback for a root, in its (lexical) order, and
    [ioutil.ReadFile].  The callback never returns an error, so the walk
    visits every path. *)
Variable Walk : string -> list string.
Variable ReadFile : string -> error + document.

(** The walk callback on path [p].  [None] is the nil dereference at
    [accession.JSONModel] after [Unmarshal] has set the pointer to nil.
    The error of [Unmarshal] is logged and nothing else. *)
Definition visit (st : walk_state) (p : string) : option walk_state :=
  if HasSuffix p ".json" then
    match ReadFile p with
    | inl _ => Some st
    | inr src =>
        let '(accession, _) := Unmarshal_accessionInfo src in
        match accession with
        | None => None
        | Some a =>
            if String.eqb (accessionInfo.JSONModel a) "accession"
            then Some (record_accession a st)
            else Some st
        end
    end
  else Some st.

Fixpoint walk_from (st : walk_state) (paths : list string)
    : option walk_state :=
  match paths with
  | [] => Some st
  | p :: rest =>
      match visit st p with
      | None => None
      | Some st' => walk_from st' rest
      end
  end.

Definition walk_tree (dname : string) : option walk_state :=
  walk_from (mkWalkState ∅ []) (Walk dname).

Definition MakeAccessionTitleIndex (dname : string)
    : outcome (option (gmap string NavElementView)) :=
  match walk_tree dname with
  | None => Panicked
  | Some st =>
      if (length (titlesWithURI st) =? 0)%nat then
        Returned None (Some "No titles found")
      else if (size (titleIndex st) =? 0)%nat then
        Returned None (Some "title index empty")
      else
        let titles := sort_Strings (titlesWithURI st) in
        Returned (Some (link_titles titles (titleIndex st))) None
  end.
End TitleIndex.

(* ================================================================== *)
(** * Records and normalised views *)
(* ================================================================== *)

(** Modelled from the spec: the declaration of [Subject] is not in this
    file of the package; the views read only its URI and title. *)
Module Subject.
Record t : Type := mk {
  URI : string;
  Title : string
}.
End Subject.

(** Modelled from the spec: an element of [DigitalObject.FileVersions]. *)
Module FileVersion.
Record t : Type := mk {
  FileURI : string
}.
End FileVersion.

(** Modelled from the spec: the declaration of [DigitalObject] is not in
    this file of the package. *)
Module DigitalObject.
Record t : Type := mk {
  URI : string;
  Title : string;
  Publish : bool;
  FileVersions : list FileVersion.t
}.
End DigitalObject.

(** Modelled from the spec: an element of [Accession.Extents]. *)
Module Extent.
Record t : Type := mk {
  PhysicalDetails : string
}.
End Extent.

(** Modelled from the spec: the declaration of [Accession] is not in this
    file of the package.  [Instances] and [Subjects] are sequences of
    loosely typed containers ([map[string]interface{}]), as decoded from
    the record's JSON. *)
Module Accession.
Record t : Type := mk {
  URI : string;
  Title : string;
  ContentDescription : string;
  ConditionDescription : string;
  AccessionDate : string;
  CreatedBy : string;
  CreateTime : string;
  LastModifiedBy : string;
  UserMTime : string;
  Extents : list Extent.t;
  Instances : list (gmap string value);
  Subjects : list (gmap string value)
}.
End Accession.

Module NormalizedDigitalObjectView.
Record t : Type := mk {
  URI : string;
  Title : string;
  Publish : bool;
  FileURIs : list string
}.
End NormalizedDigitalObjectView.

Module NormalizedAccessionView.
Record t : Type := mk {
  URI : string;
  Title : string;
  ContentDescription : string;
  ConditionDescription : string;
  Subjects : list string;
  Extents : list string;
  RelatedResources : list string;
  RelatedAccessions : list string;
  DigitalObjects : list NormalizedDigitalObjectView.t;
  LinkedAgents : list string;
  AccessionDate : string;
  CreatedBy : string;
  Created : string;
  LastModifiedBy : string;
  LastModified : string
}.

Definition set_Extents (v : t) (l : list string) : t :=
  mk (URI v) (Title v) (ContentDescription v) (ConditionDescription v)
     (Subjects v) l (RelatedResources v)
     (RelatedAccessions v) (DigitalObjects v) (LinkedAgents v)
     (AccessionDate v) (CreatedBy v) (Created v) (LastModifiedBy v)
     (LastModified v).

Definition set_DigitalObjects (v : t)
    (l : list NormalizedDigitalObjectView.t) : t :=
  mk (URI v) (Title v) (ContentDescription v) (ConditionDescription v)
     (Subjects v) (Extents v) (RelatedResources v)
     (RelatedAccessions v) l (LinkedAgents v)
     (AccessionDate v) (CreatedBy v) (Created v) (LastModifiedBy v)
     (LastModified v).

Definition set_Subjects (v : t) (l : list string) : t :=
  mk (URI v) (Title v) (ContentDescription v) (ConditionDescription v)
     l (Extents v) (RelatedResources v)
     (RelatedAccessions v) (DigitalObjects v) (LinkedAgents v)
     (AccessionDate v) (CreatedBy v) (Created v) (LastModifiedBy v)
     (LastModified v).

(** [v.Extents = append(v.Extents, s)] and its two siblings. *)
Definition append_Extents (v : t) (s : string) : t :=
  set_Extents v (Extents v ++ [s]).

Definition append_DigitalObjects (v : t) (d : NormalizedDigitalObjectView.t)
    : t :=
  set_DigitalObjects v (DigitalObjects v ++ [d]).

Definition append_Subjects (v : t) (s : string) : t :=
  set_Subjects v (Subjects v ++ [s]).
End NormalizedAccessionView.

(** [DigitalObject.NormalizeView] *)
Definition DigitalObject_NormalizeView (o : DigitalObject.t)
    : NormalizedDigitalObjectView.t :=
  let result :=
    NormalizedDigitalObjectView.mk
      (DigitalObject.URI o) (DigitalObject.Title o) (DigitalObject.Publish o)
      [] in
  foldl
    (fun result fv =>
       if String.eqb (FileVersion.FileURI fv) "" then result
       else
         NormalizedDigitalObjectView.mk
           (NormalizedDigitalObjectView.URI result)
           (NormalizedDigitalObjectView.Title result)
           (NormalizedDigitalObjectView.Publish result)
           (NormalizedDigitalObjectView.FileURIs result
              ++ [FileVersion.FileURI fv]))
    result (DigitalObject.FileVersions o).

Section Normalize.
(** [fmt.Sprintf("%s", ref)] for an [interface{}] that is not a string
    (fmt then prints a bad-verb text such as [%!s(<nil>)] or formats the
    elements of a composite).  That text is taken as given. *)
Variable Sprintf_s_other : value -> string.

Definition Sprintf_s (ref : value) : string :=
  match ref with
  | VString s => s
  | _ => Sprintf_s_other ref
  end.

(** The body of [for _, item := range a.Instances].  The maps handed to
    [NormalizeView] hold the records themselves (the loaders never store
    a nil pointer). *)
Definition add_instance (digitalObjects : gmap string DigitalObject.t)
    (v : NormalizedAccessionView.t) (item : gmap string value)
    : NormalizedAccessionView.t :=
  match item !! "digital_object" with
  | Some m =>
      let src := Marshal m in
      let kv := fst (Unmarshal_kv src) in
      match kv !! "ref" with
      | Some ref =>
          match digitalObjects !! ref with
          | Some obj =>
              NormalizedAccessionView.append_DigitalObjects v
                (DigitalObject_NormalizeView obj)
          | None => v
          end
      | None => v
      end
  | None => v
  end.

(** The body of [for _, item := range a.Subjects]. *)
Definition add_subject (subjects : gmap string Subject.t)
    (v : NormalizedAccessionView.t) (item : gmap string value)
    : NormalizedAccessionView.t :=
  match item !! "ref" with
  | Some ref =>
      match subjects !! Sprintf_s ref with
      | Some rec => NormalizedAccessionView.append_Subjects v (Subject.Title rec)
      | None => v
      end
  | None => v
  end.

(** [Accession.NormalizeView] *)
Definition Accession_NormalizeView (a : Accession.t)
    (subjects : gmap string Subject.t)
    (digitalObjects : gmap string DigitalObject.t)
    : option NormalizedAccessionView.t * option error :=
  let v :=
    NormalizedAccessionView.mk
      (Accession.URI a) (Accession.Title a)
      (Accession.ContentDescription a) (Accession.ConditionDescription a)
      [] [] [] [] [] []
      (Accession.AccessionDate a) (Accession.CreatedBy a)
      (Accession.CreateTime a) (Accession.LastModifiedBy a)
      (Accession.UserMTime a) in
  let v :=
    foldl (fun v extent =>
             NormalizedAccessionView.append_Extents v
               (Extent.PhysicalDetails extent))
          v (Accession.Extents a) in
  let v := foldl (add_instance digitalObjects) v (Accession.Instances a) in
  let v := foldl (add_subject subjects) v (Accession.Subjects a) in
  (Some v, None).
End Normalize.

(* ================================================================== *)
(** * Record loaders *)
(* ================================================================== *)

Section Loaders.
(** The file system and library calls of the loaders: [ioutil.ReadDir]
    (the entry names, or the error), [ioutil.ReadFile], [path.Join], and
    [json.Unmarshal] into a fresh [Subject] or [DigitalObject]: the
    pointer afterwards ([None] is nil) and the returned error.  The
    struct declarations, and so the field decoding, are outside this
    file of the package. *)
Variable ReadDir : string -> error + list string.
Variable ReadFile : string -> error + document.
Variable path_Join : string -> string -> string.
Variable Unmarshal_Subject : document -> option Subject.t * option error.
Variable Unmarshal_DigitalObject
  : document -> option DigitalObject.t * option error.

(** [for _, finfo := range dir] of [MakeSubjectList]; a nil pointer is
    appended like any other. *)
Fixpoint MakeSubjectList_range (dname : string)
    (subjects : list (option Subject.t)) (dir : list string)
    : outcome (list (option Subject.t)) :=
  match dir with
  | [] => Returned subjects None
  | finfo :: rest =>
      let fname := path_Join dname finfo in
      match ReadFile fname with
      | inl err =>
          Returned [] (Some ("Can't read " +:+ fname +:+ ", " +:+ err))
      | inr src =>
          match Unmarshal_Subject src with
          | (_, Some err) =>
              Returned []
                (Some ("Can't parse subject " +:+ fname +:+ ", " +:+ err))
          | (subject, None) =>
              MakeSubjectList_range dname (subjects ++ [subject]) rest
          end
      end
  end.

Definition MakeSubjectList (dname : string)
    : outcome (list (option Subject.t)) :=
  match ReadDir dname with
  | inl err =>
      Returned []
        (Some ("Can't read subjects from " +:+ dname +:+ ", " +:+ err))
  | inr dir => MakeSubjectList_range dname [] dir
  end.

(** [for _, finfo := range dir] of [MakeSubjectMap]; [subject.URI] on a
    nil pointer panics. *)
Fixpoint MakeSubjectMap_range (dname : string)
    (subjects : gmap string Subject.t) (dir : list string)
    : outcome (option (gmap string Subject.t)) :=
  match dir with
  | [] => Returned (Some subjects) None
  | finfo :: rest =>
      let fname := path_Join dname finfo in
      match ReadFile fname with
      | inl err =>
          Returned None (Some ("Can't read " +:+ fname +:+ ", " +:+ err))
      | inr src =>
          match Unmarshal_Subject src with
          | (_, Some err) =>
              Returned None
                (Some ("Can't parse subject " +:+ fname +:+ ", " +:+ err))
          | (None, None) => Panicked
          | (Some subject, None) =>
              MakeSubjectMap_range dname
                (<[Subject.URI subject := subject]> subjects) rest
          end
      end
  end.

Definition MakeSubjectMap (dname : string)
    : outcome (option (gmap string Subject.t)) :=
  match ReadDir dname with
  | inl err =>
      Returned None
        (Some ("Can't read subjects from " +:+ dname +:+ ", " +:+ err))
  | inr dir => MakeSubjectMap_range dname ∅ dir
  end.

(** [for _, finfo := range dir] of [MakeDigitalObjectMap]. *)
Fixpoint MakeDigitalObjectMap_range (dname : string)
    (digitalObjects : gmap string DigitalObject.t) (dir : list string)
    : outcome (option (gmap string DigitalObject.t)) :=
  match dir with
  | [] => Returned (Some digitalObjects) None
  | finfo :: rest =>
      let fname := path_Join dname finfo in
      match ReadFile fname with
      | inl err =>
          Returned None (Some ("Can't read " +:+ fname +:+ ", " +:+ err))
      | inr src =>
          match Unmarshal_DigitalObject src with
          | (_, Some err) =>
              Returned None
                (Some ("Can't parse subject " +:+ fname +:+ ", " +:+ err))
          | (None, None) => Panicked
          | (Some digitalObject, None) =>
              MakeDigitalObjectMap_range dname
                (<[DigitalObject.URI digitalObject := digitalObject]>
                   digitalObjects) rest
          end
      end
  end.

Definition MakeDigitalObjectMap (dname : string)
    : outcome (option (gmap string DigitalObject.t)) :=
  match ReadDir dname with
  | inl err =>
      Returned None
        (Some ("Can't read Digital Objects from " +:+ dname +:+ ", " +:+ err))
  | inr dir => MakeDigitalObjectMap_range dname ∅ dir
  end.
End Loaders.

(* ================================================================== *)
(** * Vocabulary of the stated properties *)
(* ================================================================== *)

(** ASCII white space, as [unicode.IsSpace] has it below 128. *)
Definition isSpace (c : ascii) : bool :=
  match c with
  | " "%char | "009"%char | "010"%char | "011"%char | "012"%char
  | "013"%char => true
  | _ => false
  end.

Definition leading_space (s : string) : bool :=
  match s with
  | String c _ => isSpace c
  | EmptyString => false
  end.

Fixpoint trailing_space (s : string) : bool :=
  match s with
  | EmptyString => false
  | String c EmptyString => isSpace c
  | String _ rest => trailing_space rest
  end.

(** The previous and next fragments are present and the current one is
    not. *)
Definition only_outer_fragments (nav : NavElementView) : bool :=
  negb (String.eqb (PrevURI nav) "") && String.eqb (ThisURI nav) ""
  && negb (String.eqb (NextURI nav) "").

(** A string that opens with [<] and closes with [>], as every fragment
    does. *)
Definition bracketed (s : string) : Prop :=
  exists body, s = String "<" (body +:+ ">").

(** A view with previous and next links and no current URI. *)
Definition nav_without_this : NavElementView :=
  mkNavElementView "" "" "/p" "P" "/n" "N" 0.


(** The separator occurs in [s]. *)
Definition contains_bar (s : string) : bool := in_cutset "|"%char s.

(** The composite sort key of a projection. *)
Definition key_of (a : accessionInfo.t) : string :=
  sort_key (accessionInfo.Title a) (accessionInfo.URI a).

(** The entry the walk stores for a projection. *)
Definition nav_of (a : accessionInfo.t) : NavElementView :=
  mkNavElementView (accessionInfo.Title a) (accessionInfo.URI a) "" "" "" "" 0.

(** The projections in the order of their composite keys. *)
Definition by_key (recs : list accessionInfo.t) : list accessionInfo.t :=
  merge_sort (fun a b => String.le (key_of a) (key_of b)) recs.

(** The entry of the [i]-th projection of [ordered] once it is linked to
    its neighbours. *)
Definition linked_nav (ordered : list accessionInfo.t) (i : nat)
    (a : accessionInfo.t) : NavElementView :=
  let prev := match i with
              | O => None
              | S j => ordered !! j
              end in
  let next := ordered !! S i in
  mkNavElementView (accessionInfo.Title a) (accessionInfo.URI a)
    (from_option accessionInfo.URI "" prev)
    (from_option accessionInfo.Title "" prev)
    (from_option accessionInfo.URI "" next)
    (from_option accessionInfo.Title "" next)
    0.

(** The invariant the design document gives for a title index whose
    entries, in sorted order, are those of [ordered]. *)
Definition chain_linked (ordered : list accessionInfo.t)
    (idx : gmap string NavElementView) : Prop :=
  (forall k nav, idx !! k = Some nav -> ThisURI nav = k)
  /\ (forall i a b,
        ordered !! i = Some a -> ordered !! S i = Some b ->
        exists na nb,
          idx !! accessionInfo.URI a = Some na
          /\ idx !! accessionInfo.URI b = Some nb
          /\ NextURI na = ThisURI nb /\ PrevURI nb = ThisURI na)
  /\ (forall a, head ordered = Some a ->
        exists na, idx !! accessionInfo.URI a = Some na /\ PrevURI na = "")
  /\ (forall a, last ordered = Some a ->
        exists na, idx !! accessionInfo.URI a = Some na /\ NextURI na = "").

Section TitleIndexVocabulary.
Variable Walk : string -> list string.
Variable ReadFile : string -> error + document.

(** For a path the callback reads and decodes: the pointer [Unmarshal]
    leaves and the error it returns. *)
Definition decoded (p : string)
    : option (option accessionInfo.t * option error) :=
  if HasSuffix p ".json" then
    match ReadFile p with
    | inr src => Some (Unmarshal_accessionInfo src)
    | inl _ => None
    end
  else None.

(** The path makes the callback dereference a nil pointer. *)
Definition crashes (p : string) : bool :=
  match decoded p with
  | Some (None, _) => true
  | _ => false
  end.

(** The projection of a path whose [JSONModel] is exactly
    ["accession"]. *)
Definition accession_of (p : string) : option accessionInfo.t :=
  match decoded p with
  | Some (Some a, _) =>
      if String.eqb (accessionInfo.JSONModel a) "accession"
      then Some a else None
  | _ => None
  end.

(** The accession projections under a root, in walk order. *)
Definition accessions (dname : string) : list accessionInfo.t :=
  omap accession_of (Walk dname).
End TitleIndexVocabulary.

(** An index in which every projection of [ordered] has an entry that
    carries its own label and URI. *)
Definition labelled (ordered : list accessionInfo.t)
    (idx : gmap string NavElementView) : Prop :=
  forall j b, ordered !! j = Some b ->
    exists n, idx !! accessionInfo.URI b = Some n
              /\ ThisLabel n = accessionInfo.Title b
              /\ ThisURI n = accessionInfo.URI b.

(** The two fields linking never writes. *)
Definition this_of (n : NavElementView) : string * string :=
  (ThisLabel n, ThisURI n).

(* ================================================================== *)
(** * Example trees *)
(* ================================================================== *)

(** A tree given by the paths the walk visits, in order, each with what
    reading it gives. *)
Definition tree : Type := list (string * (error + document)).

Definition tree_Walk (t : tree) (dname : string) : list string :=
  map fst t.

Fixpoint tree_ReadFile (t : tree) (p : string) : error + document :=
  match t with
  | [] => inl ("open " +:+ p +:+ ": no such file or directory")
  | (q, r) :: rest => if String.eqb p q then r else tree_ReadFile rest p
  end.

Definition record_doc (kind title uri : string) : document :=
  Wellformed (JObject [("jsonmodel_type", JString kind);
                       ("title", JString title);
                       ("uri", JString uri)]).

(** Three accessions titled A, A and B. *)
Definition three_accessions : tree :=
  [("/data", inl "read /data: is a directory");
   ("/data/1.json", inr (record_doc "accession" "A" "/u2"));
   ("/data/2.json", inr (record_doc "accession" "A" "/u1"));
   ("/data/3.json", inr (record_doc "accession" "B" "/u3"))].

(** Two accessions with distinct URIs, one of which holds the separator. *)
Definition bar_in_uri : tree :=
  [("/data/1.json", inr (record_doc "accession" "T1" "a|b"));
   ("/data/2.json", inr (record_doc "accession" "T2" "c"))].

(** Accessions whose titles hold the separator. *)
Definition bar_in_title : tree :=
  [("/data/1.json", inr (record_doc "accession" "Letters | 1940" "/u2"));
   ("/data/2.json", inr (record_doc "accession" "Letters" "/u1"))].

(** No accession: a subject record, a file that is not JSON, a file that
    cannot be read and a file without the suffix. *)
Definition no_accession : tree :=
  [("/data/subject.json", inr (record_doc "subject" "Physics" "/subjects/1"));
   ("/data/broken.json", inr (Malformed "unexpected end of JSON input"));
   ("/data/locked.json", inl "open /data/locked.json: permission denied");
   ("/data/notes.txt", inr (record_doc "accession" "A" "/u1"))].

(** An accession among records of other kinds. *)
Definition mixed_records : tree :=
  [("/data/subject.json", inr (record_doc "subject" "Physics" "/subjects/1"));
   ("/data/1.json", inr (record_doc "accession" "A" "/u1"))].

(** A file that holds the JSON literal [null], before an accession. *)
Definition null_file : tree :=
  [("/data/0.json", inr (Wellformed JNull));
   ("/data/1.json", inr (record_doc "accession" "A" "/u1"))].

(** A file whose [title] is a number: [Unmarshal] reports a type error
    and still fills the other fields. *)
Definition title_is_number : tree :=
  [("/data/bad.json",
    inr (Wellformed (JObject [("jsonmodel_type", JString "accession");
                              ("uri", JString "/a/1");
                              ("title", JNumber "5")])))].

(** The state of the walk over [bar_in_title] when it ends. *)
Definition bar_in_title_walked : walk_state :=
  mkWalkState
    (<["/u1" := nav_of (accessionInfo.mk "Letters" "/u1" "accession")]>
    (<["/u2" := nav_of (accessionInfo.mk "Letters | 1940" "/u2" "accession")]>
       ∅))
    ["Letters | 1940|/u2"; "Letters|/u1"].

(** The state of the walk over [three_accessions] when it ends. *)
Definition three_accessions_walked : walk_state :=
  mkWalkState
    (<["/u2" := nav_of (accessionInfo.mk "A" "/u2" "accession")]>
    (<["/u1" := nav_of (accessionInfo.mk "A" "/u1" "accession")]>
    (<["/u3" := nav_of (accessionInfo.mk "B" "/u3" "accession")]> ∅)))
    ["A|/u2"; "A|/u1"; "B|/u3"].

(* ================================================================== *)
(** * Vocabulary for the normalised views *)
(* ================================================================== *)

(** What a decoded value leaves in a [map[string]string] entry. *)
Definition string_or_zero (v : value) : string :=
  match v with
  | VString s => s
  | _ => ""
  end.

(** The URI an entry of [Instances] refers to: the [ref] of its
    [digital_object], when it has one.  A [ref] that is not a string reads
    as the empty URI after the re-encode/decode step. *)
Definition digital_object_ref (item : gmap string value) : option string :=
  match item !! "digital_object" with
  | Some (VObject m) => string_or_zero <$> m !! "ref"
  | _ => None
  end.

Definition digital_object_refs (a : Accession.t) : list string :=
  omap digital_object_ref (Accession.Instances a).

Section NormalizeVocabulary.
Variable Sprintf_s_other : value -> string.

(** The URI an entry of [Subjects] refers to, when it has a [ref]. *)
Definition subject_ref (item : gmap string value) : option string :=
  Sprintf_s Sprintf_s_other <$> item !! "ref".

Definition subject_refs (a : Accession.t) : list string :=
  omap subject_ref (Accession.Subjects a).
End NormalizeVocabulary.

(** The file URIs a normalised digital object is documented to list. *)
Definition nonempty_file_uris (o : DigitalObject.t) : list string :=
  filter (fun u => u <> "") (map FileVersion.FileURI (DigitalObject.FileVersions o)).

(* ------------------------------------------------------------------ *)
(** ** Example records *)

(** Stands for what [fmt] prints for a reference that is not a string; the
    examples hold string references only. *)
Definition example_Sprintf_s_other (v : value) : string := "%!s(?)".

Definition ref_to (uri : string) : gmap string value :=
  {[ "ref" := VString uri ]}.

Definition instance_of (uri : string) : gmap string value :=
  {[ "instance_type" := VString "digital_object";
     "digital_object" := VObject (ref_to uri) ]}.

Definition example_subjects : gmap string Subject.t :=
  {[ "/subjects/1" := Subject.mk "/subjects/1" "Physics";
     "/subjects/2" := Subject.mk "/subjects/2" "Astronomy" ]}.

Definition example_digital_objects : gmap string DigitalObject.t :=
  {[ "/digital_objects/7" :=
       DigitalObject.mk "/digital_objects/7" "Notebook" true
         [FileVersion.mk "http://example.org/a.pdf"; FileVersion.mk "";
          FileVersion.mk "http://example.org/b.pdf"] ]}.

Definition example_accession (subjects : list (gmap string value)) : Accession.t :=
  Accession.mk "/accessions/1" "Papers" "content" "condition" "2016-01-01"
    "admin" "2016-01-02" "admin" "2016-01-03"
    [Extent.mk "3 boxes"]
    [instance_of "/digital_objects/7"; {[ "instance_type" := VString "text" ]}]
    subjects.


(** An accession with two different subjects. *)
Definition accession_with_two_subjects : Accession.t :=
  example_accession [ref_to "/subjects/1"; ref_to "/subjects/2"].

(* ================================================================== *)
(** * Vocabulary for the loaders *)
(* ================================================================== *)

Section LoaderVocabulary.
Variable ReadDir : string -> error + list string.
Variable ReadFile : string -> error + document.
Variable path_Join : string -> string -> string.

(** The entry [finfo] of [dname] is read and decoded without an error;
    with [nonnil] the decoded pointer must not be nil either (the map
    loaders dereference it). *)
Definition loads {T : Type} (Unmarshal : document -> option T * option error)
    (nonnil : bool) (dname finfo : string) : bool :=
  match ReadFile (path_Join dname finfo) with
  | inl _ => false
  | inr src =>
      match Unmarshal src with
      | (_, Some _) => false
      | (None, None) => negb nonnil
      | (Some _, None) => true
      end
  end.

End LoaderVocabulary.

(* ------------------------------------------------------------------ *)
(** ** Example directories *)

Definition example_Join (dname name : string) : string :=
  dname +:+ "/" +:+ name.



Fixpoint member_string (members : list (string * json)) (key : string)
    : string :=
  match members with
  | [] => ""
  | (k, v) :: rest =>
      match member_string rest key with
      | "" => if String.eqb k key
              then match v with JString s => s | _ => "" end
              else ""
      | s => s
      end
  end.

(** A decoder for records that hold a URI and a title only. *)
Definition example_Unmarshal {T : Type} (make : string -> string -> T)
    (src : document) : option T * option error :=
  match src with
  | Malformed cause => (Some (make "" ""), Some cause)
  | Wellformed JNull => (None, None)
  | Wellformed (JObject members) =>
      (Some (make (member_string members "uri")
                  (member_string members "title")), None)
  | Wellformed v =>
      (Some (make "" ""), Some (UnmarshalTypeError (json_kind v) "struct"))
  end.

Definition example_Unmarshal_Subject
    : document -> option Subject.t * option error :=
  example_Unmarshal Subject.mk.

Definition example_Unmarshal_DigitalObject
    : document -> option DigitalObject.t * option error :=
  example_Unmarshal (fun uri title => DigitalObject.mk uri title false []).

(* ================================================================== *)
(** * The command line tool [cmds/aspace] *)
(* ================================================================== *)

(** [strings.Compare]: -1, 0 or 1 by the byte-wise order. *)
Definition Compare (a b : string) : Z :=
  match String.compare a b with
  | Lt => (-1)%Z
  | Eq => 0%Z
  | Gt => 1%Z
  end.

Module aspace.
Record command : Type := mkCommand {
  Subject : string;
  Action : string;
  Payload : string;
  Options : list string
}.

Definition subjects : list string :=
  ["instance"; "repository"; "agent"; "accession"].

Definition actions : list string :=
  ["create"; "list"; "update"; "delete"; "export"; "import"].

Definition envKeys : list string :=
  ["ASPACE_PROTOCOL"; "ASPACE_HOST"; "ASPACE_PORT"; "ASPACE_USERNAME";
   "ASPACE_PASSWORD"].

Fixpoint containsElement (src : list string) (elem : string) : bool :=
  match src with
  | [] => false
  | item :: rest =>
      if (Compare item elem =? 0)%Z then true else containsElement rest elem
  end.

(** [parseCmd]: the command, or nil and the error. *)
Definition parseCmd (args : list string) : option command * option error :=
  match args with
  | arg0 :: arg1 :: rest =>
      if negb (containsElement subjects arg0) then
        (None,
         Some (arg0 +:+ " is not a subject (e.g. " +:+ Join subjects ", "
               +:+ ")"))
      else if negb (containsElement actions arg1) then
        (None,
         Some (arg1 +:+ " is not an action (e.g. " +:+ Join actions ", "
               +:+ ")"))
      else
        let payload :=
          if (2 <? length args)%nat then Join rest " " else "" in
        (Some (mkCommand arg0 arg1 payload []), None)
  | _ =>
      (None,
       Some "Commands have the form SUBJECT ACTION [OBJECT] [OPTIONS]")
  end.

Section Environment.
(** [os.Getenv]: the value of a variable, empty when it is not set. *)
Variable Getenv : string -> string.

(** [for _, ky := range envKeys] of [configureApp]. *)
Fixpoint configureApp_range (conf : gmap string string)
    (keys : list string) : option (gmap string string) * option error :=
  match keys with
  | [] => (Some conf, None)
  | ky :: rest =>
      let conf := <[ky := Getenv ky]> conf in
      if String.eqb (default "" (conf !! ky)) "" then
        (None,
         Some (ky +:+ " is undefined in the enviroment (e.g. try export "
               +:+ ky +:+ "=SOME_VALUE_FOR_" +:+ ky +:+ ")"))
      else configureApp_range conf rest
  end.

Definition configureApp : option (gmap string string) * option error :=
  configureApp_range ∅ envKeys.
End Environment.

Section Run.
(** [runRepoCmd] talks to the ArchivesSpace API through the [gospace]
    client, which is outside this file; what it does is taken as
    given.  It can panic: for the actions [list], [update] and
    [delete] it decodes the payload into a [*Repository], which the
    payload [null] sets to nil, and [list] and [delete] then read
    [repo.ID]. *)
Variable runRepoCmd : command -> gmap string string -> outcome string.

(** [runCmd] *)
Definition runCmd (cmd : command) (config : gmap string string)
    : outcome string :=
  if String.eqb (Subject cmd) "repository" then runRepoCmd cmd config
  else if String.eqb (Subject cmd) "instance" then runRepoCmd cmd config
  else
    Returned ""
      (Some (Subject cmd +:+ " " +:+ Action cmd +:+ " not implemented")).
End Run.

(** How a run of [main] ends: through [usage], which prints the help
    text and then [msg] (when it is not empty) to standard error and
    exits with [exitCode]; with one line on standard output and an exit
    code; or in a panic. *)
Inductive exit : Type :=
  | usage (msg : string) (exitCode : Z)
  | Println_Exit (line : string) (exitCode : Z)
  | panic.

Definition set_Payload (cmd : command) (src : string) : command :=
  mkCommand (Subject cmd) (Action cmd) src (Options cmd).

Section Main.
Variable Getenv : string -> string.
(** [ioutil.ReadFile]: the bytes of the file, or the error. *)
Variable ReadFile : string -> error + string.
Variable runRepoCmd : command -> gmap string string -> outcome string.

(** [main], after [flag.Parse]: [help] and [payload] are the values of
    the two flags and [args] the remaining arguments.  A nil [config]
    reads as the empty map; a nil [cmd] cannot be dereferenced. *)
Definition main (help : bool) (payload : string) (args : list string)
    : exit :=
  if help then usage "" 0
  else if (length args <? 2)%nat then
    usage "aspace is a command line tool for interacting with an ArchivesSpace installation." 1
  else
    match configureApp Getenv with
    | (_, Some err) => usage err 1
    | (config, None) =>
        match parseCmd args with
        | (_, Some err) => usage err 1
        | (cmd, None) =>
            let run (cmd : option command) : exit :=
              match cmd with
              | None => panic
              | Some c =>
                  match runCmd runRepoCmd c (default ∅ config) with
                  | Panicked => panic
                  | Returned _ (Some err) => Println_Exit err 1
                  | Returned src None => Println_Exit src 0
                  end
              end in
            if negb (String.eqb payload "") then
              match ReadFile payload with
              | inl _ => usage ("Cannot read " +:+ payload) 1
              | inr src =>
                  match cmd with
                  | None => panic
                  | Some c => run (Some (set_Payload c src))
                  end
              end
            else run cmd
        end
    end.
End Main.
End aspace.

(* ================================================================== *)
(** * Normalised views over maps that hold pointers *)
(* ================================================================== *)

(** The maps of [Accession.NormalizeView] are [map[string]*Subject] and
    [map[string]*DigitalObject]: a key can be present with a nil pointer.
    The loop over the subjects tests [rec != nil]; the loop over the
    instances tests only that the key is present and then calls
    [obj.NormalizeView()], which reads [o.URI].  Here an entry is [None]
    for a nil pointer, and the call can panic. *)
Module Nilable.
Section Normalize.
Variable Sprintf_s_other : value -> string.

(** The body of [for _, item := range a.Instances]; [None] is the nil
    dereference in [obj.NormalizeView()]. *)
Definition add_instance
    (digitalObjects : gmap string (option DigitalObject.t))
    (v : NormalizedAccessionView.t) (item : gmap string value)
    : option NormalizedAccessionView.t :=
  match item !! "digital_object" with
  | Some m =>
      let src := Marshal m in
      let kv := fst (Unmarshal_kv src) in
      match kv !! "ref" with
      | Some ref =>
          match digitalObjects !! ref with
          | Some (Some obj) =>
              Some (NormalizedAccessionView.append_DigitalObjects v
                      (DigitalObject_NormalizeView obj))
          | Some None => None
          | None => Some v
          end
      | None => Some v
      end
  | None => Some v
  end.

(** [for _, item := range a.Instances] *)
Fixpoint add_instances
    (digitalObjects : gmap string (option DigitalObject.t))
    (v : NormalizedAccessionView.t) (items : list (gmap string value))
    : option NormalizedAccessionView.t :=
  match items with
  | [] => Some v
  | item :: rest =>
      match add_instance digitalObjects v item with
      | None => None
      | Some v => add_instances digitalObjects v rest
      end
  end.

(** The body of [for _, item := range a.Subjects]: a key that is
    absent gives the nil pointer, as a key stored with nil does. *)
Definition add_subject (subjects : gmap string (option Subject.t))
    (v : NormalizedAccessionView.t) (item : gmap string value)
    : NormalizedAccessionView.t :=
  match item !! "ref" with
  | Some ref =>
      match subjects !! Sprintf_s Sprintf_s_other ref with
      | Some (Some rec) =>
          NormalizedAccessionView.append_Subjects v (Subject.Title rec)
      | Some None => v
      | None => v
      end
  | None => v
  end.

(** [Accession.NormalizeView] *)
Definition Accession_NormalizeView (a : Accession.t)
    (subjects : gmap string (option Subject.t))
    (digitalObjects : gmap string (option DigitalObject.t))
    : outcome (option NormalizedAccessionView.t) :=
  let v :=
    NormalizedAccessionView.mk
      (Accession.URI a) (Accession.Title a)
      (Accession.ContentDescription a) (Accession.ConditionDescription a)
      [] [] [] [] [] []
      (Accession.AccessionDate a) (Accession.CreatedBy a)
      (Accession.CreateTime a) (Accession.LastModifiedBy a)
      (Accession.UserMTime a) in
  let v :=
    foldl (fun v extent =>
             NormalizedAccessionView.append_Extents v
               (Extent.PhysicalDetails extent))
          v (Accession.Extents a) in
  match add_instances digitalObjects v (Accession.Instances a) with
  | None => Panicked
  | Some v =>
      let v := foldl (add_subject subjects) v (Accession.Subjects a) in
      Returned (Some v) None
  end.
End Normalize.
End Nilable.

(** The records of a map of pointers that are not nil. *)
Definition records {T : Type} (m : gmap string (option T)) : gmap string T :=
  omap id m.

(** A digital-object map in which the object the example accession refers
    to is stored as a nil pointer. *)
Definition digital_objects_with_nil : gmap string (option DigitalObject.t) :=
  {[ "/digital_objects/7" := None ]}.

(* ================================================================== *)
(** * Further vocabulary *)
(* ================================================================== *)

(** The entries the walk has stored when it ends. *)
Definition stored_entries (accs : list accessionInfo.t)
    : gmap string NavElementView :=
  foldl (fun m a => <[accessionInfo.URI a := nav_of a]> m) ∅ accs.

(** Every projection of [ordered] has an entry under its URI, and the
    entry carries that URI. *)
Definition entered (ordered : list accessionInfo.t)
    (idx : gmap string NavElementView) : Prop :=
  forall b, b ∈ ordered ->
    exists n, idx !! accessionInfo.URI b = Some n
              /\ ThisURI n = accessionInfo.URI b.

(** The URI of the projection before position [j] of [ordered], empty
    for the first. *)
Definition URI_before (ordered : list accessionInfo.t) (j : nat) : string :=
  match j with
  | O => ""
  | S i => from_option accessionInfo.URI "" (ordered !! i)
  end.

(** The URI of the projection after position [j], empty for the last. *)
Definition URI_after (ordered : list accessionInfo.t) (j : nat) : string :=
  from_option accessionInfo.URI "" (ordered !! S j).

(** No later position of [ordered] holds the URI of [b]; with distinct
    URIs this is so at every position. *)
Definition last_of_its_URI (ordered : list accessionInfo.t) (j : nat)
    (b : accessionInfo.t) : Prop :=
  forall j' b', j < j' -> ordered !! j' = Some b' ->
    accessionInfo.URI b' <> accessionInfo.URI b.

(** The accession walked last among those with the URI [k]. *)
Definition last_with_URI (accs : list accessionInfo.t) (k : string)
    : option accessionInfo.t :=
  last (filter (fun a => accessionInfo.URI a = k) accs).

(** What a re-encoded [digital_object] value reads as. *)
Definition reencoded (m : value) : gmap string string :=
  match m with
  | VObject members => string_or_zero <$> members
  | _ => ∅
  end.

(** The map the loaders build from a list of records. *)
Definition subjects_by_URI (recs : list Subject.t) : gmap string Subject.t :=
  foldl (fun m s => <[Subject.URI s := s]> m) ∅ recs.

Definition digital_objects_by_URI (recs : list DigitalObject.t)
    : gmap string DigitalObject.t :=
  foldl (fun m o => <[DigitalObject.URI o := o]> m) ∅ recs.

Section LoaderRecords.
Variable ReadFile : string -> error + document.
Variable path_Join : string -> string -> string.

(** The pointer a loader holds after it has read and decoded the entry
    [finfo] of [dname]. *)
Definition record_at {T : Type}
    (Unmarshal : document -> option T * option error)
    (dname finfo : string) : option T :=
  match ReadFile (path_Join dname finfo) with
  | inl _ => None
  | inr src => fst (Unmarshal src)
  end.
End LoaderRecords.

(** The error of [configureApp] for the variable [ky]. *)
Definition undefined_message (ky : string) : error :=
  ky +:+ " is undefined in the enviroment (e.g. try export " +:+ ky
  +:+ "=SOME_VALUE_FOR_" +:+ ky +:+ ")".

(** The last character of a string. *)
Fixpoint last_char (s : string) : option ascii :=
  match s with
  | EmptyString => None
  | String c EmptyString => Some c
  | String _ rest => last_char rest
  end.



(** The index of [bar_in_title]. *)
Definition bar_in_title_index : gmap string NavElementView :=
  <["/u2" := mkNavElementView "Letters | 1940" "/u2" "" "" "/u1" "Letters" 0]>
  (<["/u1" := mkNavElementView "Letters" "/u1" "/u2" "Letters | 1940" "" "" 0]>
     ∅).




(** Two accessions that share a URI. *)
Definition shared_uri : tree :=
  [("/data/1.json", inr (record_doc "accession" "First" "/u1"));
   ("/data/2.json", inr (record_doc "accession" "Second" "/u1"));
   ("/data/3.json", inr (record_doc "accession" "Third" "/u3"))].

(** The index of [shared_uri]. *)
Definition shared_uri_index : gmap string NavElementView :=
  <["/u1" := mkNavElementView "Second" "/u1" "/u1" "Second" "/u3" "Third" 0]>
  (<["/u3" := mkNavElementView "Third" "/u3" "/u1" "Second" "" "" 0]> ∅).

(** [three_accessions], walked in another order. *)
Definition three_accessions_reordered : tree :=
  [("/data/3.json", inr (record_doc "accession" "B" "/u3"));
   ("/data", inl "read /data: is a directory");
   ("/data/2.json", inr (record_doc "accession" "A" "/u1"));
   ("/data/1.json", inr (record_doc "accession" "A" "/u2"))].

(** A directory all of whose entries load. *)
Definition example_ReadDir_good (dname : string) : error + list string :=
  if String.eqb dname "/data/good" then inr ["1.json"; "2.json"]
  else inl ("open " +:+ dname +:+ ": no such file or directory").

Definition example_files_good : tree :=
  [("/data/good/1.json", inr (record_doc "subject" "Physics" "/subjects/1"));
   ("/data/good/2.json", inr (record_doc "subject" "Astronomy" "/subjects/2"))].

(** An environment in which the port is not set. *)
Definition example_Getenv (ky : string) : string :=
  if String.eqb ky "ASPACE_PROTOCOL" then "http"
  else if String.eqb ky "ASPACE_HOST" then "localhost"
  else if String.eqb ky "ASPACE_USERNAME" then "admin"
  else if String.eqb ky "ASPACE_PASSWORD" then "admin"
  else "".

(** An environment in which all five variables are set. *)
Definition example_Getenv_full (ky : string) : string :=
  if String.eqb ky "ASPACE_PORT" then "8089" else
  if String.eqb (example_Getenv ky) "" then "x" else example_Getenv ky.

(** Stands for the API client in the examples. *)
Definition example_runRepoCmd (cmd : aspace.command)
    (config : gmap string string) : outcome string :=
  Returned "[]" None.

(** An API client whose repository commands dereference the nil
    pointer that the payload [null] decodes to. *)
Definition example_runRepoCmd_null (cmd : aspace.command)
    (config : gmap string string) : outcome string :=
  if String.eqb (aspace.Payload cmd) "null" then Panicked
  else Returned "[]" None.

(** A payload file for the examples. *)
Definition example_payload_file (p : string) : error + string :=
  if String.eqb p "repo.json" then inr "{}"
  else inl ("open " +:+ p +:+ ": no such file or directory").

(* ================================================================== *)
(** * Properties *)
(* ================================================================== *)

(** ** Strings *)

Lemma append_nil_l (a : string) : "" +:+ a = a.
Proof. reflexivity. Qed.

Lemma append_cons (x : ascii) (a b : string) :
  String x a +:+ b = String x (a +:+ b).
Proof. reflexivity. Qed.

Lemma append_assoc (a b c : string) : (a +:+ b) +:+ c = a +:+ (b +:+ c).
Proof.
  induction a as [|x a IH]; [reflexivity|].
  by rewrite !append_cons, IH.
Qed.

Lemma append_nil_r (a : string) : a +:+ "" = a.
Proof.
  induction a as [|x a IH]; [reflexivity|].
  by rewrite append_cons, IH.
Qed.

Lemma length_append (a b : string) :
  String.length (a +:+ b) = String.length a + String.length b.
Proof.
  induction a as [|x a IH]; [reflexivity|].
  rewrite append_cons. simpl. by rewrite IH.
Qed.

Lemma append_not_nil_r (a b : string) : b <> "" -> a +:+ b <> "".
Proof. destruct a; [by rewrite append_nil_l | by rewrite append_cons]. Qed.

(** ** Trimming spaces around a bracketed string *)

Lemma TrimRight_cons (c : ascii) (rest cutset : string) :
  TrimRight (String c rest) cutset =
    match TrimRight rest cutset with
    | "" => if in_cutset c cutset then "" else String c ""
    | kept => String c kept
    end.
Proof. reflexivity. Qed.

Lemma TrimRight_closing (body tail : string) :
  TrimRight tail " " = "" ->
  TrimRight (body +:+ String ">" tail) " " = body +:+ ">".
Proof.
  intros Htail. induction body as [|c body IH].
  - rewrite !append_nil_l, TrimRight_cons, Htail. reflexivity.
  - rewrite !append_cons, TrimRight_cons, IH.
    destruct (body +:+ ">") eqn:E; [|reflexivity].
    by apply append_not_nil_r in E.
Qed.

Lemma TrimLeft_opening (lead rest : string) :
  TrimLeft lead " " = "" ->
  TrimLeft (lead +:+ String "<" rest) " " = String "<" rest.
Proof.
  intros Hlead. induction lead as [|c lead IH]; [reflexivity|].
  rewrite append_cons. simpl in *.
  destruct (Ascii.eqb c " " || false); [auto | discriminate].
Qed.

Lemma Trim_bracketed (core lead tail : string) :
  bracketed core ->
  TrimLeft lead " " = "" -> TrimRight tail " " = "" ->
  Trim (lead +:+ core +:+ tail) " " = core.
Proof.
  intros [body ->] Hlead Htail. unfold Trim.
  rewrite append_cons, (TrimLeft_opening lead _ Hlead), append_assoc.
  change (">" +:+ tail) with (String ">" tail).
  rewrite TrimRight_cons, (TrimRight_closing _ tail Htail).
  destruct (body +:+ ">") eqn:E; [|reflexivity].
  by apply append_not_nil_r in E.
Qed.

Lemma bracketed_join (a mid b : string) :
  bracketed a -> bracketed b -> bracketed (a +:+ mid +:+ b).
Proof.
  intros [x ->] [y ->]. exists (x +:+ ">" +:+ mid +:+ String "<" y).
  rewrite append_cons. f_equal. rewrite !append_assoc. reflexivity.
Qed.

Lemma trailing_space_closing (body : string) :
  trailing_space (body +:+ ">") = false.
Proof.
  induction body as [|c body IH]; [reflexivity|].
  rewrite append_cons. simpl.
  destruct (body +:+ ">") eqn:E; [by apply append_not_nil_r in E | exact IH].
Qed.

Lemma bracketed_no_outer_space (s : string) :
  bracketed s -> leading_space s = false /\ trailing_space s = false.
Proof.
  intros [body ->]. split; [reflexivity|].
  pose proof (trailing_space_closing body) as H. simpl.
  destruct (body +:+ ">") eqn:E; [by apply append_not_nil_r in E | exact H].
Qed.


Lemma closes_app (a b : string) :
  (exists x, b = x +:+ ">") -> exists x, a +:+ b = x +:+ ">".
Proof. intros [x ->]. exists (a +:+ x). by rewrite append_assoc. Qed.

Lemma bracketed_intro (rest : string) :
  (exists x, rest = x +:+ ">") -> bracketed (String "<" rest).
Proof. intros [x ->]. by exists x. Qed.

Lemma prev_fragment_bracketed nav : bracketed (prev_fragment nav).
Proof.
  apply (bracketed_intro ("a class=" +:+ _)).
  do 12 apply closes_app. by exists ">prev</a".
Qed.

Lemma this_fragment_bracketed nav : bracketed (this_fragment nav).
Proof.
  apply (bracketed_intro ("span class=" +:+ _)).
  do 14 apply closes_app. by exists "</span".
Qed.

Lemma next_fragment_bracketed nav : bracketed (next_fragment nav).
Proof.
  apply (bracketed_intro ("a class=" +:+ _)).
  do 12 apply closes_app. by exists ">next</a".
Qed.

(** ** The renderer *)

Ltac trim_as lead core tail :=
  transitivity (Trim (lead +:+ core +:+ tail) " ");
  [ f_equal; rewrite ?append_nil_r, ?append_assoc; reflexivity
  | apply Trim_bracketed; auto using bracketed_join ].

Lemma NavElementView_String_cases (nav : NavElementView) :
  NavElementView_String nav =
    if only_outer_fragments nav
    then prev_fragment nav +:+ "  " +:+ next_fragment nav
    else Join (present_fragments nav) " ".
Proof.
  pose proof (prev_fragment_bracketed nav) as Hp.
  pose proof (this_fragment_bracketed nav) as Ht.
  pose proof (next_fragment_bracketed nav) as Hn.
  unfold NavElementView_String, only_outer_fragments, present_fragments.
  generalize dependent (prev_fragment nav). intros P HP.
  generalize dependent (this_fragment nav). intros T HT.
  generalize dependent (next_fragment nav). intros N HN.
  destruct (String.eqb (PrevURI nav) ""), (String.eqb (ThisURI nav) ""),
    (String.eqb (NextURI nav) ""); cbn [negb andb app Join].
  - reflexivity.
  - trim_as "  " N "".
  - trim_as " " T " ".
  - trim_as " " (T +:+ " " +:+ N) "".
  - trim_as "" P "  ".
  - trim_as "" (P +:+ "  " +:+ N) "".
  - trim_as "" (P +:+ " " +:+ T) " ".
  - trim_as "" (P +:+ " " +:+ T +:+ " " +:+ N) "".
Qed.

Lemma NavElementView_String_no_outer_space (nav : NavElementView) :
  leading_space (NavElementView_String nav) = false
  /\ trailing_space (NavElementView_String nav) = false.
Proof.
  rewrite NavElementView_String_cases.
  pose proof (prev_fragment_bracketed nav) as Hp.
  pose proof (this_fragment_bracketed nav) as Ht.
  pose proof (next_fragment_bracketed nav) as Hn.
  unfold only_outer_fragments, present_fragments.
  destruct (String.eqb (PrevURI nav) ""), (String.eqb (ThisURI nav) ""),
    (String.eqb (NextURI nav) ""); cbn [negb andb app Join];
    first [ by split | apply bracketed_no_outer_space; auto using bracketed_join ].
Qed.

Lemma NavElementView_String_bracketed (nav : NavElementView) :
  NavElementView_String nav = "" \/ bracketed (NavElementView_String nav).
Proof.
  rewrite NavElementView_String_cases.
  pose proof (prev_fragment_bracketed nav) as Hp.
  pose proof (this_fragment_bracketed nav) as Ht.
  pose proof (next_fragment_bracketed nav) as Hn.
  unfold only_outer_fragments, present_fragments.
  destruct (String.eqb (PrevURI nav) ""), (String.eqb (ThisURI nav) ""),
    (String.eqb (NextURI nav) ""); cbn [negb andb app Join];
    first [ by left | right; auto using bracketed_join ].
Qed.

(** C2, as the code has it.  Rendering a [NavElementView] gives the
    fragments whose URI is not empty, the previous link, the current
    marker and the next link in that order, joined by single spaces,
    except that a previous and a next fragment without a current one are
    two spaces apart; the result never starts or ends with white space:
    it is empty or runs from the [<] of its first fragment to the [>] of
    its last. *)
Theorem NavElementView_String_fragments (nav : NavElementView) :
  NavElementView_String nav
  = (if only_outer_fragments nav
     then prev_fragment nav +:+ "  " +:+ next_fragment nav
     else Join (present_fragments nav) " ")
  /\ leading_space (NavElementView_String nav) = false
  /\ trailing_space (NavElementView_String nav) = false
  /\ (NavElementView_String nav = "" \/ bracketed (NavElementView_String nav)).
Proof.
  split; [apply NavElementView_String_cases|].
  split; [apply NavElementView_String_no_outer_space|].
  split; [apply NavElementView_String_no_outer_space|].
  apply NavElementView_String_bracketed.
Qed.

(** C2 as stated fails: with a previous and a next URI and no current
    one, the two fragments are joined by two spaces, not one. *)
Lemma NavElementView_String_two_spaces :
  NavElementView_String nav_without_this
  <> Join (present_fragments nav_without_this) " ".
Proof. vm_compute. discriminate. Qed.

(** ** The order of strings *)








(** ** [sort.Strings] *)

Lemma sort_Strings_Permutation (x : list string) : sort_Strings x ≡ₚ x.
Proof. apply merge_sort_Permutation. Qed.

Lemma sort_Strings_sorted (x : list string) :
  StronglySorted String.le (sort_Strings x).
Proof. apply (StronglySorted_merge_sort _). Qed.

Lemma sort_Strings_unique (x y : list string) :
  y ≡ₚ x -> StronglySorted String.le y -> y = sort_Strings x.
Proof.
  intros Hp Hs. apply (StronglySorted_unique String.le); auto.
  - apply sort_Strings_sorted.
  - by rewrite sort_Strings_Permutation.
Qed.

Lemma sort_Strings_length (x : list string) :
  length (sort_Strings x) = length x.
Proof. by rewrite sort_Strings_Permutation. Qed.


(** Sorting the projections by key and sorting their keys agree. *)
Lemma by_key_sorted (recs : list accessionInfo.t) :
  StronglySorted (fun a b => String.le (key_of a) (key_of b)) (by_key recs).
Proof.
  apply @StronglySorted_merge_sort.
  - intros a b c. apply (transitivity (R:=String.le)).
  - intros a b. apply (total String.le).
Qed.

Lemma StronglySorted_map {A B} (R : relation B) (f : A -> B) (l : list A) :
  StronglySorted (fun a b => R (f a) (f b)) l -> StronglySorted R (map f l).
Proof.
  induction 1 as [|a l Hs IH Ha]; simpl; constructor; auto.
  apply Forall_forall. intros k Hk.
  apply list_elem_of_fmap in Hk as (b & -> & Hb).
  by apply (proj1 (Forall_forall _ _) Ha).
Qed.

Lemma by_key_keys (recs : list accessionInfo.t) :
  map key_of (by_key recs) = sort_Strings (map key_of recs).
Proof.
  apply sort_Strings_unique.
  - unfold by_key. by rewrite merge_sort_Permutation.
  - apply StronglySorted_map, by_key_sorted.
Qed.

Lemma by_key_Permutation (recs : list accessionInfo.t) : by_key recs ≡ₚ recs.
Proof. apply merge_sort_Permutation. Qed.

(** ** [extractURI] *)

Lemma prefix_bar (c : ascii) (s : string) :
  String.prefix "|" (String c s) = Ascii.eqb "|" c.
Proof.
  change (String.prefix "|" (String c s))
    with (if ascii_dec "|" c then String.prefix "" s else false).
  destruct (ascii_dec "|" c) as [<-|Hne];
    [rewrite Ascii.eqb_refl; by destruct s|].
  symmetry. by apply Ascii.eqb_neq.
Qed.

Lemma last_index_from_no_bar (s : string) (i found : Z) :
  contains_bar s = false -> last_index_from s "|" i found = found.
Proof.
  revert i found. induction s as [|c s IH]; intros i found Hs; [reflexivity|].
  unfold contains_bar in *.
  change (Ascii.eqb "|" c || in_cutset "|" s = false) in Hs.
  apply orb_false_iff in Hs as [Hc Hs].
  cbn [last_index_from]. rewrite prefix_bar, Hc. by apply IH.
Qed.

Lemma last_index_from_bar (t u : string) (i found : Z) :
  contains_bar u = false ->
  last_index_from (t +:+ String "|" u) "|" i found
  = (i + Z.of_nat (String.length t))%Z.
Proof.
  intros Hu. revert i found. induction t as [|c t IH]; intros i found.
  - rewrite append_nil_l. cbn [last_index_from]. rewrite prefix_bar.
    rewrite Ascii.eqb_refl, last_index_from_no_bar by done. simpl. lia.
  - rewrite append_cons. cbn [last_index_from]. rewrite IH. simpl. lia.
Qed.

Lemma slice_from_append (t u : string) :
  slice_from (t +:+ u) (String.length t) = u.
Proof.
  induction t as [|c t IH]; [by destruct u|].
  rewrite append_cons. simpl. exact IH.
Qed.

Lemma extractURI_sort_key (title uri : string) :
  contains_bar uri = false -> extractURI (sort_key title uri) = uri.
Proof.
  intros Hu. unfold extractURI, sort_key, LastIndex.
  change ("|" +:+ uri) with (String "|" uri).
  rewrite last_index_from_bar by done.
  replace (Z.to_nat (0 + Z.of_nat (String.length title) + 1))
    with (String.length (title +:+ "|")) by (rewrite length_append; simpl; lia).
  change (String "|" uri) with ("|" +:+ uri).
  rewrite <- append_assoc. apply slice_from_append.
Qed.

Lemma extractURI_key_of (a : accessionInfo.t) :
  contains_bar (accessionInfo.URI a) = false ->
  extractURI (key_of a) = accessionInfo.URI a.
Proof. apply extractURI_sort_key. Qed.

(** ** The walk *)

(** The index and the keys the walk builds from a list of projections. *)
Lemma record_accession_nav (a : accessionInfo.t) (st : walk_state) :
  record_accession a st
  = mkWalkState (<[accessionInfo.URI a := nav_of a]> (titleIndex st))
                (titlesWithURI st ++ [key_of a])%list.
Proof. reflexivity. Qed.

Lemma titlesWithURI_foldl (accs : list accessionInfo.t) (st : walk_state) :
  titlesWithURI (foldl (fun s a => record_accession a s) st accs)
  = (titlesWithURI st ++ map key_of accs)%list.
Proof.
  revert st. induction accs as [|a accs IH]; intros st; simpl.
  - by rewrite app_nil_r.
  - rewrite IH. simpl. by rewrite <- app_assoc.
Qed.

Lemma titleIndex_foldl (accs : list accessionInfo.t) (st : walk_state) :
  titleIndex (foldl (fun s a => record_accession a s) st accs)
  = foldl (fun m a => <[accessionInfo.URI a := nav_of a]> m)
          (titleIndex st) accs.
Proof.
  revert st. induction accs as [|a accs IH]; intros st; simpl; [done|].
  by rewrite IH.
Qed.

Lemma stored_lookup (accs : list accessionInfo.t)
    (m : gmap string NavElementView) (k : string) (n : NavElementView) :
  foldl (fun m a => <[accessionInfo.URI a := nav_of a]> m) m accs !! k = Some n ->
  (exists a, a ∈ accs /\ accessionInfo.URI a = k /\ n = nav_of a)
  \/ m !! k = Some n.
Proof.
  revert m. induction accs as [|a accs IH]; intros m H; simpl in *; [by right|].
  destruct (IH _ H) as [(b & Hb & Hk & Hn)|Hm].
  - left. exists b. split; [by right | done].
  - destruct (decide (accessionInfo.URI a = k)) as [E|E].
    + rewrite E, lookup_insert_eq in Hm. injection Hm as <-.
      left. exists a. split; [by left | done].
    + rewrite lookup_insert_ne in Hm by done. by right.
Qed.

Lemma stored_lookup_NoDup (accs : list accessionInfo.t)
    (m : gmap string NavElementView) (a : accessionInfo.t) :
  NoDup (map accessionInfo.URI accs) -> a ∈ accs ->
  foldl (fun m a => <[accessionInfo.URI a := nav_of a]> m) m accs
    !! accessionInfo.URI a = Some (nav_of a).
Proof.
  revert m. induction accs as [|b accs IH]; intros m Hnd Ha; simpl in *.
  - by apply elem_of_nil in Ha.
  - apply NoDup_cons in Hnd as [Hb Hnd].
    apply elem_of_cons in Ha as [->|Ha]; [|by apply IH].
    clear IH. revert m. induction accs as [|c accs IH]; intros m; simpl.
    + apply lookup_insert_eq.
    + simpl in Hb, Hnd. apply not_elem_of_cons in Hb as [Hbc Hb].
      apply NoDup_cons in Hnd as [_ Hnd].
      rewrite insert_insert_ne by done. by apply IH.
Qed.

Lemma stored_is_Some (accs : list accessionInfo.t)
    (m : gmap string NavElementView) (k : string) :
  (exists a, a ∈ accs /\ accessionInfo.URI a = k) \/ is_Some (m !! k) ->
  is_Some (foldl (fun m a => <[accessionInfo.URI a := nav_of a]> m) m accs !! k).
Proof.
  revert m. induction accs as [|b l IH]; intros m H; simpl.
  - destruct H as [(a & Ha & _)|H]; [by apply elem_of_nil in Ha | done].
  - apply IH. destruct H as [(a & Ha & E)|H].
    + apply elem_of_cons in Ha as [->|Ha]; [|by eauto].
      right. rewrite E, lookup_insert_eq. eauto.
    + right. destruct (decide (accessionInfo.URI b = k)) as [->|Hne].
      * rewrite lookup_insert_eq. eauto.
      * by rewrite lookup_insert_ne.
Qed.

Lemma stored_size (accs : list accessionInfo.t)
    (m : gmap string NavElementView) :
  accs <> [] ->
  size (foldl (fun m a => <[accessionInfo.URI a := nav_of a]> m) m accs) <> 0.
Proof.
  intros Hne.
  assert (Hfold : forall accs (m : gmap string NavElementView), size m <> 0 ->
            size (foldl (fun m a => <[accessionInfo.URI a := nav_of a]> m) m accs)
            <> 0).
  { clear. induction accs as [|a accs IH]; intros m Hm; simpl; [done|].
    apply IH. intros E. apply map_size_empty_inv in E.
    by apply insert_non_empty in E. }
  destruct accs as [|a accs]; [done|]. simpl. apply Hfold.
  intros E. apply map_size_empty_inv in E. by apply insert_non_empty in E.
Qed.

Section Walk.
Variable Walk : string -> list string.
Variable ReadFile : string -> error + document.

Lemma visit_cases (st : walk_state) (p : string) :
  visit ReadFile st p =
    if crashes ReadFile p then None
    else Some (match accession_of ReadFile p with
               | Some a => record_accession a st
               | None => st
               end).
Proof.
  unfold visit, crashes, accession_of, decoded.
  destruct (HasSuffix p ".json"); [|done].
  destruct (ReadFile p) as [e|src]; [done|].
  destruct (Unmarshal_accessionInfo src) as [[a|] err]; [|done].
  by destruct (String.eqb (accessionInfo.JSONModel a) "accession").
Qed.

Lemma walk_from_Some (st : walk_state) (paths : list string) :
  Forall (fun p => crashes ReadFile p = false) paths ->
  walk_from ReadFile st paths
  = Some (foldl (fun s a => record_accession a s) st
            (omap (accession_of ReadFile) paths)).
Proof.
  intros H. revert st. induction H as [|p paths Hp H IH]; intros st; [done|].
  simpl. rewrite visit_cases, Hp, IH.
  by destruct (accession_of ReadFile p).
Qed.

Lemma walk_from_inv (st st' : walk_state) (paths : list string) :
  walk_from ReadFile st paths = Some st' ->
  Forall (fun p => crashes ReadFile p = false) paths.
Proof.
  revert st. induction paths as [|p paths IH]; intros st H; [constructor|].
  simpl in H. rewrite visit_cases in H.
  destruct (crashes ReadFile p) eqn:Hp; [done|].
  constructor; [done | by eapply IH].
Qed.

Lemma walk_tree_Some (dname : string) (st : walk_state) :
  walk_tree Walk ReadFile dname = Some st ->
  titlesWithURI st = map key_of (accessions Walk ReadFile dname)
  /\ titleIndex st
     = foldl (fun m a => <[accessionInfo.URI a := nav_of a]> m) ∅
         (accessions Walk ReadFile dname).
Proof.
  intros H. unfold walk_tree in H.
  pose proof (walk_from_inv _ _ _ H) as Hok.
  rewrite (walk_from_Some _ _ Hok) in H. injection H as <-.
  by rewrite titlesWithURI_foldl, titleIndex_foldl.
Qed.

Lemma accession_of_JSONModel (p : string) (a : accessionInfo.t) :
  accession_of ReadFile p = Some a -> accessionInfo.JSONModel a = "accession".
Proof.
  unfold accession_of.
  destruct (decoded ReadFile p) as [[[b|] e]|]; try done.
  destruct (String.eqb_spec (accessionInfo.JSONModel b) "accession"); [|done].
  by intros [= <-].
Qed.

Lemma accessions_JSONModel (dname : string) (a : accessionInfo.t) :
  a ∈ accessions Walk ReadFile dname ->
  exists p, p ∈ Walk dname /\ accession_of ReadFile p = Some a
            /\ accessionInfo.JSONModel a = "accession".
Proof.
  unfold accessions. rewrite list_elem_of_omap. intros (p & Hp & Ha).
  exists p. eauto using accession_of_JSONModel.
Qed.
End Walk.

(** ** Linking the sorted titles *)

Lemma title_at_keys (ordered : list accessionInfo.t) (j : nat)
    (b : accessionInfo.t) :
  ordered !! j = Some b -> title_at (map key_of ordered) j = key_of b.
Proof.
  intros Hj. unfold title_at.
  change (map key_of ordered) with (key_of <$> ordered).
  by rewrite list_lookup_fmap, Hj.
Qed.

Section Link.
Variable ordered : list accessionInfo.t.
Hypothesis bar_free :
  Forall (fun b => contains_bar (accessionInfo.URI b) = false) ordered.
Hypothesis distinct : NoDup (map accessionInfo.URI ordered).

Let titles := map key_of ordered.
Let lastI := (Z.of_nat (length titles) - 1)%Z.

Lemma ordered_extractURI (j : nat) (b : accessionInfo.t) :
  ordered !! j = Some b ->
  extractURI (title_at titles j) = accessionInfo.URI b.
Proof.
  intros Hj. unfold titles. rewrite (title_at_keys _ _ _ Hj).
  apply extractURI_key_of.
  by apply (proj1 (Forall_lookup _ _) bar_free j).
Qed.

Lemma ordered_URI_inj (i j : nat) (a b : accessionInfo.t) :
  ordered !! i = Some a -> ordered !! j = Some b ->
  accessionInfo.URI a = accessionInfo.URI b -> i = j.
Proof.
  intros Hi Hj E.
  apply (NoDup_lookup _ i j (accessionInfo.URI a) distinct).
  - change (map accessionInfo.URI ordered) with (accessionInfo.URI <$> ordered).
    by rewrite list_lookup_fmap, Hi.
  - change (map accessionInfo.URI ordered) with (accessionInfo.URI <$> ordered).
    by rewrite list_lookup_fmap, Hj, E.
Qed.

Lemma link_one_linked (idx : gmap string NavElementView) (i : nat)
    (a : accessionInfo.t) :
  ordered !! i = Some a ->
  idx !! accessionInfo.URI a = Some (nav_of a) ->
  labelled ordered idx ->
  link_one titles lastI idx i (key_of a)
  = <[accessionInfo.URI a := linked_nav ordered i a]> idx.
Proof.
  intros Hi Ha Hall. unfold link_one.
  rewrite (extractURI_key_of a)
    by (by apply (proj1 (Forall_lookup _ _) bar_free i)).
  rewrite Ha.
  set (prev := match i with O => None | S j => ordered !! j end).
  assert (Hprev :
    (if (0 <? Z.of_nat i)%Z
     then match idx !! extractURI (title_at titles (i - 1)) with
          | Some prev =>
              alter (fun nav => set_Prev nav (ThisLabel prev) (ThisURI prev))
                    (accessionInfo.URI a) idx
          | None => idx
          end
     else idx)
    = <[accessionInfo.URI a :=
          set_Prev (nav_of a) (from_option accessionInfo.Title "" prev)
                   (from_option accessionInfo.URI "" prev)]> idx).
  { destruct i as [|j]; simpl.
    - symmetry. by apply insert_id.
    - assert (is_Some (ordered !! j)) as [b Hb].
      { apply lookup_lt_is_Some. apply lookup_lt_Some in Hi. lia. }
      rewrite Nat.sub_0_r, (ordered_extractURI _ _ Hb).
      destruct (Hall _ _ Hb) as (n & Hn & Hl & Hu).
      rewrite Hn, Hl, Hu. subst prev. rewrite Hb. simpl.
      exact (alter_alt_Some _ _ _ _ Ha). }
  rewrite Hprev. clear Hprev.
  set (idx1 := <[accessionInfo.URI a := _]> idx).
  destruct (ordered !! S i) as [c|] eqn:Hc.
  - assert ((Z.of_nat i <? lastI)%Z = true) as ->.
    { apply Z.ltb_lt. apply lookup_lt_Some in Hc. unfold lastI, titles.
      rewrite length_map. lia. }
    rewrite Nat.add_1_r, (ordered_extractURI _ _ Hc).
    assert (accessionInfo.URI a <> accessionInfo.URI c) as Hne.
    { intros E. pose proof (ordered_URI_inj _ _ _ _ Hi Hc E). lia. }
    destruct (Hall _ _ Hc) as (n & Hn & Hl & Hu).
    unfold idx1 at 1. rewrite lookup_insert_ne, Hn, Hl, Hu by done.
    unfold idx1. rewrite (alter_alt_Some _ _ _ _ (lookup_insert_eq _ _ _)).
    rewrite insert_insert_eq. f_equal.
    unfold linked_nav. fold prev. by rewrite Hc.
  - assert ((Z.of_nat i <? lastI)%Z = false) as ->.
    { apply Z.ltb_ge. apply lookup_ge_None in Hc. unfold lastI, titles.
      rewrite length_map. lia. }
    unfold idx1. f_equal. unfold linked_nav. fold prev. by rewrite Hc.
Qed.

Lemma link_from_linked (todo : list accessionInfo.t) :
  forall (n : nat) (idx : gmap string NavElementView),
  todo = drop n ordered ->
  (forall j b, ordered !! j = Some b -> j < n ->
     idx !! accessionInfo.URI b = Some (linked_nav ordered j b)) ->
  (forall j b, ordered !! j = Some b -> n <= j ->
     idx !! accessionInfo.URI b = Some (nav_of b)) ->
  forall j b, ordered !! j = Some b ->
    link_from titles lastI n (map key_of todo) idx !! accessionInfo.URI b
    = Some (linked_nav ordered j b).
Proof.
  induction todo as [|a todo IH]; intros n idx Htodo Hdone Hnew j b Hj.
  - simpl. apply Hdone; [done|].
    apply lookup_lt_Some in Hj.
    assert (length (drop n ordered) = 0) as Hlen by (by rewrite <- Htodo).
    rewrite length_drop in Hlen. lia.
  - assert (ordered !! n = Some a) as Hn.
    { rewrite <- (Nat.add_0_r n), <- lookup_drop, <- Htodo. done. }
    simpl. rewrite (link_one_linked idx n a Hn); [| by apply (Hnew n) |].
    + apply (IH (S n)); [| | | done].
      * by rewrite (drop_S _ _ _ Hn) in Htodo; injection Htodo.
      * intros k c Hk Hlt. destruct (decide (k = n)) as [->|Hne].
        -- rewrite Hn in Hk. injection Hk as <-. apply lookup_insert_eq.
        -- rewrite lookup_insert_ne; [apply (Hdone k); [done | lia]|].
           intros E. apply Hne. symmetry. by eapply ordered_URI_inj.
      * intros k c Hk Hle.
        rewrite lookup_insert_ne; [apply (Hnew k); [done | lia]|].
        intros E. pose proof (ordered_URI_inj _ _ _ _ Hn Hk E). lia.
    + intros k c Hk. destruct (decide (k < n)) as [Hlt|Hge].
      * exists (linked_nav ordered k c). by rewrite (Hdone _ _ Hk Hlt).
      * exists (nav_of c). rewrite (Hnew _ _ Hk) by lia. done.
Qed.

(** With distinct URIs free of the separator, linking turns the stored
    entries into the chain of [ordered]. *)
Lemma link_titles_linked (idx : gmap string NavElementView) :
  (forall b, b ∈ ordered -> idx !! accessionInfo.URI b = Some (nav_of b)) ->
  forall j b, ordered !! j = Some b ->
    link_titles titles idx !! accessionInfo.URI b
    = Some (linked_nav ordered j b).
Proof.
  intros Hidx j b Hj. unfold link_titles. fold lastI.
  apply (link_from_linked ordered 0 idx); auto with lia.
  intros k c Hk _. apply Hidx. by eapply list_elem_of_lookup_2.
Qed.
End Link.

(** Linking never touches [ThisLabel] and [ThisURI], nor the set of keys. *)
Lemma link_one_this (titles : list string) (lastI : Z)
    (idx : gmap string NavElementView) (i : nat) (val k : string) :
  this_of <$> link_one titles lastI idx i val !! k = this_of <$> idx !! k.
Proof.
  assert (Halter : forall (f : NavElementView -> NavElementView) u
            (m : gmap string NavElementView),
            (forall n, this_of (f n) = this_of n) ->
            this_of <$> alter f u m !! k = this_of <$> m !! k).
  { intros f u m Hf. destruct (decide (u = k)) as [->|Hne].
    - rewrite lookup_alter_eq. destruct (m !! k); simpl; by rewrite ?Hf.
    - by rewrite lookup_alter_ne. }
  unfold link_one. destruct (idx !! extractURI val); [|done].
  set (idx1 := if (0 <? Z.of_nat i)%Z then _ else idx).
  assert (this_of <$> idx1 !! k = this_of <$> idx !! k) as <-.
  { unfold idx1. destruct (0 <? Z.of_nat i)%Z; [|done].
    destruct (idx !! extractURI (title_at titles (i - 1))); [|done].
    by apply Halter. }
  destruct (Z.of_nat i <? lastI)%Z; [|done].
  destruct (idx1 !! extractURI (title_at titles (i + 1))); [|done].
  by apply Halter.
Qed.

Lemma link_from_this (titles : list string) (lastI : Z) (rest : list string)
    (i : nat) (idx : gmap string NavElementView) (k : string) :
  this_of <$> link_from titles lastI i rest idx !! k = this_of <$> idx !! k.
Proof.
  revert i idx. induction rest as [|val rest IH]; intros i idx; [done|].
  simpl. by rewrite IH, link_one_this.
Qed.

Lemma link_titles_this (titles : list string)
    (idx : gmap string NavElementView) (k : string) (nav : NavElementView) :
  link_titles titles idx !! k = Some nav ->
  exists n, idx !! k = Some n
            /\ ThisLabel nav = ThisLabel n /\ ThisURI nav = ThisURI n.
Proof.
  intros H. pose proof (link_from_this titles
    (Z.of_nat (length titles) - 1) titles 0 idx k) as E.
  fold (link_titles titles idx) in E. rewrite H in E.
  destruct (idx !! k) as [n|]; [|done].
  exists n. injection E as E1 E2. auto.
Qed.

(** ** The title index *)

Section TitleIndexFacts.
Variable Walk : string -> list string.
Variable ReadFile : string -> error + document.

(** What a successful call returns. *)
Lemma MakeAccessionTitleIndex_Some (dname : string)
    (idx : gmap string NavElementView) (err : option error) :
  MakeAccessionTitleIndex Walk ReadFile dname = Returned (Some idx) err ->
  accessions Walk ReadFile dname <> []
  /\ idx = link_titles (map key_of (by_key (accessions Walk ReadFile dname)))
             (foldl (fun m a => <[accessionInfo.URI a := nav_of a]> m) ∅
                (accessions Walk ReadFile dname)).
Proof.
  unfold MakeAccessionTitleIndex.
  destruct (walk_tree Walk ReadFile dname) as [st|] eqn:Hw; [|done].
  destruct (walk_tree_Some _ _ _ _ Hw) as [Ht Hi].
  destruct (length (titlesWithURI st) =? 0)%nat eqn:Hlen; [done|].
  destruct (size (titleIndex st) =? 0)%nat; [done|].
  intros [= <- <-]. split.
  - intros E. rewrite Ht, E in Hlen. done.
  - by rewrite Ht, Hi, by_key_keys.
Qed.

Lemma MakeAccessionTitleIndex_empty (dname : string) :
  Forall (fun p => crashes ReadFile p = false) (Walk dname) ->
  accessions Walk ReadFile dname = [] ->
  MakeAccessionTitleIndex Walk ReadFile dname
  = Returned None (Some "No titles found").
Proof.
  intros Hok Hnone. unfold MakeAccessionTitleIndex, walk_tree.
  rewrite (walk_from_Some _ _ _ Hok).
  fold (accessions Walk ReadFile dname). by rewrite Hnone.
Qed.

Lemma indexed_is_accession (dname : string)
    (idx : gmap string NavElementView) (k : string) (nav : NavElementView) :
  MakeAccessionTitleIndex Walk ReadFile dname = Returned (Some idx) None ->
  idx !! k = Some nav ->
  exists a, a ∈ accessions Walk ReadFile dname
            /\ accessionInfo.JSONModel a = "accession"
            /\ accessionInfo.URI a = k
            /\ ThisURI nav = k /\ ThisLabel nav = accessionInfo.Title a.
Proof.
  intros H Hk. apply MakeAccessionTitleIndex_Some in H as [_ ->].
  apply link_titles_this in Hk as (n & Hn & Hl & Hu).
  apply stored_lookup in Hn as [(a & Ha & E & ->)|Hn];
    [|by rewrite lookup_empty in Hn].
  exists a. destruct (accessions_JSONModel _ _ _ _ Ha) as (p & _ & _ & Hm).
  rewrite Hl, Hu. simpl. by subst k.
Qed.

Lemma indexed_chain (dname : string) (idx : gmap string NavElementView) :
  MakeAccessionTitleIndex Walk ReadFile dname = Returned (Some idx) None ->
  NoDup (map accessionInfo.URI (accessions Walk ReadFile dname)) ->
  Forall (fun a => contains_bar (accessionInfo.URI a) = false) (accessions Walk ReadFile dname) ->
  forall j b, by_key (accessions Walk ReadFile dname) !! j = Some b ->
    idx !! accessionInfo.URI b = Some (linked_nav (by_key (accessions Walk ReadFile dname)) j b).
Proof.
  intros H Hnd Hbar j b Hj.
  apply MakeAccessionTitleIndex_Some in H as [_ ->].
  apply link_titles_linked; [| | | done].
  - by rewrite by_key_Permutation.
  - by rewrite by_key_Permutation.
  - intros c Hc. apply stored_lookup_NoDup; [done|].
    by rewrite by_key_Permutation in Hc.
Qed.
End TitleIndexFacts.

(** ** The walk and the links, without the assumption of distinct URIs *)

Lemma stored_Permutation (accs accs' : list accessionInfo.t) :
  accs' ≡ₚ accs -> NoDup (map accessionInfo.URI accs) ->
  foldl (fun m a => <[accessionInfo.URI a := nav_of a]> m)
        (∅ : gmap string NavElementView) accs'
  = foldl (fun m a => <[accessionInfo.URI a := nav_of a]> m) ∅ accs.
Proof.
  intros Hp Hnd.
  assert (Hnd' : NoDup (map accessionInfo.URI accs')) by (by rewrite Hp).
  apply map_eq. intros k. apply option_eq. intros n. split; intros H.
  - apply stored_lookup in H as [(a & Ha & <- & ->)|H];
      [|by rewrite lookup_empty in H].
    apply stored_lookup_NoDup; [done | by rewrite <- Hp].
  - apply stored_lookup in H as [(a & Ha & <- & ->)|H];
      [|by rewrite lookup_empty in H].
    apply stored_lookup_NoDup; [done | by rewrite Hp].
Qed.


Lemma walk_from_None (ReadFile : string -> error + document)
    (st : walk_state) (paths : list string) :
  Exists (fun p => crashes ReadFile p = true) paths ->
  walk_from ReadFile st paths = None.
Proof.
  intros H. revert st. induction H as [p paths Hp|p paths H IH]; intros st.
  - simpl. by rewrite visit_cases, Hp.
  - simpl. destruct (visit ReadFile st p); [apply IH | done].
Qed.

Lemma NoDup_last_of_its_URI (ordered : list accessionInfo.t) (j : nat)
    (b : accessionInfo.t) :
  NoDup (map accessionInfo.URI ordered) -> ordered !! j = Some b ->
  last_of_its_URI ordered j b.
Proof.
  intros Hnd Hj j' b' Hlt Hj' E.
  assert (j' = j); [|lia].
  apply (NoDup_lookup _ j' j (accessionInfo.URI b) Hnd).
  - change (map accessionInfo.URI ordered) with (accessionInfo.URI <$> ordered).
    rewrite list_lookup_fmap, Hj'. simpl. by rewrite E.
  - change (map accessionInfo.URI ordered) with (accessionInfo.URI <$> ordered).
    by rewrite list_lookup_fmap, Hj.
Qed.

Section LinkAny.
Variable ordered : list accessionInfo.t.
Hypothesis bar_free :
  Forall (fun b => contains_bar (accessionInfo.URI b) = false) ordered.

Let titles := map key_of ordered.
Let lastI := (Z.of_nat (length titles) - 1)%Z.

(** One round of the loop finds the three entries it looks up, and
    writes both links of the entry of [a]. *)
Lemma link_one_any (idx : gmap string NavElementView) (i : nat)
    (a : accessionInfo.t) (nav : NavElementView) :
  ordered !! i = Some a ->
  entered ordered idx ->
  idx !! accessionInfo.URI a = Some nav ->
  exists nav',
    link_one titles lastI idx i (key_of a)
    = <[accessionInfo.URI a := nav']> idx
    /\ ThisURI nav' = ThisURI nav
    /\ PrevURI nav'
       = match i with
         | O => PrevURI nav
         | S j => from_option accessionInfo.URI "" (ordered !! j)
         end
    /\ NextURI nav'
       = match ordered !! S i with
         | Some c => accessionInfo.URI c
         | None => NextURI nav
         end.
Proof.
  intros Hi Hall Ha. unfold link_one.
  rewrite (extractURI_key_of a)
    by (by apply (proj1 (Forall_lookup _ _) bar_free i)).
  rewrite Ha.
  assert (Hprev : exists nav1,
    (if (0 <? Z.of_nat i)%Z
     then match idx !! extractURI (title_at titles (i - 1)) with
          | Some prev =>
              alter (fun nav => set_Prev nav (ThisLabel prev) (ThisURI prev))
                    (accessionInfo.URI a) idx
          | None => idx
          end
     else idx)
    = <[accessionInfo.URI a := nav1]> idx
    /\ ThisURI nav1 = ThisURI nav
    /\ NextURI nav1 = NextURI nav
    /\ PrevURI nav1
       = match i with
         | O => PrevURI nav
         | S j => from_option accessionInfo.URI "" (ordered !! j)
         end).
  { destruct i as [|j]; simpl.
    - exists nav. split; [symmetry; by apply insert_id | done].
    - assert (is_Some (ordered !! j)) as [b Hb].
      { apply lookup_lt_is_Some. apply lookup_lt_Some in Hi. lia. }
      rewrite Nat.sub_0_r. unfold titles.
      rewrite (ordered_extractURI ordered bar_free _ _ Hb).
      destruct (Hall b) as (n & Hn & Hu);
        [by eapply list_elem_of_lookup_2|].
      rewrite Hn, Hu, Hb. eexists.
      split; [exact (alter_alt_Some _ _ _ _ Ha) | done]. }
  destruct Hprev as (nav1 & -> & Hthis1 & Hnext1 & Hprev1).
  destruct (ordered !! S i) as [c|] eqn:Hc.
  - assert ((Z.of_nat i <? lastI)%Z = true) as ->.
    { apply Z.ltb_lt. apply lookup_lt_Some in Hc. unfold lastI, titles.
      rewrite length_map. lia. }
    rewrite Nat.add_1_r. unfold titles.
    rewrite (ordered_extractURI ordered bar_free _ _ Hc).
    assert (exists next,
              <[accessionInfo.URI a := nav1]> idx !! accessionInfo.URI c
              = Some next
              /\ ThisURI next = accessionInfo.URI c) as (next & -> & Hu).
    { destruct (decide (accessionInfo.URI a = accessionInfo.URI c))
        as [E|Hne].
      - exists nav1. rewrite <- E, lookup_insert_eq. split; [done|].
        rewrite Hthis1.
        destruct (Hall a) as (n & Hn & Hu);
          [by eapply list_elem_of_lookup_2|].
        rewrite Ha in Hn. by injection Hn as ->.
      - rewrite lookup_insert_ne by done. apply Hall.
        by eapply list_elem_of_lookup_2. }
    rewrite (alter_alt_Some _ _ _ _ (lookup_insert_eq _ _ _)).
    rewrite insert_insert_eq. eexists. split; [done|].
    cbn. by rewrite Hu.
  - assert ((Z.of_nat i <? lastI)%Z = false) as ->.
    { apply Z.ltb_ge. apply lookup_ge_None in Hc. unfold lastI, titles.
      rewrite length_map. lia. }
    exists nav1. by rewrite Hnext1.
Qed.

Lemma link_from_any (todo : list accessionInfo.t) :
  forall (n : nat) (idx : gmap string NavElementView),
  todo = drop n ordered ->
  entered ordered idx ->
  (forall j b, ordered !! j = Some b -> j < n ->
     (forall j' b', j < j' -> j' < n -> ordered !! j' = Some b' ->
        accessionInfo.URI b' <> accessionInfo.URI b) ->
     exists nav,
       idx !! accessionInfo.URI b = Some nav
       /\ PrevURI nav = URI_before ordered j
       /\ (S j < length ordered -> NextURI nav = URI_after ordered j)) ->
  (forall b nav, b ∈ ordered ->
     (forall j' b', j' < n -> ordered !! j' = Some b' ->
        accessionInfo.URI b' <> accessionInfo.URI b) ->
     idx !! accessionInfo.URI b = Some nav ->
     PrevURI nav = "" /\ NextURI nav = "") ->
  forall j b, ordered !! j = Some b -> last_of_its_URI ordered j b ->
    exists nav,
      link_from titles lastI n (map key_of todo) idx !! accessionInfo.URI b
      = Some nav
      /\ ThisURI nav = accessionInfo.URI b
      /\ PrevURI nav = URI_before ordered j
      /\ (S j < length ordered -> NextURI nav = URI_after ordered j).
Proof.
  induction todo as [|a todo IH];
    intros n idx Htodo Hall Hdone Hnew j b Hj Hlast.
  - simpl. destruct (Hdone j b Hj) as (nav & Hnav & Hp & Hn).
    + apply lookup_lt_Some in Hj.
      assert (length (drop n ordered) = 0) as Hlen by (by rewrite <- Htodo).
      rewrite length_drop in Hlen. lia.
    + intros j' b' Hlt _. by apply Hlast.
    + exists nav. destruct (Hall b) as (n' & Hn' & Hu);
        [by eapply list_elem_of_lookup_2|].
      rewrite Hnav in Hn'. injection Hn' as <-. done.
  - assert (ordered !! n = Some a) as Hn.
    { rewrite <- (Nat.add_0_r n), <- lookup_drop, <- Htodo. done. }
    destruct (Hall a) as (nav & Hnav & Hu);
      [by eapply list_elem_of_lookup_2|].
    destruct (link_one_any idx n a nav Hn Hall Hnav)
      as (nav' & Hone & Hthis & Hprev & Hnext).
    simpl. rewrite Hone.
    apply (IH (S n)); [| | | |done|done].
    + by rewrite (drop_S _ _ _ Hn) in Htodo; injection Htodo.
    + intros c Hc.
      destruct (decide (accessionInfo.URI a = accessionInfo.URI c))
        as [E|Hne].
      * exists nav'. rewrite <- E, lookup_insert_eq. split; [done|].
        by rewrite Hthis.
      * rewrite lookup_insert_ne by done. by apply Hall.
    + intros k c Hk Hlt Hlastk.
      destruct (decide (k = n)) as [->|Hne].
      * rewrite Hn in Hk. injection Hk as <-.
        exists nav'. rewrite lookup_insert_eq. split; [done|]. split.
        -- rewrite Hprev. destruct n as [|i]; [|done].
           cbn. eapply (Hnew a nav); [by eapply list_elem_of_lookup_2| |done].
           intros j' b' Hj'. lia.
        -- intros Hlen. rewrite Hnext. unfold URI_after.
           destruct (ordered !! S n) as [c|] eqn:Hc; [done|].
           apply lookup_ge_None in Hc. lia.
      * assert (accessionInfo.URI a <> accessionInfo.URI c) as Hac.
        { apply (Hlastk n a); [lia | lia | done]. }
        rewrite lookup_insert_ne by done.
        apply (Hdone k c Hk); [lia|].
        intros j' b' H1 H2. apply Hlastk; [done | lia].
    + intros c navc Hc Hnone.
      assert (accessionInfo.URI a <> accessionInfo.URI c) as Hac.
      { apply (Hnone n a); [lia | done]. }
      rewrite lookup_insert_ne by done.
      apply (Hnew c navc Hc). intros j' b' Hlt. apply Hnone. lia.
Qed.

(** Linking the stored entries along [ordered]: the entry of a
    projection that is the last of its URI points back to the URI
    before it and forward to the URI after it. *)
Lemma link_titles_any (accs : list accessionInfo.t) :
  ordered ≡ₚ accs ->
  forall j b, ordered !! j = Some b -> last_of_its_URI ordered j b ->
    exists nav,
      link_titles titles (stored_entries accs) !! accessionInfo.URI b
      = Some nav
      /\ ThisURI nav = accessionInfo.URI b
      /\ PrevURI nav = URI_before ordered j
      /\ (S j < length ordered -> NextURI nav = URI_after ordered j).
Proof.
  intros Hperm j b Hj Hlast. unfold link_titles. fold lastI.
  assert (Hstored : forall c n,
            stored_entries accs !! accessionInfo.URI c = Some n ->
            ThisURI n = accessionInfo.URI c
            /\ PrevURI n = "" /\ NextURI n = "").
  { intros c n Hn. apply stored_lookup in Hn as [(a & _ & E & ->)|Hn];
      [done | by rewrite lookup_empty in Hn]. }
  apply (link_from_any ordered 0 (stored_entries accs)); [done| | | |done..].
  - intros c Hc.
    destruct (stored_is_Some accs ∅ (accessionInfo.URI c)) as [n Hn].
    { left. exists c. split; [by rewrite <- Hperm | done]. }
    exists n. split; [done|]. by apply (Hstored c).
  - intros k c _ Hlt. lia.
  - intros c n _ _ Hn. by apply (Hstored c n) in Hn as (_ & ? & ?).
Qed.
End LinkAny.



(** C4, as the code has it.  In every title index that
    [MakeAccessionTitleIndex] returns, when the accession URIs are
    distinct and none of them contains the separator ["|"]: every entry's
    [ThisURI] is the key it is stored under; of two entries adjacent in
    the sorted order the earlier's [NextURI] is the later's [ThisURI] and
    the later's [PrevURI] is the earlier's [ThisURI]; the first entry has
    an empty [PrevURI] and the last an empty [NextURI]. *)
Theorem title_index_chain
    (Walk : string -> list string) (ReadFile : string -> error + document)
    (dname : string) (idx : gmap string NavElementView) :
  MakeAccessionTitleIndex Walk ReadFile dname = Returned (Some idx) None ->
  NoDup (map accessionInfo.URI (accessions Walk ReadFile dname)) ->
  Forall (fun a => contains_bar (accessionInfo.URI a) = false)
         (accessions Walk ReadFile dname) ->
  chain_linked (by_key (accessions Walk ReadFile dname)) idx.
Proof.
  intros H Hnd Hbar.
  pose proof (indexed_chain _ _ _ _ H Hnd Hbar) as Hchain.
  repeat split.
  - intros k nav Hk.
    by destruct (indexed_is_accession _ _ _ _ _ _ H Hk) as (a & _ & _ & _ & E & _).
  - intros i a b Ha Hb.
    exists (linked_nav (by_key (accessions Walk ReadFile dname)) i a),
           (linked_nav (by_key (accessions Walk ReadFile dname)) (S i) b).
    rewrite (Hchain _ _ Ha), (Hchain _ _ Hb).
    unfold linked_nav. rewrite Ha, Hb. done.
  - intros a Ha. rewrite head_lookup in Ha.
    exists (linked_nav (by_key (accessions Walk ReadFile dname)) 0 a).
    by rewrite (Hchain _ _ Ha).
  - intros a Ha. rewrite last_lookup in Ha.
    eexists. rewrite (Hchain _ _ Ha). split; [done|].
    unfold linked_nav. cbn [NextURI].
    rewrite (proj2 (lookup_ge_None _ _)); [done|].
    apply lookup_lt_Some in Ha. lia.
Qed.

Lemma title_index_chain_witness :
  chain_linked
    (by_key (accessions (tree_Walk three_accessions)
               (tree_ReadFile three_accessions) "/data"))
    (<["/u1" := mkNavElementView "A" "/u1" "" "" "/u2" "A" 0]>
    (<["/u2" := mkNavElementView "A" "/u2" "/u1" "A" "/u3" "B" 0]>
    (<["/u3" := mkNavElementView "B" "/u3" "/u2" "A" "" "" 0]> ∅))).
Proof.
  apply (title_index_chain (tree_Walk three_accessions)
           (tree_ReadFile three_accessions) "/data").
  - vm_compute. reflexivity.
  - apply (bool_decide_unpack _). vm_compute. exact I.
  - apply (bool_decide_unpack _). vm_compute. exact I.
Defined.

(** C4 as stated, with distinct URIs only, fails: with the URIs [a|b] and
    [c] the text after the last ["|"] of the first key is [b], no entry is
    found for it, and neither entry is linked to the other. *)
Lemma title_index_chain_bar_in_uri :
  NoDup (map accessionInfo.URI
           (accessions (tree_Walk bar_in_uri) (tree_ReadFile bar_in_uri) "/data"))
  /\ MakeAccessionTitleIndex (tree_Walk bar_in_uri) (tree_ReadFile bar_in_uri)
       "/data"
     = Returned (Some (<["a|b" := mkNavElementView "T1" "a|b" "" "" "" "" 0]>
                      (<["c" := mkNavElementView "T2" "c" "" "" "" "" 0]> ∅)))
                None
  /\ ~ chain_linked
         (by_key (accessions (tree_Walk bar_in_uri)
                    (tree_ReadFile bar_in_uri) "/data"))
         (<["a|b" := mkNavElementView "T1" "a|b" "" "" "" "" 0]>
         (<["c" := mkNavElementView "T2" "c" "" "" "" "" 0]> ∅)).
Proof.
  split; [|split].
  - apply (bool_decide_unpack _). vm_compute. exact I.
  - vm_compute. reflexivity.
  - intros (_ & Hadj & _).
    assert (H0 : by_key (accessions (tree_Walk bar_in_uri)
                           (tree_ReadFile bar_in_uri) "/data") !! 0
                 = Some (accessionInfo.mk "T1" "a|b" "accession"))
      by (vm_compute; reflexivity).
    assert (H1 : by_key (accessions (tree_Walk bar_in_uri)
                           (tree_ReadFile bar_in_uri) "/data") !! 1
                 = Some (accessionInfo.mk "T2" "c" "accession"))
      by (vm_compute; reflexivity).
    destruct (Hadj 0 _ _ H0 H1) as (na & nb & Ha & Hb & Hnext & _).
    cbn [accessionInfo.URI] in Ha, Hb.
    rewrite lookup_insert_eq in Ha.
    rewrite lookup_insert_ne, lookup_insert_eq in Hb by done.
    injection Ha as <-. injection Hb as <-. discriminate Hnext.
Qed.




(** C10. The URI is recovered from a composite key as the text after
    its last ["|"].  In every index that [MakeAccessionTitleIndex]
    returns when no accession URI contains ["|"], whatever the titles
    contain: the text extracted from the key of the record at position
    [j] of the sorted order is that record's URI, and the index has an
    entry under it that carries that URI; and the linking loop has linked
    that entry: its [PrevURI] is the URI of the record before it in the
    sorted order (empty for the first) and, unless the record is the
    last, its [NextURI] is the URI of the record after it.  The links
    are those of position [j] whenever no later position holds the same
    URI, which is so at every position when the URIs are distinct. *)
Theorem extractURI_finds_entry
    (Walk : string -> list string) (ReadFile : string -> error + document)
    (dname : string) (idx : gmap string NavElementView) :
  MakeAccessionTitleIndex Walk ReadFile dname = Returned (Some idx) None ->
  Forall (fun a => contains_bar (accessionInfo.URI a) = false)
         (accessions Walk ReadFile dname) ->
  forall j b,
    by_key (accessions Walk ReadFile dname) !! j = Some b ->
    extractURI (key_of b) = accessionInfo.URI b
    /\ exists nav,
         idx !! extractURI (key_of b) = Some nav
         /\ ThisURI nav = accessionInfo.URI b
         /\ (NoDup (map accessionInfo.URI (accessions Walk ReadFile dname))
             \/ last_of_its_URI (by_key (accessions Walk ReadFile dname)) j b ->
             PrevURI nav
             = URI_before (by_key (accessions Walk ReadFile dname)) j
             /\ (S j < length (by_key (accessions Walk ReadFile dname)) ->
                 NextURI nav
                 = URI_after (by_key (accessions Walk ReadFile dname)) j)).
Proof.
  intros H Hbar j b Hj.
  assert (Hb : b ∈ accessions Walk ReadFile dname).
  { rewrite <- by_key_Permutation. by eapply list_elem_of_lookup_2. }
  assert (HbarK : Forall (fun a => contains_bar (accessionInfo.URI a) = false)
                    (by_key (accessions Walk ReadFile dname)))
    by (by rewrite by_key_Permutation).
  rewrite (extractURI_key_of b)
    by (by apply (proj1 (Forall_forall _ _) Hbar)).
  split; [done|].
  apply MakeAccessionTitleIndex_Some in H as [_ ->].
  destruct (stored_is_Some (accessions Walk ReadFile dname) ∅
              (accessionInfo.URI b)) as [n Hn].
  { left. by exists b. }
  pose proof (link_from_this
    (map key_of (by_key (accessions Walk ReadFile dname)))
    (Z.of_nat (length (map key_of (by_key (accessions Walk ReadFile dname))))
     - 1)
    (map key_of (by_key (accessions Walk ReadFile dname))) 0
    (foldl (fun m a => <[accessionInfo.URI a := nav_of a]> m) ∅
       (accessions Walk ReadFile dname))
    (accessionInfo.URI b)) as Hthis.
  fold (link_titles (map key_of (by_key (accessions Walk ReadFile dname)))
          (foldl (fun m a => <[accessionInfo.URI a := nav_of a]> m) ∅
             (accessions Walk ReadFile dname))) in Hthis.
  rewrite Hn in Hthis.
  destruct (link_titles _ _ !! accessionInfo.URI b) as [nav|] eqn:Hnav;
    [|done].
  exists nav. split; [done|].
  injection Hthis as _ Hu.
  apply stored_lookup in Hn as [(a & _ & E & ->)|Hn];
    [|by rewrite lookup_empty in Hn].
  split; [by rewrite Hu|].
  intros Hlast.
  assert (Hl : last_of_its_URI (by_key (accessions Walk ReadFile dname)) j b).
  { destruct Hlast as [Hnd|Hl]; [|done].
    apply NoDup_last_of_its_URI; [|done]. by rewrite by_key_Permutation. }
  destruct (link_titles_any _ HbarK (accessions Walk ReadFile dname)
              (by_key_Permutation _) j b Hj Hl) as (nav' & Hnav' & _ & Hp & Hx).
  unfold stored_entries in Hnav'. rewrite Hnav in Hnav'.
  by injection Hnav' as <-.
Qed.

Lemma extractURI_finds_entry_witness :
  extractURI (key_of (accessionInfo.mk "Letters | 1940" "/u2" "accession"))
  = "/u2"
  /\ exists nav,
       bar_in_title_index
         !! extractURI
              (key_of (accessionInfo.mk "Letters | 1940" "/u2" "accession"))
       = Some nav
       /\ ThisURI nav = "/u2"
       /\ (NoDup (map accessionInfo.URI
                    (accessions (tree_Walk bar_in_title)
                       (tree_ReadFile bar_in_title) "/data"))
           \/ last_of_its_URI
                (by_key (accessions (tree_Walk bar_in_title)
                           (tree_ReadFile bar_in_title) "/data"))
                0 (accessionInfo.mk "Letters | 1940" "/u2" "accession") ->
           PrevURI nav
           = URI_before
               (by_key (accessions (tree_Walk bar_in_title)
                          (tree_ReadFile bar_in_title) "/data")) 0
           /\ (1 < length (by_key (accessions (tree_Walk bar_in_title)
                                     (tree_ReadFile bar_in_title) "/data")) ->
               NextURI nav
               = URI_after
                   (by_key (accessions (tree_Walk bar_in_title)
                              (tree_ReadFile bar_in_title) "/data")) 0)).
Proof.
  apply (extractURI_finds_entry (tree_Walk bar_in_title)
           (tree_ReadFile bar_in_title) "/data" bar_in_title_index).
  - vm_compute. reflexivity.
  - apply (bool_decide_unpack _). vm_compute. exact I.
  - vm_compute. reflexivity.
Defined.

(** C1 fails on the code.  A file whose JSON is well formed but does not
    fit the projection (here [title] is a number) makes [Unmarshal] return
    an error after it has filled the other fields; the callback logs the
    error and goes on, and the file gets an entry in the returned index
    and a composite sort key. *)
Theorem unparsable_file_is_indexed :
  decoded (tree_ReadFile title_is_number) "/data/bad.json"
  = Some (Some (accessionInfo.mk "" "/a/1" "accession"),
          Some "json: cannot unmarshal number into Go value of type string")
  /\ walk_tree (tree_Walk title_is_number) (tree_ReadFile title_is_number)
       "/data"
     = Some (mkWalkState
               (<["/a/1" := mkNavElementView "" "/a/1" "" "" "" "" 0]> ∅)
               ["|/a/1"])
  /\ MakeAccessionTitleIndex (tree_Walk title_is_number)
       (tree_ReadFile title_is_number) "/data"
     = Returned (Some (<["/a/1" := mkNavElementView "" "/a/1" "" "" "" "" 0]> ∅))
                None.
Proof. repeat split; vm_compute; reflexivity. Qed.

(** A file that is not well-formed JSON leaves the projection empty and
    is skipped. *)
Lemma malformed_file_skipped (ReadFile : string -> error + document)
    (p : string) (cause : error) :
  ReadFile p = inr (Malformed cause) ->
  crashes ReadFile p = false /\ accession_of ReadFile p = None.
Proof.
  intros H. unfold crashes, accession_of, decoded. rewrite H.
  by destruct (HasSuffix p ".json").
Qed.

(** ** Re-encoding a [digital_object] value *)

Lemma kv_store_fst (l : list (string * json)) (kv : gmap string string)
    (saved : option error) (k : string) :
  NoDup (map fst l) ->
  fst (foldl kv_store (kv, saved) l) !! k
  = match (list_to_map l : gmap string json) !! k with
    | Some (JString s) => Some s
    | Some _ => Some ""
    | None => kv !! k
    end.
Proof.
  revert kv saved. induction l as [|[k0 v0] l IH]; intros kv saved Hnd.
  - cbn [foldl list_to_map foldr fst]. by rewrite lookup_empty.
  - simpl in Hnd. apply NoDup_cons in Hnd as [Hk0 Hnd].
    assert (exists kv' saved',
              kv_store (kv, saved) (k0, v0) = (kv', saved')
              /\ kv' = <[k0 := match v0 with JString s => s | _ => "" end]> kv)
      as (kv' & saved' & Hstep & Hkv').
    { destruct v0; simpl; eauto. }
    cbn [foldl]. rewrite Hstep, (IH _ _ Hnd). cbn [list_to_map foldr].
    destruct (decide (k0 = k)) as [->|Hne].
    + rewrite lookup_insert_eq.
      rewrite (not_elem_of_list_to_map_1 l k) by done.
      rewrite Hkv', lookup_insert_eq. by destruct v0.
    + rewrite lookup_insert_ne by done.
      destruct (list_to_map l !! k) as [[]|]; try done.
      by rewrite Hkv', lookup_insert_ne.
Qed.

(** Marshalling a decoded value and reading it back as a
    [map[string]string] keeps the string members and turns every other
    member into the zero string. *)
Lemma Unmarshal_kv_Marshal (m : value) (k : string) :
  fst (Unmarshal_kv (Marshal m)) !! k
  = match m with
    | VObject members => string_or_zero <$> members !! k
    | _ => None
    end.
Proof.
  destruct m as [| | | | |members]; try done.
  cbn [Marshal Unmarshal_kv]. rewrite kv_store_fst.
  - rewrite list_to_map_to_list, lookup_fmap, lookup_empty.
    destruct (members !! k) as [[]|]; done.
  - apply NoDup_fst_map_to_list.
Qed.

Lemma DigitalObject_NormalizeView_foldl (fvs : list FileVersion.t)
    (result : NormalizedDigitalObjectView.t) :
  foldl
    (fun result fv =>
       if String.eqb (FileVersion.FileURI fv) "" then result
       else
         NormalizedDigitalObjectView.mk
           (NormalizedDigitalObjectView.URI result)
           (NormalizedDigitalObjectView.Title result)
           (NormalizedDigitalObjectView.Publish result)
           (NormalizedDigitalObjectView.FileURIs result
              ++ [FileVersion.FileURI fv])%list)
    result fvs
  = NormalizedDigitalObjectView.mk
      (NormalizedDigitalObjectView.URI result)
      (NormalizedDigitalObjectView.Title result)
      (NormalizedDigitalObjectView.Publish result)
      (NormalizedDigitalObjectView.FileURIs result
         ++ filter (fun u => u <> "") (map FileVersion.FileURI fvs))%list.
Proof.
  revert result. induction fvs as [|fv fvs IH]; intros result.
  - simpl. rewrite app_nil_r. by destruct result.
  - cbn [foldl map]. rewrite filter_cons.
    destruct (String.eqb_spec (FileVersion.FileURI fv) "") as [E|E].
    + rewrite decide_False by (by intros H; apply H). apply IH.
    + rewrite decide_True by done. rewrite IH. simpl.
      by rewrite <- app_assoc.
Qed.

Lemma DigitalObject_NormalizeView_eq (o : DigitalObject.t) :
  DigitalObject_NormalizeView o
  = NormalizedDigitalObjectView.mk (DigitalObject.URI o)
      (DigitalObject.Title o) (DigitalObject.Publish o) (nonempty_file_uris o).
Proof.
  unfold DigitalObject_NormalizeView.
  by rewrite DigitalObject_NormalizeView_foldl.
Qed.

(** ** [Accession.NormalizeView] *)

Lemma omap_bind {A B C} (f : A -> option B) (g : B -> option C) (l : list A) :
  omap (fun x => f x ≫= g) l = omap g (omap f l).
Proof.
  induction l as [|x l IH]; [done|].
  cbn [omap list_omap].
  destruct (f x) as [y|]; cbn [mbind option_bind omap list_omap];
    by rewrite IH.
Qed.

Lemma foldl_append_Extents (extents : list Extent.t)
    (v : NormalizedAccessionView.t) :
  foldl (fun v extent =>
           NormalizedAccessionView.append_Extents v
             (Extent.PhysicalDetails extent)) v extents
  = NormalizedAccessionView.set_Extents v
      (NormalizedAccessionView.Extents v
         ++ map Extent.PhysicalDetails extents)%list.
Proof.
  revert v. induction extents as [|e extents IH]; intros v; simpl.
  - rewrite app_nil_r. by destruct v.
  - rewrite IH. unfold NormalizedAccessionView.append_Extents,
      NormalizedAccessionView.set_Extents. simpl. by rewrite <- app_assoc.
Qed.

Section NormalizeFacts.
Variable Sprintf_s_other : value -> string.
Variable subjects : gmap string Subject.t.
Variable digitalObjects : gmap string DigitalObject.t.

Lemma add_instance_ref (v : NormalizedAccessionView.t)
    (item : gmap string value) :
  add_instance digitalObjects v item
  = match digital_object_ref item
          ≫= (fun r => DigitalObject_NormalizeView <$> digitalObjects !! r)
    with
    | Some d => NormalizedAccessionView.append_DigitalObjects v d
    | None => v
    end.
Proof.
  unfold add_instance, digital_object_ref.
  destruct (item !! "digital_object") as [m|]; [|done].
  rewrite Unmarshal_kv_Marshal.
  destruct m as [| | | | |members]; try done.
  destruct (members !! "ref") as [ref|]; [|done]. simpl.
  by destruct (digitalObjects !! string_or_zero ref).
Qed.

Lemma add_subject_ref (v : NormalizedAccessionView.t)
    (item : gmap string value) :
  add_subject Sprintf_s_other subjects v item
  = match subject_ref Sprintf_s_other item
          ≫= (fun r => Subject.Title <$> subjects !! r)
    with
    | Some title => NormalizedAccessionView.append_Subjects v title
    | None => v
    end.
Proof.
  unfold add_subject, subject_ref.
  destruct (item !! "ref") as [ref|]; [|done]. simpl.
  by destruct (subjects !! Sprintf_s Sprintf_s_other ref).
Qed.

Lemma foldl_add_instance (items : list (gmap string value))
    (v : NormalizedAccessionView.t) :
  foldl (add_instance digitalObjects) v items
  = NormalizedAccessionView.set_DigitalObjects v
      (NormalizedAccessionView.DigitalObjects v
         ++ omap (fun r => DigitalObject_NormalizeView <$> digitalObjects !! r)
                 (omap digital_object_ref items))%list.
Proof.
  rewrite <- omap_bind.
  revert v. induction items as [|item items IH]; intros v; simpl.
  - rewrite app_nil_r. by destruct v.
  - rewrite IH, add_instance_ref.
    destruct (digital_object_ref item ≫= _) as [d|]; [|done].
    unfold NormalizedAccessionView.append_DigitalObjects,
      NormalizedAccessionView.set_DigitalObjects. simpl.
    by rewrite <- app_assoc.
Qed.

Lemma foldl_add_subject (items : list (gmap string value))
    (v : NormalizedAccessionView.t) :
  foldl (add_subject Sprintf_s_other subjects) v items
  = NormalizedAccessionView.set_Subjects v
      (NormalizedAccessionView.Subjects v
         ++ omap (fun r => Subject.Title <$> subjects !! r)
                 (omap (subject_ref Sprintf_s_other) items))%list.
Proof.
  rewrite <- omap_bind.
  revert v. induction items as [|item items IH]; intros v; simpl.
  - rewrite app_nil_r. by destruct v.
  - rewrite IH, add_subject_ref.
    destruct (subject_ref Sprintf_s_other item ≫= _) as [d|]; [|done].
    unfold NormalizedAccessionView.append_Subjects,
      NormalizedAccessionView.set_Subjects. simpl.
    by rewrite <- app_assoc.
Qed.

(** The view in closed form: the scalar fields are copied, the extents
    mapped, and each reference that resolves contributes one entry, in
    source order. *)
Lemma Accession_NormalizeView_eq (a : Accession.t) :
  Accession_NormalizeView Sprintf_s_other a subjects digitalObjects
  = (Some
       (NormalizedAccessionView.mk
          (Accession.URI a) (Accession.Title a)
          (Accession.ContentDescription a) (Accession.ConditionDescription a)
          (omap (fun r => Subject.Title <$> subjects !! r)
                (subject_refs Sprintf_s_other a))
          (map Extent.PhysicalDetails (Accession.Extents a))
          [] []
          (omap (fun r => DigitalObject_NormalizeView <$> digitalObjects !! r)
                (digital_object_refs a))
          []
          (Accession.AccessionDate a) (Accession.CreatedBy a)
          (Accession.CreateTime a) (Accession.LastModifiedBy a)
          (Accession.UserMTime a)),
     None).
Proof.
  unfold Accession_NormalizeView.
  by rewrite foldl_append_Extents, foldl_add_instance, foldl_add_subject.
Qed.
End NormalizeFacts.

Lemma omap_cons {A B} (f : A -> option B) (x : A) (l : list A) :
  omap f (x :: l)
  = match f x with
    | Some y => y :: omap f l
    | None => omap f l
    end.
Proof. reflexivity. Qed.

Lemma omap_resolved {A B} (m : gmap string A) (f : A -> B) (refs : list string) :
  Forall (fun r => is_Some (m !! r)) refs ->
  Forall2 (fun r y => exists x, m !! r = Some x /\ y = f x)
          refs (omap (fun r => f <$> m !! r) refs).
Proof.
  induction 1 as [|r refs [x Hx] H IH]; [constructor|].
  rewrite omap_cons, Hx. constructor; eauto.
Qed.



(** ** Views over maps that hold pointers *)

Lemma records_lookup {T : Type} (m : gmap string (option T)) (k : string) :
  records m !! k = m !! k ≫= id.
Proof. unfold records. apply lookup_omap. Qed.

Lemma nil_entry_dec {T : Type} (m : gmap string (option T)) (r : string) :
  {m !! r <> Some None} + {m !! r = Some None}.
Proof. destruct (m !! r) as [[x|]|]; [left | right | left]; done. Qed.

Section NilableFacts.
Variable Sprintf_s_other : value -> string.
Variable subjects : gmap string (option Subject.t).
Variable digitalObjects : gmap string (option DigitalObject.t).

Lemma Nilable_add_instance_ref (v : NormalizedAccessionView.t)
    (item : gmap string value) :
  Nilable.add_instance digitalObjects v item
  = match digital_object_ref item with
    | Some r =>
        match digitalObjects !! r with
        | Some (Some obj) =>
            Some (NormalizedAccessionView.append_DigitalObjects v
                    (DigitalObject_NormalizeView obj))
        | Some None => None
        | None => Some v
        end
    | None => Some v
    end.
Proof.
  unfold Nilable.add_instance, digital_object_ref.
  destruct (item !! "digital_object") as [m|]; [|done].
  rewrite Unmarshal_kv_Marshal.
  destruct m as [| | | | |members]; try done;
    by destruct (members !! "ref") as [ref|].
Qed.

(** Without a nil pointer under a referenced URI, the loop over the
    instances is the loop over the records that are not nil. *)
Lemma Nilable_add_instances_records (items : list (gmap string value))
    (v : NormalizedAccessionView.t) :
  Forall (fun r => digitalObjects !! r <> Some None)
         (omap digital_object_ref items) ->
  Nilable.add_instances digitalObjects v items
  = Some (foldl (add_instance (records digitalObjects)) v items).
Proof.
  revert v. induction items as [|item items IH]; intros v H; [done|].
  cbn [Nilable.add_instances foldl].
  rewrite Nilable_add_instance_ref, add_instance_ref.
  rewrite omap_cons in H.
  destruct (digital_object_ref item) as [r|]; [|by apply IH].
  apply Forall_cons in H as [Hr H]. cbn. rewrite records_lookup.
  destruct (digitalObjects !! r) as [[obj|]|]; [| done |]; by apply IH.
Qed.

Lemma Nilable_add_instances_nil (items : list (gmap string value))
    (v : NormalizedAccessionView.t) :
  Exists (fun r => digitalObjects !! r = Some None)
         (omap digital_object_ref items) ->
  Nilable.add_instances digitalObjects v items = None.
Proof.
  revert v. induction items as [|item items IH]; intros v H;
    [by apply Exists_nil in H|].
  cbn [Nilable.add_instances]. rewrite Nilable_add_instance_ref.
  rewrite omap_cons in H.
  destruct (digital_object_ref item) as [r|]; [|by apply IH].
  apply Exists_cons in H as [Hr|H]; [by rewrite Hr|].
  destruct (digitalObjects !! r) as [[obj|]|]; [| done |]; by apply IH.
Qed.

Lemma Nilable_add_subject_records (v : NormalizedAccessionView.t)
    (item : gmap string value) :
  Nilable.add_subject Sprintf_s_other subjects v item
  = add_subject Sprintf_s_other (records subjects) v item.
Proof.
  unfold Nilable.add_subject, add_subject.
  destruct (item !! "ref") as [ref|]; [|done].
  rewrite records_lookup.
  by destruct (subjects !! Sprintf_s Sprintf_s_other ref) as [[rec|]|].
Qed.

Lemma Nilable_add_subjects_records (items : list (gmap string value))
    (v : NormalizedAccessionView.t) :
  foldl (Nilable.add_subject Sprintf_s_other subjects) v items
  = foldl (add_subject Sprintf_s_other (records subjects)) v items.
Proof.
  revert v. induction items as [|item items IH]; intros v; [done|].
  cbn [foldl]. by rewrite Nilable_add_subject_records, IH.
Qed.

Lemma Nilable_NormalizeView_records (a : Accession.t) :
  Forall (fun r => digitalObjects !! r <> Some None)
         (digital_object_refs a) ->
  Nilable.Accession_NormalizeView Sprintf_s_other a subjects digitalObjects
  = Returned
      (fst (Accession_NormalizeView Sprintf_s_other a (records subjects)
              (records digitalObjects))) None.
Proof.
  intros H. unfold Nilable.Accession_NormalizeView, Accession_NormalizeView.
  rewrite Nilable_add_instances_records by done.
  by rewrite Nilable_add_subjects_records.
Qed.

Lemma Nilable_NormalizeView_nil (a : Accession.t) :
  Exists (fun r => digitalObjects !! r = Some None)
         (digital_object_refs a) ->
  Nilable.Accession_NormalizeView Sprintf_s_other a subjects digitalObjects
  = Panicked.
Proof.
  intros H. unfold Nilable.Accession_NormalizeView.
  by rewrite Nilable_add_instances_nil.
Qed.
End NilableFacts.

(** C5. When every [digital_object] reference of [Instances] and every
    reference of [Subjects] resolves in the supplied maps,
    [Accession.NormalizeView] returns a view whose subject list holds the
    title of each referenced subject and whose digital-object list holds
    the normalised view of each referenced digital object, one entry per
    reference and in the order of the references; and the [FileURIs] of
    such a view are the file-version URIs of the object that are not
    empty, in source order. *)
Theorem NormalizeView_resolved_references
    (Sprintf_s_other : value -> string) (a : Accession.t)
    (subjects : gmap string Subject.t)
    (digitalObjects : gmap string DigitalObject.t) :
  Forall (fun r => is_Some (subjects !! r)) (subject_refs Sprintf_s_other a) ->
  Forall (fun r => is_Some (digitalObjects !! r)) (digital_object_refs a) ->
  exists v,
    Accession_NormalizeView Sprintf_s_other a subjects digitalObjects
    = (Some v, None)
    /\ Forall2
         (fun r title =>
            exists rec, subjects !! r = Some rec /\ title = Subject.Title rec)
         (subject_refs Sprintf_s_other a)
         (NormalizedAccessionView.Subjects v)
    /\ Forall2
         (fun r d =>
            exists obj,
              digitalObjects !! r = Some obj
              /\ d = DigitalObject_NormalizeView obj
              /\ NormalizedDigitalObjectView.URI d = DigitalObject.URI obj
              /\ NormalizedDigitalObjectView.Title d = DigitalObject.Title obj
              /\ NormalizedDigitalObjectView.Publish d
                 = DigitalObject.Publish obj
              /\ NormalizedDigitalObjectView.FileURIs d
                 = filter (fun u => u <> "")
                     (map FileVersion.FileURI (DigitalObject.FileVersions obj)))
         (digital_object_refs a)
         (NormalizedAccessionView.DigitalObjects v).
Proof.
  intros Hs Hd. eexists. split; [apply Accession_NormalizeView_eq|].
  cbn [NormalizedAccessionView.Subjects NormalizedAccessionView.DigitalObjects].
  split; [by apply omap_resolved|].
  eapply Forall2_impl; [by apply omap_resolved|].
  intros r d (obj & Hobj & ->). exists obj.
  rewrite DigitalObject_NormalizeView_eq. done.
Qed.

Lemma NormalizeView_resolved_references_witness :
  exists v,
    Accession_NormalizeView example_Sprintf_s_other accession_with_two_subjects
      example_subjects example_digital_objects = (Some v, None)
    /\ NormalizedAccessionView.Subjects v = ["Physics"; "Astronomy"]
    /\ NormalizedAccessionView.DigitalObjects v
       = [NormalizedDigitalObjectView.mk "/digital_objects/7" "Notebook" true
            ["http://example.org/a.pdf"; "http://example.org/b.pdf"]].
Proof.
  destruct (NormalizeView_resolved_references example_Sprintf_s_other
              accession_with_two_subjects example_subjects
              example_digital_objects) as (v & Hv & _).
  - apply (bool_decide_unpack _). vm_compute. exact I.
  - apply (bool_decide_unpack _). vm_compute. exact I.
  - exists v. split; [exact Hv|].
    rewrite Accession_NormalizeView_eq in Hv. injection Hv as <-.
    split; vm_compute; reflexivity.
Defined.




(** C9, as the code has it.  [Accession.NormalizeView] never returns
    an error: whenever it returns, the error is nil and a view comes with
    it.  It returns for every accession and every pair of maps, empty
    ones included, in which no digital object that an instance refers to
    is stored as a nil pointer; the view is then the one that the
    records of the two maps that are not nil give.  When such an object
    is stored as a nil pointer, the call panics. *)
Theorem NormalizeView_never_fails
    (Sprintf_s_other : value -> string) (a : Accession.t)
    (subjects : gmap string (option Subject.t))
    (digitalObjects : gmap string (option DigitalObject.t)) :
  (forall result err,
     Nilable.Accession_NormalizeView Sprintf_s_other a subjects digitalObjects
     = Returned result err ->
     err = None /\ is_Some result)
  /\ (Forall (fun r => digitalObjects !! r <> Some None)
             (digital_object_refs a) ->
      exists v,
        Nilable.Accession_NormalizeView Sprintf_s_other a subjects
          digitalObjects
        = Returned (Some v) None
        /\ Accession_NormalizeView Sprintf_s_other a (records subjects)
             (records digitalObjects)
           = (Some v, None))
  /\ (Exists (fun r => digitalObjects !! r = Some None)
             (digital_object_refs a) ->
      Nilable.Accession_NormalizeView Sprintf_s_other a subjects
        digitalObjects
      = Panicked)
  /\ (exists v,
        Nilable.Accession_NormalizeView Sprintf_s_other a ∅ ∅
        = Returned (Some v) None).
Proof.
  assert (Hok : forall (s : gmap string (option Subject.t))
                  (d : gmap string (option DigitalObject.t)),
            Forall (fun r => d !! r <> Some None) (digital_object_refs a) ->
            exists v,
              Nilable.Accession_NormalizeView Sprintf_s_other a s d
              = Returned (Some v) None
              /\ Accession_NormalizeView Sprintf_s_other a (records s)
                   (records d)
                 = (Some v, None)).
  { intros s d H. rewrite (Nilable_NormalizeView_records _ _ _ _ H).
    rewrite Accession_NormalizeView_eq. by eexists. }
  split; [|split; [apply Hok|split]].
  - intros result err.
    destruct (Forall_Exists_dec
                (fun r => digitalObjects !! r <> Some None)
                (fun r => digitalObjects !! r = Some None)
                (nil_entry_dec digitalObjects)
                (digital_object_refs a)) as [H|H].
    + destruct (Hok subjects digitalObjects H) as (v & -> & _).
      intros [= <- <-]. by split.
    + by rewrite (Nilable_NormalizeView_nil _ _ _ _ H).
  - apply Nilable_NormalizeView_nil.
  - destruct (Hok ∅ ∅) as (v & Hv & _); [|by exists v].
    apply Forall_forall. intros r _. by rewrite lookup_empty.
Qed.

Lemma NormalizeView_never_fails_witness :
  exists v,
    Nilable.Accession_NormalizeView example_Sprintf_s_other
      accession_with_two_subjects
      (<["/subjects/2" := None]> (Some <$> example_subjects))
      (<["/digital_objects/8" := None]> (Some <$> example_digital_objects))
    = Returned (Some v) None
    /\ Accession_NormalizeView example_Sprintf_s_other
         accession_with_two_subjects
         (records (<["/subjects/2" := None]> (Some <$> example_subjects)))
         (records (<["/digital_objects/8" := None]>
                     (Some <$> example_digital_objects)))
       = (Some v, None).
Proof.
  apply (NormalizeView_never_fails example_Sprintf_s_other
           accession_with_two_subjects).
  assert (digital_object_refs accession_with_two_subjects
          = ["/digital_objects/7"]) as ->
    by (vm_compute; reflexivity).
  repeat constructor. vm_compute. discriminate.
Defined.

(** C9 as stated fails: with a digital-object map that stores the object
    an instance refers to as a nil pointer, the key is found,
    [obj.NormalizeView()] reads [o.URI] through the nil pointer, and no
    view is returned. *)
Lemma NormalizeView_nil_digital_object :
  digital_object_refs accession_with_two_subjects = ["/digital_objects/7"]
  /\ digital_objects_with_nil !! "/digital_objects/7" = Some None
  /\ Nilable.Accession_NormalizeView example_Sprintf_s_other
       accession_with_two_subjects (Some <$> example_subjects)
       digital_objects_with_nil
     = Panicked.
Proof. repeat split; vm_compute; reflexivity. Qed.

(** ** The loaders *)

Section LoaderFacts.
Variable ReadDir : string -> error + list string.
Variable ReadFile : string -> error + document.
Variable path_Join : string -> string -> string.
Variable Unmarshal_Subject : document -> option Subject.t * option error.
Variable Unmarshal_DigitalObject
  : document -> option DigitalObject.t * option error.









End LoaderFacts.




(** A file that holds the JSON literal [null] decodes to a nil pointer
    without an error; the map loaders then dereference it. *)
Lemma MakeSubjectMap_null_panics
    (ReadDir : string -> error + list string)
    (ReadFile : string -> error + document)
    (path_Join : string -> string -> string)
    (Unmarshal_Subject : document -> option Subject.t * option error)
    (dname finfo : string) (after : list string) (src : document) :
  ReadDir dname = inr (finfo :: after) ->
  ReadFile (path_Join dname finfo) = inr src ->
  Unmarshal_Subject src = (None, None) ->
  MakeSubjectMap ReadDir ReadFile path_Join Unmarshal_Subject dname = Panicked.
Proof.
  intros Hd Hr Hu. unfold MakeSubjectMap. rewrite Hd.
  cbn [MakeSubjectMap_range]. by rewrite Hr, Hu.
Qed.

(* ================================================================== *)
(** * Further properties *)
(* ================================================================== *)

(** ** [extractURI] in general *)

Lemma split_at_last_bar (s : string) :
  contains_bar s = true ->
  exists t u, s = t +:+ String "|" u /\ contains_bar u = false.
Proof.
  induction s as [|c s IH]; [done|]. unfold contains_bar in *.
  change (Ascii.eqb "|" c || in_cutset "|" s = true -> 
          exists t u, String c s = t +:+ String "|" u
                      /\ in_cutset "|" u = false).
  destruct (in_cutset "|" s) eqn:Hs.
  - intros _. destruct (IH eq_refl) as (t & u & -> & Hu).
    exists (String c t), u. by rewrite append_cons.
  - rewrite orb_false_r. intros Hc. apply Ascii.eqb_eq in Hc as <-.
    by exists "", s.
Qed.

Lemma extractURI_no_bar (s : string) :
  contains_bar s = false -> extractURI s = s.
Proof.
  intros Hs. unfold extractURI, LastIndex.
  rewrite last_index_from_no_bar by done. by destruct s.
Qed.

(** X1. The text [extractURI] returns is the end of its argument, holds no
    ["|"], and is the whole argument when that holds none; and what is
    extracted from a composite key is what is extracted from its URI. *)
Theorem extractURI_is_last_segment (s title uri : string) :
  contains_bar (extractURI s) = false
  /\ (exists before, s = before +:+ extractURI s)
  /\ (contains_bar s = false -> extractURI s = s)
  /\ extractURI (sort_key title uri) = extractURI uri.
Proof.
  assert (Hcases : forall x,
            (contains_bar x = false /\ extractURI x = x)
            \/ (exists t u, x = sort_key t u /\ contains_bar u = false
                            /\ extractURI x = u)).
  { intros x. destruct (contains_bar x) eqn:Hx.
    - right. destruct (split_at_last_bar x Hx) as (t & u & -> & Hu).
      exists t, u. split; [done|]. split; [done|].
      by apply (extractURI_sort_key t u).
    - left. split; [done|]. by apply extractURI_no_bar. }
  split; [|split; [|split]].
  - destruct (Hcases s) as [[Hs ->]|(t & u & _ & Hu & ->)]; done.
  - destruct (Hcases s) as [[Hs ->]|(t & u & -> & Hu & ->)].
    + by exists "".
    + exists (t +:+ "|"). unfold sort_key. by rewrite append_assoc.
  - apply extractURI_no_bar.
  - destruct (Hcases uri) as [[Hu ->]|(t & u & -> & Hu & ->)].
    + by apply extractURI_sort_key.
    + transitivity (extractURI (sort_key (title +:+ "|" +:+ t) u)).
      * f_equal. unfold sort_key. by rewrite !append_assoc.
      * by apply extractURI_sort_key.
Qed.

Lemma extractURI_is_last_segment_witness :
  contains_bar (extractURI "Letters | 1940|/u2") = false
  /\ (exists before, "Letters | 1940|/u2" = before +:+ extractURI "Letters | 1940|/u2")
  /\ (contains_bar "/u2" = false -> extractURI "/u2" = "/u2")
  /\ extractURI (sort_key "T1" "a|b") = extractURI "a|b".
Proof.
  destruct (extractURI_is_last_segment "Letters | 1940|/u2" "T1" "a|b")
    as (H1 & H2 & _ & H4).
  destruct (extractURI_is_last_segment "/u2" "T1" "a|b") as (_ & _ & H3 & _).
  exact (conj H1 (conj H2 (conj H3 H4))).
Defined.

(** ** The outcomes of [MakeAccessionTitleIndex] *)

Lemma stored_last (accs : list accessionInfo.t)
    (m : gmap string NavElementView) (k : string) :
  foldl (fun m a => <[accessionInfo.URI a := nav_of a]> m) m accs !! k
  = match last_with_URI accs k with
    | Some a => Some (nav_of a)
    | None => m !! k
    end.
Proof.
  unfold last_with_URI. revert m.
  induction accs as [|a accs IH]; intros m; [done|].
  cbn [foldl]. rewrite IH, filter_cons.
  destruct (decide (accessionInfo.URI a = k)) as [E|E].
  - rewrite last_cons.
    destruct (last (filter _ accs)); [done|].
    by rewrite E, lookup_insert_eq.
  - destruct (last (filter _ accs)); [done|].
    by rewrite lookup_insert_ne.
Qed.

Lemma last_with_URI_Some (accs : list accessionInfo.t) (k : string) :
  is_Some (last_with_URI accs k) <-> k ∈ map accessionInfo.URI accs.
Proof.
  unfold last_with_URI. rewrite list_elem_of_fmap. split.
  - intros [a Ha]. apply last_Some_elem_of in Ha.
    apply list_elem_of_filter in Ha as [E Ha]. eauto.
  - intros (a & -> & Ha).
    assert (a ∈ filter (fun b => accessionInfo.URI b = accessionInfo.URI a) accs)
      as Hf by (by apply list_elem_of_filter).
    destruct (filter _ accs) as [|b l] eqn:El using rev_ind.
    + by apply elem_of_nil in Hf.
    + rewrite last_snoc. eauto.
Qed.

Section Outcomes.
Variable Walk : string -> list string.
Variable ReadFile : string -> error + document.

Lemma MakeAccessionTitleIndex_found (dname : string) :
Forall (fun p => crashes ReadFile p = false) (Walk dname) ->
accessions Walk ReadFile dname <> [] ->
MakeAccessionTitleIndex Walk ReadFile dname
= Returned
    (Some (link_titles (map key_of (by_key (accessions Walk ReadFile dname)))
             (foldl (fun m a => <[accessionInfo.URI a := nav_of a]> m) ∅
                (accessions Walk ReadFile dname))))
    None.
Proof.
intros Hok Hne. unfold MakeAccessionTitleIndex, walk_tree.
rewrite (walk_from_Some _ _ _ Hok).
fold (accessions Walk ReadFile dname).
rewrite titlesWithURI_foldl, titleIndex_foldl. cbn [titlesWithURI titleIndex].
rewrite app_nil_l.
assert ((length (map key_of (accessions Walk ReadFile dname)) =? 0)%nat
        = false) as ->.
{ apply Nat.eqb_neq. rewrite length_map.
  by destruct (accessions Walk ReadFile dname). }
destruct (size _ =? 0)%nat eqn:Hsize.
- apply Nat.eqb_eq in Hsize. by apply stored_size in Hsize.
- by rewrite <- by_key_keys.
Qed.

Lemma index_lookup (dname : string) (idx : gmap string NavElementView)
  (k : string) :
MakeAccessionTitleIndex Walk ReadFile dname = Returned (Some idx) None ->
this_of <$> idx !! k
= (fun a => (accessionInfo.Title a, accessionInfo.URI a))
    <$> last_with_URI (accessions Walk ReadFile dname) k.
Proof.
intros H. apply MakeAccessionTitleIndex_Some in H as [_ ->].
unfold link_titles. rewrite link_from_this, stored_last, lookup_empty.
by destruct (last_with_URI _ k).
Qed.
End Outcomes.

(** X2. [MakeAccessionTitleIndex] ends in one of three ways: it panics when
    the walk meets a file that holds [null]; it returns the error
    [No titles found] when the walk ends without an accession; otherwise
    it returns an index that is not empty, with a nil error.  The second
    error of the source, [title index empty], is never returned. *)
Theorem MakeAccessionTitleIndex_outcomes
    (Walk : string -> list string) (ReadFile : string -> error + document)
    (dname : string) :
  (Exists (fun p => crashes ReadFile p = true) (Walk dname) ->
   MakeAccessionTitleIndex Walk ReadFile dname = Panicked)
  /\ (Forall (fun p => crashes ReadFile p = false) (Walk dname) ->
      accessions Walk ReadFile dname = [] ->
      MakeAccessionTitleIndex Walk ReadFile dname
      = Returned None (Some "No titles found"))
  /\ (Forall (fun p => crashes ReadFile p = false) (Walk dname) ->
      accessions Walk ReadFile dname <> [] ->
      exists idx,
        MakeAccessionTitleIndex Walk ReadFile dname = Returned (Some idx) None
        /\ idx <> ∅)
  /\ (forall result,
        MakeAccessionTitleIndex Walk ReadFile dname
        <> Returned result (Some "title index empty")).
Proof.
  split; [|split; [|split]].
  - intros H. unfold MakeAccessionTitleIndex, walk_tree.
    by rewrite walk_from_None.
  - apply MakeAccessionTitleIndex_empty.
  - intros Hok Hne. eexists. split; [by apply MakeAccessionTitleIndex_found|].
    destruct (accessions Walk ReadFile dname) as [|a accs] eqn:E; [done|].
    intros Hempty.
    pose proof (link_from_this
      (map key_of (by_key (a :: accs)))
      (Z.of_nat (length (map key_of (by_key (a :: accs)))) - 1)
      (map key_of (by_key (a :: accs))) 0
      (foldl (fun m b => <[accessionInfo.URI b := nav_of b]> m) ∅ (a :: accs))
      (accessionInfo.URI a)) as Hthis.
    fold (link_titles (map key_of (by_key (a :: accs)))
            (foldl (fun m b => <[accessionInfo.URI b := nav_of b]> m) ∅
               (a :: accs))) in Hthis.
    rewrite Hempty, lookup_empty in Hthis.
    destruct (stored_is_Some (a :: accs) ∅ (accessionInfo.URI a)) as [n Hn].
    { left. exists a. split; [by left | done]. }
    by rewrite Hn in Hthis.
  - intros result H. unfold MakeAccessionTitleIndex in H.
    destruct (walk_tree Walk ReadFile dname) as [st|] eqn:Hw; [|done].
    destruct (walk_tree_Some _ _ _ _ Hw) as [Ht Hi].
    destruct (length (titlesWithURI st) =? 0)%nat eqn:Hlen; [done|].
    destruct (size (titleIndex st) =? 0)%nat eqn:Hsize; [|done].
    apply Nat.eqb_eq in Hsize. rewrite Hi in Hsize.
    apply stored_size in Hsize; [done|].
    intros E. by rewrite Ht, E in Hlen.
Qed.

Lemma MakeAccessionTitleIndex_outcomes_witness :
  MakeAccessionTitleIndex (tree_Walk null_file) (tree_ReadFile null_file)
    "/data" = Panicked
  /\ MakeAccessionTitleIndex (tree_Walk no_accession)
       (tree_ReadFile no_accession) "/data"
     = Returned None (Some "No titles found")
  /\ exists idx,
       MakeAccessionTitleIndex (tree_Walk mixed_records)
         (tree_ReadFile mixed_records) "/data" = Returned (Some idx) None
       /\ idx <> ∅.
Proof.
  split; [|split].
  - apply (MakeAccessionTitleIndex_outcomes (tree_Walk null_file)
             (tree_ReadFile null_file) "/data").
    apply (bool_decide_unpack _). vm_compute. exact I.
  - apply (MakeAccessionTitleIndex_outcomes (tree_Walk no_accession)
             (tree_ReadFile no_accession) "/data").
    + apply (bool_decide_unpack _). vm_compute. exact I.
    + vm_compute. reflexivity.
  - apply (MakeAccessionTitleIndex_outcomes (tree_Walk mixed_records)
             (tree_ReadFile mixed_records) "/data").
    + apply (bool_decide_unpack _). vm_compute. exact I.
    + vm_compute. discriminate.
Defined.

Lemma size_list_to_set_le (l : list string) :
  size (list_to_set l : gset string) <= length l.
Proof.
  induction l as [|x l IH]; [cbn [list_to_set]; by rewrite size_empty|].
  cbn [list_to_set length]. rewrite size_union_alt, size_singleton.
  assert (size (list_to_set l ∖ {[x]} : gset string)
          <= size (list_to_set l : gset string))
    by (apply subseteq_size; intros y Hy;
        by apply elem_of_difference in Hy as [? _]).
  lia.
Qed.

Lemma index_dom
    (Walk : string -> list string) (ReadFile : string -> error + document)
    (dname : string) (idx : gmap string NavElementView) :
  MakeAccessionTitleIndex Walk ReadFile dname = Returned (Some idx) None ->
  dom idx
  = list_to_set (map accessionInfo.URI (accessions Walk ReadFile dname)).
Proof.
  intros H. apply set_eq. intros k.
  rewrite elem_of_dom, elem_of_list_to_set, <- last_with_URI_Some.
  rewrite <- (fmap_is_Some this_of), (index_lookup _ _ _ _ _ H).
  by rewrite fmap_is_Some.
Qed.

(** X3. The keys of a returned index are the URIs of the accessions found,
    and the entry of a URI carries the title of the accession walked last
    among those with that URI: of two files with the same URI the later
    one replaces the earlier.  So the index has at most one entry per
    accession. *)
Theorem index_keeps_last_title
    (Walk : string -> list string) (ReadFile : string -> error + document)
    (dname : string) (idx : gmap string NavElementView) :
  MakeAccessionTitleIndex Walk ReadFile dname = Returned (Some idx) None ->
  (forall k,
      this_of <$> idx !! k
      = (fun a => (accessionInfo.Title a, accessionInfo.URI a))
          <$> last_with_URI (accessions Walk ReadFile dname) k)
  /\ dom idx
     = list_to_set (map accessionInfo.URI (accessions Walk ReadFile dname))
  /\ size idx <= length (accessions Walk ReadFile dname).
Proof.
  intros H. pose proof (index_dom _ _ _ _ H) as Hdom.
  split; [intros k; by apply index_lookup|]. split; [done|].
  rewrite <- size_dom, Hdom, <- (length_map accessionInfo.URI).
  apply size_list_to_set_le.
Qed.

Lemma index_keeps_last_title_witness :
  (forall k,
      this_of <$> shared_uri_index !! k
      = (fun a => (accessionInfo.Title a, accessionInfo.URI a))
          <$> last_with_URI (accessions (tree_Walk shared_uri)
                               (tree_ReadFile shared_uri) "/data") k)
  /\ last_with_URI (accessions (tree_Walk shared_uri)
                      (tree_ReadFile shared_uri) "/data") "/u1"
     = Some (accessionInfo.mk "Second" "/u1" "accession").
Proof.
  split.
  - apply (index_keeps_last_title (tree_Walk shared_uri)
             (tree_ReadFile shared_uri) "/data").
    vm_compute. reflexivity.
  - vm_compute. reflexivity.
Defined.

(** ** What the index depends on *)

(** X4. When the accession URIs are distinct, the outcome does not depend on
    the order in which the walk hands the paths to the callback. *)
Theorem index_independent_of_walk_order
    (Walk Walk' : string -> list string)
    (ReadFile : string -> error + document) (dname : string) :
  Walk' dname ≡ₚ Walk dname ->
  NoDup (map accessionInfo.URI (accessions Walk ReadFile dname)) ->
  MakeAccessionTitleIndex Walk' ReadFile dname
  = MakeAccessionTitleIndex Walk ReadFile dname.
Proof.
  intros Hp Hnd.
  assert (Haccs : accessions Walk' ReadFile dname
                  ≡ₚ accessions Walk ReadFile dname)
    by (unfold accessions; by rewrite Hp).
  destruct (Forall_Exists_dec (fun p => crashes ReadFile p = false)
              (fun p => crashes ReadFile p = true)
              (fun p => match crashes ReadFile p as b
                          return {b = false} + {b = true} with
                        | true => right eq_refl
                        | false => left eq_refl
                        end) (Walk dname)) as [Hok|Hcrash].
  - assert (Hok' : Forall (fun p => crashes ReadFile p = false) (Walk' dname))
      by (by rewrite Hp).
    destruct (accessions Walk ReadFile dname) as [|a accs] eqn:E.
    + apply Permutation_nil_r in Haccs.
      rewrite !MakeAccessionTitleIndex_empty; done.
    + rewrite !MakeAccessionTitleIndex_found; try done.
      * rewrite !by_key_keys, E.
        rewrite (stored_Permutation _ _ Haccs Hnd).
        do 3 f_equal. apply sort_Strings_unique.
        -- by rewrite sort_Strings_Permutation, Haccs.
        -- apply sort_Strings_sorted.
      * by rewrite E.
      * intros E'. rewrite E' in Haccs. by apply Permutation_nil_l in Haccs.
  - unfold MakeAccessionTitleIndex, walk_tree.
    rewrite (walk_from_None _ _ _ Hcrash).
    rewrite walk_from_None; [done | by rewrite Hp].
Qed.

Lemma index_independent_of_walk_order_witness :
  MakeAccessionTitleIndex (tree_Walk three_accessions_reordered)
    (tree_ReadFile three_accessions) "/data"
  = MakeAccessionTitleIndex (tree_Walk three_accessions)
      (tree_ReadFile three_accessions) "/data".
Proof.
  apply index_independent_of_walk_order.
  - apply (bool_decide_unpack _). vm_compute. exact I.
  - apply (bool_decide_unpack _). vm_compute. exact I.
Defined.

(** X5. Only paths that end in [.json] are read: what the other paths hold
    has no influence on the outcome. *)
Theorem MakeAccessionTitleIndex_reads_json_only
    (Walk : string -> list string)
    (ReadFile ReadFile' : string -> error + document) (dname : string) :
  (forall p, HasSuffix p ".json" = true -> ReadFile' p = ReadFile p) ->
  MakeAccessionTitleIndex Walk ReadFile' dname
  = MakeAccessionTitleIndex Walk ReadFile dname.
Proof.
  intros H. unfold MakeAccessionTitleIndex, walk_tree.
  assert (Hwalk : forall paths st,
            walk_from ReadFile' st paths = walk_from ReadFile st paths).
  { induction paths as [|p paths IH]; intros st; [done|].
    cbn [walk_from].
    assert (visit ReadFile' st p = visit ReadFile st p) as ->.
    { unfold visit. destruct (HasSuffix p ".json") eqn:Hp; [|done].
      by rewrite (H p Hp). }
    destruct (visit ReadFile st p); [apply IH | done]. }
  by rewrite Hwalk.
Qed.

Lemma MakeAccessionTitleIndex_reads_json_only_witness :
  MakeAccessionTitleIndex (tree_Walk no_accession)
    (tree_ReadFile (("/data/notes.txt", inl "gone") :: no_accession)) "/data"
  = MakeAccessionTitleIndex (tree_Walk no_accession)
      (tree_ReadFile no_accession) "/data".
Proof.
  apply MakeAccessionTitleIndex_reads_json_only.
  intros p Hp. cbn [tree_ReadFile].
  destruct (String.eqb_spec p "/data/notes.txt") as [->|_]; [|done].
  vm_compute in Hp. discriminate Hp.
Defined.

(** X6. A walk that finds one accession gives an index with that one entry
    and no links, whatever its title and URI are. *)
Theorem single_accession_index
    (Walk : string -> list string) (ReadFile : string -> error + document)
    (dname : string) (a : accessionInfo.t) :
  Forall (fun p => crashes ReadFile p = false) (Walk dname) ->
  accessions Walk ReadFile dname = [a] ->
  MakeAccessionTitleIndex Walk ReadFile dname
  = Returned (Some {[ accessionInfo.URI a := nav_of a ]}) None.
Proof.
  intros Hok Ha. rewrite MakeAccessionTitleIndex_found by (by rewrite ?Ha).
  rewrite Ha. do 2 f_equal.
  change (by_key [a]) with [a]. cbn [map foldl].
  unfold link_titles. cbn [length link_from]. unfold link_one.
  rewrite insert_empty.
  destruct ({[accessionInfo.URI a := nav_of a]} !! extractURI (key_of a));
    done.
Qed.

Lemma single_accession_index_witness :
  MakeAccessionTitleIndex (tree_Walk mixed_records)
    (tree_ReadFile mixed_records) "/data"
  = Returned (Some {[ "/u1" := nav_of (accessionInfo.mk "A" "/u1" "accession") ]})
             None.
Proof.
  apply (single_accession_index (tree_Walk mixed_records)
           (tree_ReadFile mixed_records) "/data"
           (accessionInfo.mk "A" "/u1" "accession")).
  - apply (bool_decide_unpack _). vm_compute. exact I.
  - vm_compute. reflexivity.
Defined.

(** X7. With distinct accession URIs that hold no ["|"], the index has
    exactly one entry per accession, and the entry of the accession at
    position [j] of the sorted order carries its own title and URI, the
    title and URI of the accession before it as [PrevLabel] and [PrevURI]
    (empty for the first), those of the accession after it as [NextLabel]
    and [NextURI] (empty for the last), and weight 0. *)
Theorem index_entries_in_full
    (Walk : string -> list string) (ReadFile : string -> error + document)
    (dname : string) (idx : gmap string NavElementView) :
  MakeAccessionTitleIndex Walk ReadFile dname = Returned (Some idx) None ->
  NoDup (map accessionInfo.URI (accessions Walk ReadFile dname)) ->
  Forall (fun a => contains_bar (accessionInfo.URI a) = false)
         (accessions Walk ReadFile dname) ->
  size idx = length (accessions Walk ReadFile dname)
  /\ forall j b,
       by_key (accessions Walk ReadFile dname) !! j = Some b ->
       idx !! accessionInfo.URI b
       = Some (mkNavElementView
                 (accessionInfo.Title b) (accessionInfo.URI b)
                 (match j with
                  | O => ""
                  | S i => from_option accessionInfo.URI ""
                             (by_key (accessions Walk ReadFile dname) !! i)
                  end)
                 (match j with
                  | O => ""
                  | S i => from_option accessionInfo.Title ""
                             (by_key (accessions Walk ReadFile dname) !! i)
                  end)
                 (from_option accessionInfo.URI ""
                    (by_key (accessions Walk ReadFile dname) !! S j))
                 (from_option accessionInfo.Title ""
                    (by_key (accessions Walk ReadFile dname) !! S j))
                 0).
Proof.
  intros H Hnd Hbar. split.
  - rewrite <- size_dom, (index_dom _ _ _ _ H).
    rewrite size_list_to_set by done. apply length_map.
  - intros j b Hj. rewrite (indexed_chain _ _ _ _ H Hnd Hbar j b Hj).
    unfold linked_nav. by destruct j.
Qed.

Lemma index_entries_in_full_witness :
  size (<["/u1" := mkNavElementView "A" "/u1" "" "" "/u2" "A" 0]>
       (<["/u2" := mkNavElementView "A" "/u2" "/u1" "A" "/u3" "B" 0]>
       (<["/u3" := mkNavElementView "B" "/u3" "/u2" "A" "" "" 0]>
          (∅ : gmap string NavElementView))))
  = length (accessions (tree_Walk three_accessions)
              (tree_ReadFile three_accessions) "/data").
Proof.
  apply (index_entries_in_full (tree_Walk three_accessions)
           (tree_ReadFile three_accessions) "/data").
  - vm_compute. reflexivity.
  - apply (bool_decide_unpack _). vm_compute. exact I.
  - apply (bool_decide_unpack _). vm_compute. exact I.
Defined.

(** ** Rendering *)

Lemma bracketed_not_empty (s : string) : bracketed s -> s <> "".
Proof. by intros [body ->]. Qed.

(** X8. The rendering is empty exactly when the three URIs are empty: labels
    without a URI are not shown. *)
Theorem NavElementView_String_empty_iff (nav : NavElementView) :
  NavElementView_String nav = ""
  <-> PrevURI nav = "" /\ ThisURI nav = "" /\ NextURI nav = "".
Proof.
  rewrite NavElementView_String_cases.
  pose proof (prev_fragment_bracketed nav) as Hp.
  pose proof (this_fragment_bracketed nav) as Ht.
  pose proof (next_fragment_bracketed nav) as Hn.
  unfold only_outer_fragments, present_fragments.
  destruct (String.eqb_spec (PrevURI nav) ""), (String.eqb_spec (ThisURI nav) ""),
    (String.eqb_spec (NextURI nav) ""); cbn [negb andb app Join];
    (split; [intros E | intros (? & ? & ?)]; try done;
     exfalso; revert E; apply bracketed_not_empty;
     auto using bracketed_join).
Qed.

(** X9. An entry of a returned index that is stored under a URI that is not
    empty always shows its current marker, and its fragments are joined by
    single spaces: the two-space rendering does not occur. *)
Theorem index_entries_render
    (Walk : string -> list string) (ReadFile : string -> error + document)
    (dname : string) (idx : gmap string NavElementView)
    (k : string) (nav : NavElementView) :
  MakeAccessionTitleIndex Walk ReadFile dname = Returned (Some idx) None ->
  idx !! k = Some nav -> k <> "" ->
  this_fragment nav ∈ present_fragments nav
  /\ NavElementView_String nav = Join (present_fragments nav) " ".
Proof.
  intros H Hk Hne.
  destruct (indexed_is_accession _ _ _ _ _ _ H Hk) as (a & _ & _ & _ & Hu & _).
  assert (String.eqb (ThisURI nav) "" = false) as Hthis
    by (apply String.eqb_neq; by rewrite Hu).
  split.
  - unfold present_fragments. rewrite Hthis. set_solver.
  - rewrite NavElementView_String_cases. unfold only_outer_fragments.
    by rewrite Hthis, andb_false_r.
Qed.

Lemma index_entries_render_witness :
  this_fragment (mkNavElementView "B" "/u3" "/u2" "A" "" "" 0)
    ∈ present_fragments (mkNavElementView "B" "/u3" "/u2" "A" "" "" 0)
  /\ NavElementView_String (mkNavElementView "B" "/u3" "/u2" "A" "" "" 0)
     = Join (present_fragments (mkNavElementView "B" "/u3" "/u2" "A" "" "" 0))
            " ".
Proof.
  apply (index_entries_render (tree_Walk three_accessions)
           (tree_ReadFile three_accessions) "/data"
           (<["/u1" := mkNavElementView "A" "/u1" "" "" "/u2" "A" 0]>
           (<["/u2" := mkNavElementView "A" "/u2" "/u1" "A" "/u3" "B" 0]>
           (<["/u3" := mkNavElementView "B" "/u3" "/u2" "A" "" "" 0]> ∅)))
           "/u3").
  - vm_compute. reflexivity.
  - vm_compute. reflexivity.
  - discriminate.
Defined.

(** ** Normalised views *)

Lemma omap_length_le {A B} (f : A -> option B) (l : list A) :
  length (omap f l) <= length l.
Proof.
  induction l as [|x l IH]; [done|]. rewrite omap_cons.
  destruct (f x); simpl; lia.
Qed.

Lemma omap_ext_Forall {A B} (f g : A -> option B) (l : list A) :
  Forall (fun x => f x = g x) l -> omap f l = omap g l.
Proof.
  induction 1 as [|x l Hx _ IH]; [done|]. by rewrite !omap_cons, Hx, IH.
Qed.


(** X11. The view never holds more subjects than the accession has subject
    entries, nor more digital objects than it has instances, and it
    invents nothing: every subject title is the title of the record that
    an entry's [ref] names in the subject map, and every digital object
    is the view of the record that the [ref] of an instance's
    [digital_object] names in the digital-object map. *)
Theorem NormalizeView_invents_nothing (Sprintf_s_other : value -> string)
    (a : Accession.t) (subjects : gmap string Subject.t)
    (digitalObjects : gmap string DigitalObject.t) :
  exists v,
    Accession_NormalizeView Sprintf_s_other a subjects digitalObjects
    = (Some v, None)
    /\ length (NormalizedAccessionView.Subjects v)
       <= length (Accession.Subjects a)
    /\ length (NormalizedAccessionView.DigitalObjects v)
       <= length (Accession.Instances a)
    /\ (forall title, title ∈ NormalizedAccessionView.Subjects v ->
          exists item ref rec,
            item ∈ Accession.Subjects a
            /\ item !! "ref" = Some ref
            /\ subjects !! Sprintf_s Sprintf_s_other ref = Some rec
            /\ Subject.Title rec = title)
    /\ (forall d, d ∈ NormalizedAccessionView.DigitalObjects v ->
          exists item uri obj,
            item ∈ Accession.Instances a
            /\ digital_object_ref item = Some uri
            /\ digitalObjects !! uri = Some obj
            /\ d = DigitalObject_NormalizeView obj).
Proof.
  rewrite Accession_NormalizeView_eq. eexists. split; [reflexivity|].
  cbn [NormalizedAccessionView.Subjects NormalizedAccessionView.DigitalObjects].
  split; [|split; [|split]].
  - etrans; [apply omap_length_le|]. apply omap_length_le.
  - etrans; [apply omap_length_le|]. apply omap_length_le.
  - intros title (r & Hr & Ht)%list_elem_of_omap.
    apply list_elem_of_omap in Hr as (item & Hitem & Hr).
    unfold subject_ref in Hr.
    destruct (item !! "ref") as [ref|] eqn:Href; [|done].
    injection Hr as <-.
    destruct (subjects !! Sprintf_s Sprintf_s_other ref) as [rec|] eqn:Hrec;
      [|done].
    injection Ht as <-. by exists item, ref, rec.
  - intros d (r & Hr & Hd)%list_elem_of_omap.
    apply list_elem_of_omap in Hr as (item & Hitem & Hr).
    destruct (digitalObjects !! r) as [obj|] eqn:Hobj; [|done].
    injection Hd as <-. by exists item, r, obj.
Qed.

(** X12. The view depends on the two maps only through the entries the
    accession refers to: maps that agree on those URIs give the same
    view. *)
Theorem NormalizeView_reads_referenced_only
    (Sprintf_s_other : value -> string) (a : Accession.t)
    (subjects subjects' : gmap string Subject.t)
    (digitalObjects digitalObjects' : gmap string DigitalObject.t) :
  Forall (fun r => subjects' !! r = subjects !! r)
         (subject_refs Sprintf_s_other a) ->
  Forall (fun r => digitalObjects' !! r = digitalObjects !! r)
         (digital_object_refs a) ->
  Accession_NormalizeView Sprintf_s_other a subjects' digitalObjects'
  = Accession_NormalizeView Sprintf_s_other a subjects digitalObjects.
Proof.
  intros Hs Hd. rewrite !Accession_NormalizeView_eq.
  rewrite (omap_ext_Forall
             (fun r => Subject.Title <$> subjects' !! r)
             (fun r => Subject.Title <$> subjects !! r)).
  - rewrite (omap_ext_Forall
               (fun r => DigitalObject_NormalizeView <$> digitalObjects' !! r)
               (fun r => DigitalObject_NormalizeView <$> digitalObjects !! r));
      [done|].
    eapply Forall_impl; [exact Hd|]. by intros r ->.
  - eapply Forall_impl; [exact Hs|]. by intros r ->.
Qed.

Lemma NormalizeView_reads_referenced_only_witness :
  Accession_NormalizeView example_Sprintf_s_other accession_with_two_subjects
    (<["/subjects/9" := Subject.mk "/subjects/9" "Botany"]> example_subjects)
    (∅ : gmap string DigitalObject.t)
  = Accession_NormalizeView example_Sprintf_s_other
      accession_with_two_subjects example_subjects
      (delete "/digital_objects/7" example_digital_objects).
Proof.
  apply NormalizeView_reads_referenced_only.
  - assert (subject_refs example_Sprintf_s_other accession_with_two_subjects
            = ["/subjects/1"; "/subjects/2"]) as ->
      by (vm_compute; reflexivity).
    repeat constructor.
  - assert (digital_object_refs accession_with_two_subjects
            = ["/digital_objects/7"]) as ->
      by (vm_compute; reflexivity).
    repeat constructor.
Defined.

(** X13. An instance whose [digital_object] is not a JSON object adds nothing
    to the view.  When it is an object whose [ref] is not a string, the
    re-encoding step reads the reference as the empty URI: the instance
    then shows the record stored under [""], if the map has one, and
    nothing otherwise. *)
Theorem instance_ref_read_through_strings
    (digitalObjects : gmap string DigitalObject.t)
    (v : NormalizedAccessionView.t) (item : gmap string value)
    (m : value) :
  item !! "digital_object" = Some m ->
  add_instance digitalObjects v item
  = match m with
    | VObject members =>
        match members !! "ref" with
        | Some (VString uri) =>
            match digitalObjects !! uri with
            | Some obj =>
                NormalizedAccessionView.append_DigitalObjects v
                  (DigitalObject_NormalizeView obj)
            | None => v
            end
        | Some _ =>
            match digitalObjects !! "" with
            | Some obj =>
                NormalizedAccessionView.append_DigitalObjects v
                  (DigitalObject_NormalizeView obj)
            | None => v
            end
        | None => v
        end
    | _ => v
    end.
Proof.
  intros Hm. rewrite add_instance_ref. unfold digital_object_ref.
  rewrite Hm. destruct m as [| | | | |members]; try done.
  destruct (members !! "ref") as [ref|]; [|done]. cbn.
  destruct ref; cbn; by destruct (digitalObjects !! _).
Qed.

Lemma instance_ref_read_through_strings_witness :
  add_instance
    (<["" := DigitalObject.mk "" "Untitled" false []]> example_digital_objects)
    (NormalizedAccessionView.mk "" "" "" "" [] [] [] [] [] [] "" "" "" "" "")
    {[ "digital_object" := VObject {[ "ref" := VNumber "7" ]} ]}
  = NormalizedAccessionView.mk "" "" "" "" [] [] [] []
      [NormalizedDigitalObjectView.mk "" "Untitled" false []] [] "" "" "" ""
      "".
Proof.
  etrans.
  - apply (instance_ref_read_through_strings _ _ _
             (VObject {[ "ref" := VNumber "7" ]})).
    vm_compute. reflexivity.
  - vm_compute. reflexivity.
Defined.

(** ** What the loaders return *)

Lemma foldl_insert_lookup {T : Type} (key : T -> string) (recs : list T)
    (acc : gmap string T) (k : string) (s : T) :
  foldl (fun m s => <[key s := s]> m) acc recs !! k = Some s ->
  (s ∈ recs /\ key s = k) \/ acc !! k = Some s.
Proof.
  revert acc. induction recs as [|x recs IH]; intros acc; [by right|].
  cbn [foldl]. intros [[Hin Hk]|H]%IH.
  - left. split; [by right | done].
  - destruct (decide (key x = k)) as [Hx|Hx].
    + rewrite <- Hx, lookup_insert_eq in H. injection H as <-.
      left. split; [by left | done].
    + rewrite lookup_insert_ne in H by done. by right.
Qed.

Lemma foldl_insert_size {T : Type} (key : T -> string) (recs : list T)
    (acc : gmap string T) :
  size (foldl (fun m s => <[key s := s]> m) acc recs)
  <= size acc + length recs.
Proof.
  revert acc. induction recs as [|x recs IH]; intros acc; cbn [foldl length];
    [lia|].
  etrans; [apply IH|].
  destruct (acc !! key x) eqn:E.
  - rewrite map_size_insert_Some by done. lia.
  - rewrite map_size_insert_None by done. lia.
Qed.

Section LoaderResults.
Variable ReadDir : string -> error + list string.
Variable ReadFile : string -> error + document.
Variable path_Join : string -> string -> string.
Variable Unmarshal_Subject : document -> option Subject.t * option error.
Variable Unmarshal_DigitalObject
  : document -> option DigitalObject.t * option error.

Lemma MakeSubjectList_range_Returned (dname : string) (dir : list string)
    (acc l : list (option Subject.t)) :
  MakeSubjectList_range ReadFile path_Join Unmarshal_Subject dname acc dir
  = Returned l None
  <-> Forall (fun f => loads ReadFile path_Join Unmarshal_Subject false
                         dname f = true) dir
      /\ l = (acc ++ map (record_at ReadFile path_Join Unmarshal_Subject
                            dname) dir)%list.
Proof.
  revert acc. induction dir as [|f dir IH]; intros acc.
  - cbn. rewrite app_nil_r. split; [by intros [= <-] | by intros [_ ->]].
  - cbn [MakeSubjectList_range map]. rewrite Forall_cons.
    unfold loads, record_at.
    destruct (ReadFile (path_Join dname f)) as [e|src];
      [split; [done | by intros [[? _] _]]|].
    destruct (Unmarshal_Subject src) as [[s|] [e|]]; cbn;
      try (split; [done | by intros [[? _] _]]);
      rewrite IH, <- app_assoc; cbn;
      (split; [by intros [? ->] | by intros [[_ ?] ->]]).
Qed.

Lemma MakeSubjectList_range_not_Panicked (dname : string)
    (dir : list string) (acc : list (option Subject.t)) :
  MakeSubjectList_range ReadFile path_Join Unmarshal_Subject dname acc dir
  <> Panicked.
Proof.
  revert acc. induction dir as [|f dir IH]; intros acc; [done|].
  cbn [MakeSubjectList_range].
  destruct (ReadFile (path_Join dname f)) as [e|src]; [done|].
  destruct (Unmarshal_Subject src) as [s [e|]]; [done | apply IH].
Qed.

Lemma MakeSubjectMap_range_Returned (dname : string) (dir : list string)
    (acc : gmap string Subject.t) (r : option (gmap string Subject.t)) :
  MakeSubjectMap_range ReadFile path_Join Unmarshal_Subject dname acc dir
  = Returned r None
  <-> Forall (fun f => loads ReadFile path_Join Unmarshal_Subject true
                         dname f = true) dir
      /\ r = Some (foldl (fun m s => <[Subject.URI s := s]> m) acc
                     (omap (record_at ReadFile path_Join Unmarshal_Subject
                              dname) dir)).
Proof.
  revert acc. induction dir as [|f dir IH]; intros acc.
  - cbn. split; [by intros [= <-] | by intros [_ ->]].
  - cbn [MakeSubjectMap_range]. rewrite Forall_cons, omap_cons.
    unfold loads, record_at.
    destruct (ReadFile (path_Join dname f)) as [e|src];
      [split; [done | by intros [[? _] _]]|].
    destruct (Unmarshal_Subject src) as [[s|] [e|]]; cbn;
      try (split; [done | by intros [[? _] _]]).
    rewrite IH. split; [by intros [? ->] | by intros [[_ ?] ->]].
Qed.

Lemma MakeDigitalObjectMap_range_Returned (dname : string)
    (dir : list string) (acc : gmap string DigitalObject.t)
    (r : option (gmap string DigitalObject.t)) :
  MakeDigitalObjectMap_range ReadFile path_Join Unmarshal_DigitalObject
    dname acc dir
  = Returned r None
  <-> Forall (fun f => loads ReadFile path_Join Unmarshal_DigitalObject true
                         dname f = true) dir
      /\ r = Some (foldl (fun m o => <[DigitalObject.URI o := o]> m) acc
                     (omap (record_at ReadFile path_Join
                              Unmarshal_DigitalObject dname) dir)).
Proof.
  revert acc. induction dir as [|f dir IH]; intros acc.
  - cbn. split; [by intros [= <-] | by intros [_ ->]].
  - cbn [MakeDigitalObjectMap_range]. rewrite Forall_cons, omap_cons.
    unfold loads, record_at.
    destruct (ReadFile (path_Join dname f)) as [e|src];
      [split; [done | by intros [[? _] _]]|].
    destruct (Unmarshal_DigitalObject src) as [[s|] [e|]]; cbn;
      try (split; [done | by intros [[? _] _]]).
    rewrite IH. split; [by intros [? ->] | by intros [[_ ?] ->]].
Qed.

Lemma loader_ranges_agree (dname : string) (dir : list string)
    (acc l : list (option Subject.t)) (macc : gmap string Subject.t)
    (err : option error) :
  MakeSubjectList_range ReadFile path_Join Unmarshal_Subject dname acc dir
  = Returned l err ->
  match err with
  | Some _ =>
      MakeSubjectMap_range ReadFile path_Join Unmarshal_Subject dname macc
        dir = Returned None err
      \/ MakeSubjectMap_range ReadFile path_Join Unmarshal_Subject dname
           macc dir = Panicked
  | None =>
      exists rest,
        l = (acc ++ rest)%list
        /\ (Forall is_Some rest ->
            MakeSubjectMap_range ReadFile path_Join Unmarshal_Subject dname
              macc dir
            = Returned
                (Some (foldl (fun m s => <[Subject.URI s := s]> m) macc
                         (omap id rest))) None)
        /\ (Exists (eq None) rest ->
            MakeSubjectMap_range ReadFile path_Join Unmarshal_Subject dname
              macc dir = Panicked)
  end.
Proof.
  revert acc macc. induction dir as [|f dir IH]; intros acc macc.
  - cbn. intros [= <- <-]. exists []. rewrite app_nil_r.
    split; [done|]. split; [done|]. by intros ?%Exists_nil.
  - cbn [MakeSubjectList_range MakeSubjectMap_range].
    destruct (ReadFile (path_Join dname f)) as [e|src];
      [intros [= <- <-]; by left|].
    destruct (Unmarshal_Subject src) as [[s|] [e|]];
      try (intros [= <- <-]; by left).
    + intros H. specialize (IH _ (<[Subject.URI s := s]> macc) H).
      destruct err as [e|]; [done|].
      destruct IH as (rest & -> & Hok & Hnil).
      exists (Some s :: rest). rewrite <- app_assoc.
      split; [done|]. split.
      * intros [_ Hrest]%Forall_cons. by rewrite (Hok Hrest).
      * intros [Hs|Hrest]%Exists_cons; [done | by apply Hnil].
    + intros H. destruct err as [e|]; [by right|].
      apply MakeSubjectList_range_Returned in H as [_ ->].
      exists (None :: map (record_at ReadFile path_Join Unmarshal_Subject
                              dname) dir).
      rewrite <- app_assoc. split; [done|]. split.
      * by intros [[? [=]] _]%Forall_cons.
      * done.
Qed.

(** X14. [MakeSubjectList] never panics, and it returns a list with a nil
    error exactly when the directory is readable and every entry is
    read and decoded without an error; the list then holds one element
    per directory entry, in directory order. *)
Theorem MakeSubjectList_success (dname : string) :
  MakeSubjectList ReadDir ReadFile path_Join Unmarshal_Subject dname
  <> Panicked
  /\ forall l,
       MakeSubjectList ReadDir ReadFile path_Join Unmarshal_Subject dname
       = Returned l None
       <-> exists dir,
             ReadDir dname = inr dir
             /\ Forall (fun f => loads ReadFile path_Join Unmarshal_Subject
                                   false dname f = true) dir
             /\ l = map (record_at ReadFile path_Join Unmarshal_Subject
                           dname) dir.
Proof.
  unfold MakeSubjectList. destruct (ReadDir dname) as [e|dir].
  - split; [done|]. intros l. split; [done | by intros (? & ? & _)].
  - split; [apply MakeSubjectList_range_not_Panicked|]. intros l.
    rewrite MakeSubjectList_range_Returned. cbn [app]. split.
    + intros [? ?]. by exists dir.
    + by intros (? & [= <-] & ? & ?).
Qed.

(** X15. The two map loaders return a map with a nil error exactly when the
    directory is readable and every entry is read and decoded, without
    an error, into a record; the map is then the result of storing the
    records under their URIs in directory order.  A nil map never comes
    with a nil error. *)
Theorem map_loaders_success (dname : string) :
  (forall r,
     MakeSubjectMap ReadDir ReadFile path_Join Unmarshal_Subject dname
     = Returned r None
     <-> exists dir,
           ReadDir dname = inr dir
           /\ Forall (fun f => loads ReadFile path_Join Unmarshal_Subject
                                 true dname f = true) dir
           /\ r = Some (subjects_by_URI
                          (omap (record_at ReadFile path_Join
                                   Unmarshal_Subject dname) dir)))
  /\ (forall r,
        MakeDigitalObjectMap ReadDir ReadFile path_Join
          Unmarshal_DigitalObject dname
        = Returned r None
        <-> exists dir,
              ReadDir dname = inr dir
              /\ Forall (fun f => loads ReadFile path_Join
                                    Unmarshal_DigitalObject true dname f
                                  = true) dir
              /\ r = Some (digital_objects_by_URI
                             (omap (record_at ReadFile path_Join
                                      Unmarshal_DigitalObject dname) dir))).
Proof.
  unfold MakeSubjectMap, MakeDigitalObjectMap.
  destruct (ReadDir dname) as [e|dir].
  - split; intros r; (split; [done | by intros (? & ? & _)]).
  - split; intros r.
    + rewrite MakeSubjectMap_range_Returned. split.
      * intros [? ?]. by exists dir.
      * by intros (? & [= <-] & ? & ?).
    + rewrite MakeDigitalObjectMap_range_Returned. split.
      * intros [? ?]. by exists dir.
      * by intros (? & [= <-] & ? & ?).
Qed.

(** X16. In a map that a map loader returns, every record is stored under
    its own URI and was decoded from an entry of the directory, and the
    map has at most one record per directory entry. *)
Theorem loaded_maps_keyed_by_URI (dname : string) (dir : list string) :
  ReadDir dname = inr dir ->
  (forall m,
     MakeSubjectMap ReadDir ReadFile path_Join Unmarshal_Subject dname
     = Returned (Some m) None ->
     size m <= length dir
     /\ forall k s,
          m !! k = Some s ->
          Subject.URI s = k
          /\ exists finfo,
               finfo ∈ dir
               /\ record_at ReadFile path_Join Unmarshal_Subject dname finfo
                  = Some s)
  /\ (forall m,
        MakeDigitalObjectMap ReadDir ReadFile path_Join
          Unmarshal_DigitalObject dname
        = Returned (Some m) None ->
        size m <= length dir
        /\ forall k o,
             m !! k = Some o ->
             DigitalObject.URI o = k
             /\ exists finfo,
                  finfo ∈ dir
                  /\ record_at ReadFile path_Join Unmarshal_DigitalObject
                       dname finfo
                     = Some o).
Proof.
  intros Hdir. unfold MakeSubjectMap, MakeDigitalObjectMap. rewrite Hdir.
  split; intros m.
  - intros [_ [= ->]]%MakeSubjectMap_range_Returned. split.
    + etrans; [apply foldl_insert_size|]. rewrite map_size_empty.
      cbn. apply omap_length_le.
    + intros k s [[Hin Hk]|H]%foldl_insert_lookup;
        [|by rewrite lookup_empty in H].
      split; [done|]. by apply list_elem_of_omap in Hin.
  - intros [_ [= ->]]%MakeDigitalObjectMap_range_Returned. split.
    + etrans; [apply foldl_insert_size|]. rewrite map_size_empty.
      cbn. apply omap_length_le.
    + intros k s [[Hin Hk]|H]%foldl_insert_lookup;
        [|by rewrite lookup_empty in H].
      split; [done|]. by apply list_elem_of_omap in Hin.
Qed.

(** X17. The list loader and the map loader of subjects agree.  When the
    list loader returns a list, the map loader returns the records of
    that list stored under their URIs, provided no element is nil, and
    panics when one is; when the list loader returns an error, the map
    loader returns the same error, unless it has panicked on an earlier
    entry. *)
Theorem subject_loaders_agree (dname : string)
    (l : list (option Subject.t)) (err : option error) :
  MakeSubjectList ReadDir ReadFile path_Join Unmarshal_Subject dname
  = Returned l err ->
  match err with
  | Some _ =>
      MakeSubjectMap ReadDir ReadFile path_Join Unmarshal_Subject dname
      = Returned None err
      \/ MakeSubjectMap ReadDir ReadFile path_Join Unmarshal_Subject dname
         = Panicked
  | None =>
      (Forall is_Some l ->
       MakeSubjectMap ReadDir ReadFile path_Join Unmarshal_Subject dname
       = Returned (Some (subjects_by_URI (omap id l))) None)
      /\ (Exists (eq None) l ->
          MakeSubjectMap ReadDir ReadFile path_Join Unmarshal_Subject dname
          = Panicked)
  end.
Proof.
  unfold MakeSubjectList, MakeSubjectMap.
  destruct (ReadDir dname) as [e|dir]; [intros [= <- <-]; by left|].
  intros H. apply (loader_ranges_agree _ _ _ _ ∅) in H.
  destruct err as [e|]; [done|]. by destruct H as (rest & -> & ? & ?).
Qed.
End LoaderResults.

Lemma loaded_maps_keyed_by_URI_witness :
  size (subjects_by_URI
          [Subject.mk "/subjects/1" "Physics";
           Subject.mk "/subjects/2" "Astronomy"])
  <= length ["1.json"; "2.json"].
Proof.
  apply (proj1 (loaded_maps_keyed_by_URI example_ReadDir_good
                  (tree_ReadFile example_files_good) example_Join
                  example_Unmarshal_Subject example_Unmarshal_DigitalObject
                  "/data/good" ["1.json"; "2.json"] eq_refl)).
  vm_compute. reflexivity.
Defined.

Lemma subject_loaders_agree_witness :
  MakeSubjectMap example_ReadDir_good (tree_ReadFile example_files_good)
    example_Join example_Unmarshal_Subject "/data/good"
  = Returned
      (Some (subjects_by_URI
               [Subject.mk "/subjects/1" "Physics";
                Subject.mk "/subjects/2" "Astronomy"])) None.
Proof.
  apply (proj1 (subject_loaders_agree example_ReadDir_good
                  (tree_ReadFile example_files_good) example_Join
                  example_Unmarshal_Subject "/data/good"
                  [Some (Subject.mk "/subjects/1" "Physics");
                   Some (Subject.mk "/subjects/2" "Astronomy")] None
                  ltac:(vm_compute; reflexivity))).
  repeat constructor; by eexists.
Defined.

(** ** The command line tool *)

Lemma Compare_0 (a b : string) : (Compare a b =? 0)%Z = true <-> a = b.
Proof.
  unfold Compare. split.
  - destruct (String.compare a b) eqn:E; [|done..].
    intros _. by apply String.compare_eq_iff.
  - intros <-. pose proof (String.compare_antisym a a) as H.
    by destruct (String.compare a a).
Qed.

Lemma containsElement_elem_of (src : list string) (elem : string) :
  aspace.containsElement src elem = true <-> elem ∈ src.
Proof.
  induction src as [|item src IH]; cbn [aspace.containsElement].
  - split; [done | by intros ?%elem_of_nil].
  - rewrite elem_of_cons.
    destruct (Compare item elem =? 0)%Z eqn:E.
    + apply Compare_0 in E as ->. split; [by left | done].
    + rewrite IH. split; [by right|]. intros [->|?]; [|done].
      assert ((Compare item item =? 0)%Z = true) by (by apply Compare_0).
      congruence.
Qed.

Lemma containsElement_false (src : list string) (elem : string) :
  aspace.containsElement src elem = false <-> elem ∉ src.
Proof.
  rewrite <- containsElement_elem_of.
  by destruct (aspace.containsElement src elem).
Qed.

Lemma Join_nil_payload (arg0 arg1 : string) (rest : list string) :
  (if (2 <? length (arg0 :: arg1 :: rest))%nat then Join rest " " else "")
  = Join rest " ".
Proof. by destruct rest. Qed.

Lemma parseCmd_cases (arg0 arg1 : string) (rest : list string) :
  aspace.parseCmd (arg0 :: arg1 :: rest)
  = if aspace.containsElement aspace.subjects arg0 then
      if aspace.containsElement aspace.actions arg1 then
        (Some (aspace.mkCommand arg0 arg1 (Join rest " ") []), None)
      else
        (None,
         Some (arg1
               +:+ " is not an action (e.g. create, list, update, delete, export, import)"))
    else
      (None,
       Some (arg0
             +:+ " is not a subject (e.g. instance, repository, agent, accession)")).
Proof.
  unfold aspace.parseCmd. rewrite Join_nil_payload.
  destruct (aspace.containsElement aspace.subjects arg0); [|done].
  by destruct (aspace.containsElement aspace.actions arg1).
Qed.

(** X18. [parseCmd] accepts an argument list exactly when it has at least two
    arguments, the first is one of the four subjects and the second one
    of the six actions, compared byte by byte.  The command then holds
    these two, the remaining arguments joined by single spaces as its
    payload (empty when there are none), and no options.  It returns
    either a command or an error, never both and never neither. *)
Theorem parseCmd_accepts (args : list string) :
  (forall cmd,
     fst (aspace.parseCmd args) = Some cmd
     <-> exists subject action rest,
           args = subject :: action :: rest
           /\ subject ∈ aspace.subjects
           /\ action ∈ aspace.actions
           /\ cmd = aspace.mkCommand subject action (Join rest " ") [])
  /\ (is_Some (fst (aspace.parseCmd args))
      <-> snd (aspace.parseCmd args) = None).
Proof.
  destruct args as [|arg0 [|arg1 rest]];
    [split; [intros cmd; split; [done | by intros (? & ? & ? & ? & _)]
            | split; [by intros [? ?] | done]]..|].
  rewrite parseCmd_cases.
  destruct (aspace.containsElement aspace.subjects arg0) eqn:Hs.
  - destruct (aspace.containsElement aspace.actions arg1) eqn:Ha.
    + apply containsElement_elem_of in Hs, Ha.
      split; [intros cmd|]; cbn; [|by split].
      split.
      * intros [= <-]. by exists arg0, arg1, rest.
      * by intros (? & ? & ? & [= <- <- <-] & _ & _ & ->).
    + apply containsElement_false in Ha.
      split; [intros cmd; split; [done|] | split; [by intros [? ?] | done]].
      by intros (? & ? & ? & [= <- <- <-] & _ & ? & _).
  - apply containsElement_false in Hs.
    split; [intros cmd; split; [done|] | split; [by intros [? ?] | done]].
    by intros (? & ? & ? & [= <- <- <-] & ? & _).
Qed.

(** X19. The three errors of [parseCmd], in the order of the checks: fewer
    than two arguments; a first argument that is not a subject, whatever
    the second is; a second argument that is not an action.  The message
    quotes the offending argument and lists the accepted words, and no
    command comes with an error. *)
Theorem parseCmd_rejects (args : list string) (err : error) :
  snd (aspace.parseCmd args) = Some err ->
  fst (aspace.parseCmd args) = None
  /\ ((length args < 2
       /\ err = "Commands have the form SUBJECT ACTION [OBJECT] [OPTIONS]")
      \/ (exists subject action rest,
            args = subject :: action :: rest
            /\ (subject ∉ aspace.subjects)
            /\ err = subject
                     +:+ " is not a subject (e.g. instance, repository, agent, accession)")
      \/ (exists subject action rest,
            args = subject :: action :: rest
            /\ subject ∈ aspace.subjects
            /\ (action ∉ aspace.actions)
            /\ err = action
                     +:+ " is not an action (e.g. create, list, update, delete, export, import)")).
Proof.
  destruct args as [|arg0 [|arg1 rest]].
  - intros [= <-]. split; [done|]. left. cbn. split; [lia | done].
  - intros [= <-]. split; [done|]. left. cbn. split; [lia | done].
  - rewrite parseCmd_cases.
    destruct (aspace.containsElement aspace.subjects arg0) eqn:Hs.
    + destruct (aspace.containsElement aspace.actions arg1) eqn:Ha; [done|].
      apply containsElement_elem_of in Hs. apply containsElement_false in Ha.
      intros [= <-]. split; [done|]. right. right.
      by exists arg0, arg1, rest.
    + apply containsElement_false in Hs.
      intros [= <-]. split; [done|]. right. left.
      by exists arg0, arg1, rest.
Qed.

Lemma parseCmd_rejects_witness :
  fst (aspace.parseCmd ["Repository"; "remove"]) = None
  /\ ((length ["Repository"; "remove"] < 2
       /\ "Repository is not a subject (e.g. instance, repository, agent, accession)"
          = "Commands have the form SUBJECT ACTION [OBJECT] [OPTIONS]")
      \/ (exists subject action rest,
            ["Repository"; "remove"] = subject :: action :: rest
            /\ (subject ∉ aspace.subjects)
            /\ "Repository is not a subject (e.g. instance, repository, agent, accession)"
               = subject
                 +:+ " is not a subject (e.g. instance, repository, agent, accession)")
      \/ (exists subject action rest,
            ["Repository"; "remove"] = subject :: action :: rest
            /\ subject ∈ aspace.subjects
            /\ (action ∉ aspace.actions)
            /\ "Repository is not a subject (e.g. instance, repository, agent, accession)"
               = action
                 +:+ " is not an action (e.g. create, list, update, delete, export, import)")).
Proof.
  apply (parseCmd_rejects ["Repository"; "remove"]).
  vm_compute. reflexivity.
Defined.

Section EnvironmentFacts.
Variable Getenv : string -> string.

Lemma configureApp_range_ok (conf : gmap string string)
    (keys : list string) :
  Forall (fun ky => Getenv ky <> "") keys ->
  aspace.configureApp_range Getenv conf keys
  = (Some (foldl (fun m ky => <[ky := Getenv ky]> m) conf keys), None).
Proof.
  revert conf. induction keys as [|ky keys IH]; intros conf H; [done|].
  apply Forall_cons in H as [Hky H].
  cbn [aspace.configureApp_range foldl]. rewrite lookup_insert_eq. cbn.
  apply String.eqb_neq in Hky. rewrite Hky. by apply IH.
Qed.

Lemma configureApp_range_undefined (conf : gmap string string)
    (before after : list string) (ky : string) :
  Forall (fun ky => Getenv ky <> "") before ->
  Getenv ky = "" ->
  aspace.configureApp_range Getenv conf (before ++ ky :: after)
  = (None,
     Some (ky +:+ " is undefined in the enviroment (e.g. try export "
           +:+ ky +:+ "=SOME_VALUE_FOR_" +:+ ky +:+ ")")).
Proof.
  intros H Hky. revert conf.
  induction H as [|k before Hk _ IH]; intros conf.
  - cbn [app aspace.configureApp_range]. rewrite lookup_insert_eq. cbn.
    by rewrite Hky.
  - cbn [app aspace.configureApp_range]. rewrite lookup_insert_eq. cbn.
    apply String.eqb_neq in Hk. rewrite Hk. apply IH.
Qed.

Lemma foldl_Getenv_lookup (conf : gmap string string) (keys : list string)
    (ky : string) :
  foldl (fun m ky => <[ky := Getenv ky]> m) conf keys !! ky
  = if decide (ky ∈ keys) then Some (Getenv ky) else conf !! ky.
Proof.
  revert conf. induction keys as [|k keys IH]; intros conf.
  - cbn. by rewrite decide_False by apply not_elem_of_nil.
  - cbn [foldl]. rewrite IH. destruct (decide (ky ∈ keys)) as [Hin|Hin].
    + rewrite decide_True; [done | by right].
    + destruct (decide (k = ky)) as [->|Hne].
      * rewrite lookup_insert_eq, decide_True; [done | by left].
      * rewrite lookup_insert_ne by done.
        rewrite decide_False; [done|].
        intros [?|?]%elem_of_cons; congruence.
Qed.

Lemma first_undefined (keys : list string) :
  Forall (fun ky => Getenv ky <> "") keys
  \/ exists before ky after,
       keys = (before ++ ky :: after)%list
       /\ Forall (fun ky => Getenv ky <> "") before
       /\ Getenv ky = "".
Proof.
  induction keys as [|k keys IH]; [by left|].
  destruct (decide (Getenv k = "")) as [Hk|Hk].
  - right. by exists [], k, keys.
  - destruct IH as [IH|(before & ky & after & -> & Hb & Hky)].
    + left. by constructor.
    + right. exists (k :: before), ky, after. split; [done|].
      split; [by constructor | done].
Qed.

(** X20. [configureApp] returns a configuration exactly when the five
    [ASPACE_] variables are all set to something non-empty; the
    configuration then holds these five keys and no others, each with
    the value of the environment.  Otherwise it returns the nil map and
    an error that names the first of the five, in the order protocol,
    host, port, user name, password, that is empty or unset. *)
Theorem configureApp_outcome :
  (Forall (fun ky => Getenv ky <> "") aspace.envKeys ->
   exists conf,
     aspace.configureApp Getenv = (Some conf, None)
     /\ forall ky,
          conf !! ky
          = if decide (ky ∈ aspace.envKeys) then Some (Getenv ky) else None)
  /\ (forall before ky after,
        aspace.envKeys = (before ++ ky :: after)%list ->
        Forall (fun ky => Getenv ky <> "") before ->
        Getenv ky = "" ->
        aspace.configureApp Getenv
        = (None,
           Some (ky +:+ " is undefined in the enviroment (e.g. try export "
                 +:+ ky +:+ "=SOME_VALUE_FOR_" +:+ ky +:+ ")")))
  /\ (is_Some (fst (aspace.configureApp Getenv))
      <-> snd (aspace.configureApp Getenv) = None).
Proof.
  unfold aspace.configureApp. split; [|split].
  - intros H. eexists. split; [by apply configureApp_range_ok|].
    intros ky. by rewrite foldl_Getenv_lookup, lookup_empty.
  - intros before ky after -> Hb Hky.
    by apply configureApp_range_undefined.
  - destruct (first_undefined aspace.envKeys)
      as [H|(before & ky & after & -> & Hb & Hky)].
    + by rewrite configureApp_range_ok.
    + rewrite configureApp_range_undefined by done. cbn.
      split; [by intros [? ?] | done].
Qed.
End EnvironmentFacts.

Lemma configureApp_outcome_witness :
  aspace.configureApp example_Getenv
  = (None,
     Some "ASPACE_PORT is undefined in the enviroment (e.g. try export ASPACE_PORT=SOME_VALUE_FOR_ASPACE_PORT)").
Proof.
  apply (proj1 (proj2 (configureApp_outcome example_Getenv))
           ["ASPACE_PROTOCOL"; "ASPACE_HOST"] "ASPACE_PORT"
           ["ASPACE_USERNAME"; "ASPACE_PASSWORD"]).
  - reflexivity.
  - repeat constructor; discriminate.
  - reflexivity.
Defined.

(** X21. A command that [parseCmd] accepts is handed to the repository
    commands when its subject is [instance] or [repository]; for the other
    two subjects, [agent] and [accession], [runCmd] returns no output and
    the error [<subject> <action> not implemented], whatever the action,
    the payload and the configuration are. *)
Theorem accepted_commands_dispatch
    (runRepoCmd : aspace.command -> gmap string string -> outcome string)
    (args : list string) (cmd : aspace.command)
    (config : gmap string string) :
  fst (aspace.parseCmd args) = Some cmd ->
  (aspace.Subject cmd ∈ ["instance"; "repository"]
   /\ aspace.runCmd runRepoCmd cmd config = runRepoCmd cmd config)
  \/ (aspace.Subject cmd ∈ ["agent"; "accession"]
      /\ aspace.runCmd runRepoCmd cmd config
         = Returned ""
             (Some (aspace.Subject cmd +:+ " " +:+ aspace.Action cmd
                    +:+ " not implemented"))).
Proof.
  destruct args as [|arg0 [|arg1 rest]]; [done..|].
  rewrite parseCmd_cases.
  destruct (aspace.containsElement aspace.subjects arg0) eqn:Hs; [|done].
  destruct (aspace.containsElement aspace.actions arg1); [|done].
  intros [= <-]. apply containsElement_elem_of in Hs.
  unfold aspace.runCmd. cbn [aspace.Subject aspace.Action].
  unfold aspace.subjects in Hs.
  rewrite !elem_of_cons in Hs.
  destruct Hs as [->|[->|[->|[->|Hs]]]]; [| | | |by apply elem_of_nil in Hs].
  - left. split; [by left | done].
  - left. split; [right; by left | done].
  - right. split; [by left | done].
  - right. split; [right; by left | done].
Qed.

Lemma accepted_commands_dispatch_witness :
  (aspace.Subject (aspace.mkCommand "agent" "list" "" [])
     ∈ ["instance"; "repository"]
   /\ aspace.runCmd example_runRepoCmd
        (aspace.mkCommand "agent" "list" "" []) ∅
      = example_runRepoCmd (aspace.mkCommand "agent" "list" "" []) ∅)
  \/ (aspace.Subject (aspace.mkCommand "agent" "list" "" [])
        ∈ ["agent"; "accession"]
      /\ aspace.runCmd example_runRepoCmd
           (aspace.mkCommand "agent" "list" "" []) ∅
         = Returned ""
             (Some (aspace.Subject (aspace.mkCommand "agent" "list" "" [])
                    +:+ " "
                    +:+ aspace.Action (aspace.mkCommand "agent" "list" "" [])
                    +:+ " not implemented"))).
Proof.
  apply (accepted_commands_dispatch example_runRepoCmd ["agent"; "list"]).
  vm_compute. reflexivity.
Defined.

(** ** The run of the tool *)

Lemma configureApp_total (Getenv : string -> string) :
  (exists conf, aspace.configureApp Getenv = (Some conf, None))
  \/ (exists ky, aspace.configureApp Getenv = (None, Some (undefined_message ky))).
Proof.
  unfold aspace.configureApp.
  destruct (first_undefined Getenv aspace.envKeys)
    as [H|(before & ky & after & -> & Hb & Hky)].
  - left. eexists. by apply configureApp_range_ok.
  - right. exists ky. by apply configureApp_range_undefined.
Qed.

Lemma parseCmd_total (args : list string) :
  (exists cmd, aspace.parseCmd args = (Some cmd, None))
  \/ (aspace.parseCmd args
      = (None, Some "Commands have the form SUBJECT ACTION [OBJECT] [OPTIONS]")
      /\ length args < 2)
  \/ (exists arg,
        aspace.parseCmd args
        = (None,
           Some (arg
                 +:+ " is not a subject (e.g. instance, repository, agent, accession)")))
  \/ (exists arg,
        aspace.parseCmd args
        = (None,
           Some (arg
                 +:+ " is not an action (e.g. create, list, update, delete, export, import)"))).
Proof.
  destruct args as [|arg0 [|arg1 rest]];
    [right; left; split; [done | cbn; lia]..|].
  rewrite parseCmd_cases.
  destruct (aspace.containsElement aspace.subjects arg0).
  - destruct (aspace.containsElement aspace.actions arg1).
    + left. by eexists.
    + right. right. right. by eexists.
  - right. right. left. by eexists.
Qed.

Lemma last_char_append (a b : string) (c : ascii) :
  last_char b = Some c -> last_char (a +:+ b) = Some c.
Proof.
  intros Hb. induction a as [|x a IH]; [by rewrite append_nil_l|].
  rewrite append_cons.
  change (last_char (String x (a +:+ b)))
    with (match a +:+ b with
          | EmptyString => Some x
          | String _ _ => last_char (a +:+ b)
          end).
  by destruct (a +:+ b).
Qed.

Lemma undefined_message_last (ky : string) :
  last_char (undefined_message ky) = Some ")"%char.
Proof. unfold undefined_message. by repeat apply last_char_append. Qed.

Section MainFacts.
Variable Getenv : string -> string.
Variable ReadFile : string -> error + string.
Variable runRepoCmd : aspace.command -> gmap string string -> outcome string.

(** What [main] does once the help flag and the number of arguments
    have been checked. *)
Lemma main_cases (payload : string) (args : list string) :
  2 <= length args ->
  aspace.main Getenv ReadFile runRepoCmd false payload args
  = match aspace.configureApp Getenv with
    | (_, Some err) => aspace.usage err 1
    | (config, None) =>
        match aspace.parseCmd args with
        | (_, Some err) => aspace.usage err 1
        | (None, None) => aspace.panic
        | (Some c, None) =>
            let run (c : aspace.command) :=
              match aspace.runCmd runRepoCmd c (default ∅ config) with
              | Panicked => aspace.panic
              | Returned _ (Some err) => aspace.Println_Exit err 1
              | Returned src None => aspace.Println_Exit src 0
              end in
            if String.eqb payload "" then run c
            else match ReadFile payload with
                 | inl _ => aspace.usage ("Cannot read " +:+ payload) 1
                 | inr src => run (aspace.set_Payload c src)
                 end
        end
    end.
Proof.
  intros Hlen. unfold aspace.main.
  assert ((length args <? 2)%nat = false) as -> by (apply Nat.ltb_ge; lia).
  destruct (aspace.configureApp Getenv) as [config [e|]]; [done|].
  destruct (parseCmd_total args)
    as [[c ->]|[[-> ?]|[[a ->]|[a ->]]]]; [|done..].
  by destruct (String.eqb payload "").
Qed.

(** How the run of a command ends. *)
Lemma run_ends (cmd : aspace.command) (conf : gmap string string) :
  (match aspace.runCmd runRepoCmd cmd conf with
   | Panicked => aspace.panic
   | Returned _ (Some err) => aspace.Println_Exit err 1
   | Returned src None => aspace.Println_Exit src 0
   end = aspace.panic ->
   aspace.Subject cmd ∈ ["repository"; "instance"]
   /\ runRepoCmd cmd conf = Panicked)
  /\ (forall msg code,
        match aspace.runCmd runRepoCmd cmd conf with
        | Panicked => aspace.panic
        | Returned _ (Some err) => aspace.Println_Exit err 1
        | Returned src None => aspace.Println_Exit src 0
        end <> aspace.usage msg code)
  /\ (forall line code,
        match aspace.runCmd runRepoCmd cmd conf with
        | Panicked => aspace.panic
        | Returned _ (Some err) => aspace.Println_Exit err 1
        | Returned src None => aspace.Println_Exit src 0
        end = aspace.Println_Exit line code ->
        (code = 0%Z /\ aspace.runCmd runRepoCmd cmd conf = Returned line None)
        \/ (code = 1%Z
            /\ exists out,
                 aspace.runCmd runRepoCmd cmd conf
                 = Returned out (Some line))).
Proof.
  split; [|split].
  - unfold aspace.runCmd.
    destruct (String.eqb_spec (aspace.Subject cmd) "repository") as [->|_].
    { destruct (runRepoCmd cmd conf) as [out [e|]|]; [done..|].
      intros _. split; [by left | done]. }
    destruct (String.eqb_spec (aspace.Subject cmd) "instance") as [->|_];
      [|done].
    destruct (runRepoCmd cmd conf) as [out [e|]|]; [done..|].
    intros _. split; [right; by left | done].
  - intros msg code.
    by destruct (aspace.runCmd runRepoCmd cmd conf) as [out [e|]|].
  - intros line code.
    destruct (aspace.runCmd runRepoCmd cmd conf) as [out [e|]|]; [| |done].
    + intros [= <- <-]. right. split; [done|]. by exists out.
    + intros [= <- <-]. left. by split.
Qed.

(** X22. [main] panics only inside [runRepoCmd]: when it panics, the
    environment was complete, the arguments were accepted with the
    subject [repository] or [instance], and [runRepoCmd] has panicked
    on the command it was handed.  When [main] ends through the help
    text, it exits with 0 and no message if help was asked for, and
    otherwise with 1 and a message that is not empty.  When it ends
    with a line of output, the environment was complete and the
    arguments were accepted, and the line is the output of [runCmd]
    with exit code 0, or its error with exit code 1. *)
Theorem main_exits (help : bool) (payload : string) (args : list string) :
  (aspace.main Getenv ReadFile runRepoCmd help payload args = aspace.panic ->
   help = false
   /\ exists conf parsed cmd,
        aspace.configureApp Getenv = (Some conf, None)
        /\ aspace.parseCmd args = (Some parsed, None)
        /\ aspace.Subject cmd = aspace.Subject parsed
        /\ aspace.Action cmd = aspace.Action parsed
        /\ aspace.Subject cmd ∈ ["repository"; "instance"]
        /\ runRepoCmd cmd conf = Panicked)
  /\ (forall msg code,
        aspace.main Getenv ReadFile runRepoCmd help payload args
        = aspace.usage msg code ->
        (help = true /\ msg = "" /\ code = 0%Z)
        \/ (help = false /\ msg <> "" /\ code = 1%Z))
  /\ (forall line code,
        aspace.main Getenv ReadFile runRepoCmd help payload args
        = aspace.Println_Exit line code ->
        help = false
        /\ exists conf parsed cmd,
             aspace.configureApp Getenv = (Some conf, None)
             /\ aspace.parseCmd args = (Some parsed, None)
             /\ aspace.Subject cmd = aspace.Subject parsed
             /\ aspace.Action cmd = aspace.Action parsed
             /\ ((code = 0%Z
                  /\ aspace.runCmd runRepoCmd cmd conf
                     = Returned line None)
                 \/ (code = 1%Z
                     /\ exists out,
                          aspace.runCmd runRepoCmd cmd conf
                          = Returned out (Some line)))).
Proof.
  destruct help.
  { split; [done|]. split; [|done]. intros msg code [= <- <-]. by left. }
  destruct (decide (2 <= length args)) as [Hlen|Hlen].
  2: { unfold aspace.main.
       assert ((length args <? 2)%nat = true) as ->
         by (apply Nat.ltb_lt; lia).
       split; [done|]. split; [|done]. intros msg code [= <- <-].
       by right. }
  rewrite (main_cases payload args Hlen).
  destruct (configureApp_total Getenv) as [[conf ->]|[ky ->]].
  2: { split; [done|]. split; [|done]. intros msg code [= <- <-]. right.
       split; [done|]. split; [|done]. intros E.
       pose proof (undefined_message_last ky) as H. by rewrite E in H. }
  destruct (parseCmd_total args)
    as [[c ->]|[[-> ?]|[[a ->]|[a ->]]]].
  2: lia.
  2, 3: split; [done|]; split; [|done]; intros msg code [= <- <-]; right;
        (split; [done|]); (split; [|done]); by apply append_not_nil_r.
  cbn [default].
  assert (Hrun : forall cmd,
    aspace.Subject cmd = aspace.Subject c ->
    aspace.Action cmd = aspace.Action c ->
    (match aspace.runCmd runRepoCmd cmd conf with
     | Panicked => aspace.panic
     | Returned _ (Some err) => aspace.Println_Exit err 1
     | Returned src None => aspace.Println_Exit src 0
     end = aspace.panic ->
     false = false
     /\ exists conf' parsed cmd',
          (Some conf, @None error) = (Some conf', None)
          /\ (Some c, @None error) = (Some parsed, None)
          /\ aspace.Subject cmd' = aspace.Subject parsed
          /\ aspace.Action cmd' = aspace.Action parsed
          /\ aspace.Subject cmd' ∈ ["repository"; "instance"]
          /\ runRepoCmd cmd' conf' = Panicked)
    /\ (forall msg code,
          match aspace.runCmd runRepoCmd cmd conf with
          | Panicked => aspace.panic
          | Returned _ (Some err) => aspace.Println_Exit err 1
          | Returned src None => aspace.Println_Exit src 0
          end = aspace.usage msg code ->
          (false = true /\ msg = "" /\ code = 0%Z)
          \/ (false = false /\ msg <> "" /\ code = 1%Z))
    /\ (forall line code,
          match aspace.runCmd runRepoCmd cmd conf with
          | Panicked => aspace.panic
          | Returned _ (Some err) => aspace.Println_Exit err 1
          | Returned src None => aspace.Println_Exit src 0
          end = aspace.Println_Exit line code ->
          false = false
          /\ exists conf' parsed cmd',
               (Some conf, @None error) = (Some conf', None)
               /\ (Some c, @None error) = (Some parsed, None)
               /\ aspace.Subject cmd' = aspace.Subject parsed
               /\ aspace.Action cmd' = aspace.Action parsed
               /\ ((code = 0%Z
                    /\ aspace.runCmd runRepoCmd cmd' conf'
                       = Returned line None)
                   \/ (code = 1%Z
                       /\ exists out,
                            aspace.runCmd runRepoCmd cmd' conf'
                            = Returned out (Some line))))).
  { intros cmd Hs Ha.
    destruct (run_ends cmd conf) as (Hpanic & Husage & Hline).
    split; [|split].
    - intros [Hsub Hp]%Hpanic. split; [done|]. by exists conf, c, cmd.
    - intros msg code E. by apply Husage in E.
    - intros line code E%Hline. split; [done|]. by exists conf, c, cmd. }
  destruct (String.eqb payload "") eqn:Hp; [by apply Hrun|].
  destruct (ReadFile payload) as [e|src]; [|by apply Hrun].
  split; [done|]. split; [|done]. intros msg code [= <- <-]. right.
  split; [done|]. split; [|done]. by rewrite append_cons.
Qed.

(** X23. The checks of [main] come in a fixed order.  An incomplete
    environment is reported first, whatever the arguments are; then
    arguments that [parseCmd] rejects, whether or not the payload file
    can be read; then a payload file that cannot be read, before any
    command is run.  When the payload file is read, its content
    replaces the payload of the command line. *)
Theorem main_order_of_checks (payload : string) (args : list string) :
  2 <= length args ->
  (forall before ky after,
     aspace.envKeys = (before ++ ky :: after)%list ->
     Forall (fun ky => Getenv ky <> "") before ->
     Getenv ky = "" ->
     aspace.main Getenv ReadFile runRepoCmd false payload args
     = aspace.usage (undefined_message ky) 1)
  /\ (Forall (fun ky => Getenv ky <> "") aspace.envKeys ->
      (forall err,
         snd (aspace.parseCmd args) = Some err ->
         aspace.main Getenv ReadFile runRepoCmd false payload args
         = aspace.usage err 1)
      /\ (forall cmd cause,
            fst (aspace.parseCmd args) = Some cmd ->
            payload <> "" ->
            ReadFile payload = inl cause ->
            aspace.main Getenv ReadFile runRepoCmd false payload args
            = aspace.usage ("Cannot read " +:+ payload) 1)
      /\ (forall cmd conf src,
            fst (aspace.parseCmd args) = Some cmd ->
            fst (aspace.configureApp Getenv) = Some conf ->
            payload <> "" ->
            ReadFile payload = inr src ->
            aspace.main Getenv ReadFile runRepoCmd false payload args
            = match aspace.runCmd runRepoCmd (aspace.set_Payload cmd src)
                      conf with
              | Panicked => aspace.panic
              | Returned _ (Some err) => aspace.Println_Exit err 1
              | Returned out None => aspace.Println_Exit out 0
              end)).
Proof.
  intros Hlen. rewrite (main_cases payload args Hlen). split.
  - intros before ky after Hk Hb Hky. unfold aspace.configureApp.
    rewrite Hk. by rewrite configureApp_range_undefined.
  - intros Henv. unfold aspace.configureApp.
    rewrite configureApp_range_ok by done. cbn [default fst].
    destruct (parseCmd_total args)
      as [[c ->]|[[-> ?]|[[a ->]|[a ->]]]].
    2: lia.
    2, 3: split; [by intros err [= <-]|]; by split.
    split; [done|]. cbn [fst]. split.
    + intros cmd cause [= <-] Hp Hr. apply String.eqb_neq in Hp.
      by rewrite Hp, Hr.
    + intros cmd conf src [= <-] [= <-] Hp Hr. apply String.eqb_neq in Hp.
      by rewrite Hp, Hr.
Qed.

(** X24. [main] asks for at least two arguments before it calls [parseCmd],
    so the message of [parseCmd] for too few arguments is never the one
    shown. *)
Theorem main_never_reports_arity (help : bool) (payload : string)
    (args : list string) (code : Z) :
  aspace.main Getenv ReadFile runRepoCmd help payload args
  <> aspace.usage
       "Commands have the form SUBJECT ACTION [OBJECT] [OPTIONS]" code.
Proof.
  destruct help; [done|].
  destruct (decide (2 <= length args)) as [Hlen|Hlen].
  2: { unfold aspace.main.
       assert ((length args <? 2)%nat = true) as ->
         by (apply Nat.ltb_lt; lia).
       done. }
  rewrite (main_cases payload args Hlen).
  destruct (configureApp_total Getenv) as [[conf ->]|[ky ->]].
  2: { intros [= E _]. pose proof (undefined_message_last ky) as H.
       by rewrite E in H. }
  destruct (parseCmd_total args)
    as [[c ->]|[[-> ?]|[[a ->]|[a ->]]]].
  2: lia.
  2: { intros [= E _].
       pose proof (last_char_append a
                     " is not a subject (e.g. instance, repository, agent, accession)"
                     ")"%char eq_refl) as H.
       by rewrite E in H. }
  2: { intros [= E _].
       pose proof (last_char_append a
                     " is not an action (e.g. create, list, update, delete, export, import)"
                     ")"%char eq_refl) as H.
       by rewrite E in H. }
  cbn [default].
  destruct (String.eqb payload ""); [apply run_ends|].
  destruct (ReadFile payload) as [e|src]; [|apply run_ends].
  rewrite 2!append_cons. discriminate.
Qed.
End MainFacts.

Lemma main_order_of_checks_witness :
  aspace.main example_Getenv example_payload_file example_runRepoCmd false
    "missing.json" ["bogus"; "list"]
  = aspace.usage (undefined_message "ASPACE_PORT") 1.
Proof.
  apply (proj1 (main_order_of_checks example_Getenv example_payload_file
                  example_runRepoCmd "missing.json" ["bogus"; "list"]
                  (le_n 2))
           ["ASPACE_PROTOCOL"; "ASPACE_HOST"] "ASPACE_PORT"
           ["ASPACE_USERNAME"; "ASPACE_PASSWORD"]).
  - reflexivity.
  - repeat constructor; discriminate.
  - reflexivity.
Defined.

Lemma main_exits_witness :
  false = false
  /\ exists conf parsed cmd,
       aspace.configureApp example_Getenv_full = (Some conf, None)
       /\ aspace.parseCmd ["repository"; "list"; "null"]
          = (Some parsed, None)
       /\ aspace.Subject cmd = aspace.Subject parsed
       /\ aspace.Action cmd = aspace.Action parsed
       /\ aspace.Subject cmd ∈ ["repository"; "instance"]
       /\ example_runRepoCmd_null cmd conf = Panicked.
Proof.
  apply (main_exits example_Getenv_full example_payload_file
           example_runRepoCmd_null false "" ["repository"; "list"; "null"]).
  vm_compute. reflexivity.
Defined.
